(** * FunctionPass: function-boundary discovery over a basic-block list

    A shallow embedding of [src/x64_dbg_dbg/FunctionPass.cpp] (the x64 build:
    [uint] is a 64-bit unsigned integer) and the properties of its
    discovery run: shard decomposition, metadata prepass, control-flow
    scan, boundary resolution, merge and commit. *)

From Stdlib Require Import ZArith List Bool Lia Permutation Sorted.
Import ListNotations.
Local Open Scope Z_scope.

(** ** Machine integers *)

(** [uint] values are integers in [0, 2^64); arithmetic wraps around. *)
Definition uint_modulus : Z := 2 ^ 64.
Definition wrap (z : Z) : Z := z mod uint_modulus.

(** A [std::vector] never holds more than [PTRDIFF_MAX] elements. *)
Definition vector_max_size : Z := 2 ^ 63 - 1.

(** ** Fallible steps

    Reading a block outside [m_MainBlocks] (or dividing by a zero thread
    count) is undefined behaviour in the source; the model stops with
    [None] there. *)
Definition bind {A B : Type} (o : option A) (k : A -> option B) : option B :=
  match o with
  | Some a => k a
  | None => None
  end.

Notation "x <- e ;; k" := (bind e (fun x => k))
  (at level 61, e at next level, right associativity).
Notation "' p <- e ;; k" := (bind e (fun p => k))
  (at level 61, p pattern, e at next level, right associativity).

(** ** Basic blocks *)

(** Modelled from the spec: the flag constants of the basic-block header,
    which is not among the sources.  The spec gives a block a flag set
    {CALL, INDIRECT_POINTER, CLAIMED}; each flag is one bit of the
    [Flags] word, the three bits distinct.  [BASIC_BLOCK_FLAG_FUNCTION] is
    the CLAIMED flag. *)
Definition BASIC_BLOCK_FLAG_FUNCTION : Z := Z.shiftl 1 1.

(** Modelled from the spec: the CALL flag of the missing header. *)
Definition BASIC_BLOCK_FLAG_CALL : Z := Z.shiftl 1 5.

(** Modelled from the spec: the INDIRECT_POINTER flag of the missing
    header. *)
Definition BASIC_BLOCK_FLAG_INDIRPTR : Z := Z.shiftl 1 9.

(** The members of [BasicBlock] that the pass reads and writes; the interval
    [[VirtualStart, VirtualEnd)] is half-open. *)
Module BasicBlock.
Record t : Type := mk {
  VirtualStart : Z;   (* inclusive *)
  VirtualEnd : Z;     (* exclusive *)
  Flags : Z;
  Target : Z
}.
End BasicBlock.

(** Modelled from the spec: [BasicBlock::GetFlag] of the missing header,
    the membership test on the flag set. *)
Definition GetFlag (b : BasicBlock.t) (Flag : Z) : bool :=
  Z.land (BasicBlock.Flags b) Flag =? Flag.

(** Modelled from the spec: [BasicBlock::SetFlag] of the missing header,
    insertion into the flag set. *)
Definition SetFlag (b : BasicBlock.t) (Flag : Z) : BasicBlock.t :=
  BasicBlock.mk (BasicBlock.VirtualStart b) (BasicBlock.VirtualEnd b)
                (Z.lor (BasicBlock.Flags b) Flag) (BasicBlock.Target b).

Definition BBlockArray : Type := list BasicBlock.t.

(** [*std::next(m_MainBlocks.begin(), i)]: defined only inside the vector. *)
Definition block_at (MainBlocks : BBlockArray) (i : Z) : option BasicBlock.t :=
  if (0 <=? i) && (i <? Z.of_nat (length MainBlocks))
  then nth_error MainBlocks (Z.to_nat i)
  else None.

(** ** Function candidates *)

(** The four members of [FunctionDef] that the pass assigns. *)
Module FunctionDef.
Record t : Type := mk {
  VirtualStart : Z;
  VirtualEnd : Z;
  BBlockStart : Z;
  BBlockEnd : Z
}.

(** Modelled from the spec: [operator<] of the missing header, as §4.3
    words the sort: "ascending by (VirtualStart, VirtualEnd)".  Where a
    property turns on how candidates with the same start compare, the
    operators are parameters instead (section Operators below). *)
Definition ltb (a b : t) : bool :=
  (VirtualStart a <? VirtualStart b)
  || ((VirtualStart a =? VirtualStart b) && (VirtualEnd a <? VirtualEnd b)).

(** Modelled from the spec: [operator==] of the missing header, as §4.3
    words the erasure: "remove exact duplicates".  Where a property turns on
    how candidates with the same start compare, the operators are
    parameters instead (section Operators below). *)
Definition eqb (a b : t) : bool :=
  (VirtualStart a =? VirtualStart b) && (VirtualEnd a =? VirtualEnd b).

(** The address pair that order and equality look at. *)
Definition key (a : t) : Z * Z := (VirtualStart a, VirtualEnd a).
End FunctionDef.

(** [std::sort(first, last)] with [operator<], as a (stable) insertion sort.
    The standard leaves the order of equivalent elements open; equivalent
    candidates agree on [VirtualStart] and [VirtualEnd], the only fields the
    commit reads. *)
Fixpoint sort_insert (x : FunctionDef.t) (l : list FunctionDef.t) : list FunctionDef.t :=
  match l with
  | [] => [x]
  | y :: t => if FunctionDef.ltb y x then y :: sort_insert x t else x :: y :: t
  end.

Definition std_sort (l : list FunctionDef.t) : list FunctionDef.t :=
  fold_right sort_insert [] l.

(** [v.erase(std::unique(v.begin(), v.end()), v.end())]: every element equal
    ([operator==]) to the last kept one is dropped. *)
Fixpoint unique_after (kept : FunctionDef.t) (l : list FunctionDef.t) : list FunctionDef.t :=
  match l with
  | [] => []
  | x :: t => if FunctionDef.eqb kept x then unique_after kept t
              else x :: unique_after x t
  end.

Definition std_unique (l : list FunctionDef.t) : list FunctionDef.t :=
  match l with
  | [] => []
  | x :: t => x :: unique_after x t
  end.

(** ** Runtime function records *)

(** One [RUNTIME_FUNCTION] of the exception directory; its fields are 32-bit
    offsets from the module base. *)
Record RUNTIME_FUNCTION : Type := {
  BeginAddress : Z;
  EndAddress : Z;
  UnwindData : Z
}.

(** ** The pass object and its collaborators *)

(** The members of the pass that [Analyse] reads, and the debuggee memory
    it queries.  [m_FunctionInfo] is [None] for a null table pointer;
    otherwise it holds the [m_FunctionInfoSize / sizeof(RUNTIME_FUNCTION)]
    records of the buffer.  [IdealThreadCount] is the value of the base
    class's [IdealThreadCount()], the same at every call of a run.
    [MemRead a] is the [uint] stored at address [a], or [None] when the read
    fails. *)
Record FunctionPass : Type := {
  m_VirtualStart : Z;
  m_VirtualEnd : Z;
  m_ModuleStart : Z;
  m_FunctionInfo : option (list RUNTIME_FUNCTION);
  IdealThreadCount : Z;
  MemRead : Z -> option Z;
  MemIsValidReadPtr : Z -> bool
}.

(** Modelled from the spec: [AnalysisPass::ValidateAddress], of the missing
    base class: the address lies within the overall analysis bounds
    [m_VirtualStart, m_VirtualEnd) of the pass. *)
Definition ValidateAddress (p : FunctionPass) (Address : Z) : bool :=
  (m_VirtualStart p <=? Address) && (Address <? m_VirtualEnd p).

(** Modelled from the spec: [AnalysisPass::FindBBlockInRange], of the missing
    base class: "address -> containing block, or not-found".  The result is
    the index of the block, which is what the source derives from the
    returned pointer. *)
Fixpoint FindBBlockInRange_from (MainBlocks : BBlockArray) (index : Z) (Address : Z) : option Z :=
  match MainBlocks with
  | [] => None
  | entry :: rest =>
      if (BasicBlock.VirtualStart entry <=? Address) && (Address <? BasicBlock.VirtualEnd entry)
      then Some index
      else FindBBlockInRange_from rest (index + 1) Address
  end.

(** Modelled from the spec: [AnalysisPass::FindBBlockInRange] over the whole
    block array. *)
Definition FindBBlockInRange (MainBlocks : BBlockArray) (Address : Z) : option Z :=
  FindBBlockInRange_from MainBlocks 0 Address.

(** Modelled from the spec: an entry of the global function table, as
    "insert(startAddress, endAddressInclusive, isAutoDiscovered)" records
    it. *)
Record FunctionEntry : Type := {
  fn_Start : Z;
  fn_End : Z;            (* inclusive *)
  fn_AutoDiscovered : bool
}.

(** Modelled from the spec: the global function table, the entries in the
    order of their insertion. *)
Definition FunctionTable : Type := list FunctionEntry.

(** Modelled from the spec: [FunctionClear], "clear()". *)
Definition FunctionClear (table : FunctionTable) : FunctionTable := [].

(** Modelled from the spec: [FunctionAdd], "insert(startAddress,
    endAddressInclusive, isAutoDiscovered)". *)
Definition FunctionAdd (table : FunctionTable) (start end_ : Z) (auto : bool) : FunctionTable :=
  table ++ [{| fn_Start := start; fn_End := end_; fn_AutoDiscovered := auto |}].

(** ** EnumerateFunctionRuntimeEntries64 *)

(** The callback threads the state it captures by reference and returns
    whether to go on. *)
Fixpoint enumerate_entries {S : Type} (Callback : RUNTIME_FUNCTION -> S -> bool * S)
    (functionTable : list RUNTIME_FUNCTION) (s : S) : S :=
  match functionTable with
  | [] => s
  | entry :: rest =>
      let '(go_on, s') := Callback entry s in
      if go_on then enumerate_entries Callback rest s' else s'
  end.

Definition EnumerateFunctionRuntimeEntries64 {S : Type} (p : FunctionPass)
    (Callback : RUNTIME_FUNCTION -> S -> bool * S) (s : S) : S :=
  match m_FunctionInfo p with
  | None => s
  | Some functionTable => enumerate_entries Callback functionTable s
  end.

(** ** FindFunctionWorkerPrepass *)

Definition prepass_callback (p : FunctionPass) (minFunc maxFunc : Z)
    (Function : RUNTIME_FUNCTION) (Blocks : list FunctionDef.t) : bool * list FunctionDef.t :=
  let funcAddr := wrap (m_ModuleStart p + BeginAddress Function) in
  let funcEnd := wrap (m_ModuleStart p + EndAddress Function) in
  if (minFunc <=? funcAddr) && (funcAddr <? maxFunc)
  then (true, Blocks ++ [FunctionDef.mk funcAddr funcEnd 0 0])
  else (true, Blocks).

(** [End - 1] is computed in [uint]: for [End = 0] it is [2^64 - 1], and the
    iterator leaves the vector. *)
Definition FindFunctionWorkerPrepass (p : FunctionPass) (MainBlocks : BBlockArray)
    (Start End : Z) (Blocks : list FunctionDef.t) : option (list FunctionDef.t) :=
  first <- block_at MainBlocks Start ;;
  last <- block_at MainBlocks (wrap (End - 1)) ;;
  let minFunc := BasicBlock.VirtualStart first in
  let maxFunc := BasicBlock.VirtualEnd last in
  Some (EnumerateFunctionRuntimeEntries64 p (prepass_callback p minFunc maxFunc) Blocks).

(** ** The control-flow scan of AnalysisWorker *)

(** The candidate list of the worker and, as a trace, the addresses handed
    to [MemRead] so far. *)
Record ScanState : Type := {
  st_Blocks : list FunctionDef.t;
  st_MemReads : list Z
}.

Definition log_read (st : ScanState) (Address : Z) : ScanState :=
  {| st_Blocks := st_Blocks st; st_MemReads := st_MemReads st ++ [Address] |}.

(** From the bounds test to [push_back]. *)
Definition scan_emit (p : FunctionPass) (destination : Z) (st : ScanState) : ScanState :=
  if negb (ValidateAddress p destination) then st
  else {| st_Blocks := st_Blocks st ++ [FunctionDef.mk destination destination 0 0];
          st_MemReads := st_MemReads st |}.

(** The body of the loop over the blocks of the shard. *)
Definition scan_block (p : FunctionPass) (blk : BasicBlock.t) (st : ScanState) : ScanState :=
  if GetFlag blk BASIC_BLOCK_FLAG_CALL then
    let destination := BasicBlock.Target blk in
    if GetFlag blk BASIC_BLOCK_FLAG_INDIRPTR then
      let st := log_read st destination in
      match MemRead p destination with
      | None => st
      | Some destination =>
          if negb (MemIsValidReadPtr p destination) then st
          else scan_emit p destination st
      end
    else scan_emit p destination st
  else st.

(** [for(uint i = Start; i < End; i++, blockItr++)], with [n] iterations
    left. *)
Fixpoint scan_loop (p : FunctionPass) (MainBlocks : BBlockArray) (n : nat) (i : Z)
    (st : ScanState) : option ScanState :=
  match n with
  | O => Some st
  | S n' =>
      blk <- block_at MainBlocks i ;;
      scan_loop p MainBlocks n' (i + 1) (scan_block p blk st)
  end.

Definition scan_calls (p : FunctionPass) (MainBlocks : BBlockArray) (Start End : Z)
    (st : ScanState) : option ScanState :=
  scan_loop p MainBlocks (Z.to_nat (End - Start)) Start st.

(** ** FindFunctionWorker *)

Definition SetFlagAt (MainBlocks : BBlockArray) (i : Z) (Flag : Z) : BBlockArray :=
  match block_at MainBlocks i with
  | Some b =>
      firstn (Z.to_nat i) MainBlocks ++ SetFlag b Flag :: skipn (S (Z.to_nat i)) MainBlocks
  | None => MainBlocks
  end.

(** [for(uint i = BBlockStart; i < BBlockEnd; i++) m_MainBlocks[i].SetFlag(...)],
    with [n] iterations left.  Both bounds are indices of blocks that the
    lookup found, so every [i] is inside the vector. *)
Fixpoint mark_loop (n : nat) (i : Z) (MainBlocks : BBlockArray) : BBlockArray :=
  match n with
  | O => MainBlocks
  | S n' => mark_loop n' (i + 1) (SetFlagAt MainBlocks i BASIC_BLOCK_FLAG_FUNCTION)
  end.

Definition ResolveKnownFunctionEnd (MainBlocks : BBlockArray) (Function : FunctionDef.t)
    : bool * FunctionDef.t * BBlockArray :=
  let startBlock := FindBBlockInRange MainBlocks (FunctionDef.VirtualStart Function) in
  let endBlock := FindBBlockInRange MainBlocks (FunctionDef.VirtualEnd Function) in
  match startBlock, endBlock with
  | Some startIndex, Some endIndex =>
      let Function' := FunctionDef.mk (FunctionDef.VirtualStart Function)
                                      (FunctionDef.VirtualEnd Function)
                                      startIndex endIndex in
      (true, Function', mark_loop (Z.to_nat (endIndex - startIndex)) startIndex MainBlocks)
  | _, _ => (false, Function, MainBlocks)
  end.

Fixpoint FindFunctionWorker (MainBlocks : BBlockArray) (Blocks : list FunctionDef.t)
    : list FunctionDef.t * BBlockArray :=
  match Blocks with
  | [] => ([], MainBlocks)
  | block :: rest =>
      let '(block', MainBlocks') :=
        if negb (FunctionDef.VirtualEnd block =? 0)
        then let '(_, block', MainBlocks') := ResolveKnownFunctionEnd MainBlocks block in
             (block', MainBlocks')
        else (block, MainBlocks) in
      let '(rest', MainBlocks'') := FindFunctionWorker MainBlocks' rest in
      (block' :: rest', MainBlocks'')
  end.

(** ** AnalysisWorker *)

Definition AnalysisWorker (p : FunctionPass) (MainBlocks : BBlockArray) (Start End : Z)
    (Blocks : list FunctionDef.t) : option (list FunctionDef.t * BBlockArray) :=
  (* Step 1 *)
  Blocks1 <- FindFunctionWorkerPrepass p MainBlocks Start End Blocks ;;
  (* Step 2 *)
  st <- scan_calls p MainBlocks Start End {| st_Blocks := Blocks1; st_MemReads := [] |} ;;
  (* Step 3 *)
  let Blocks3 := std_unique (std_sort (st_Blocks st)) in
  (* Step 4 *)
  Some (FindFunctionWorker MainBlocks Blocks3).

(** ** Analyse *)

Definition workAmount (p : FunctionPass) (size : Z) : Z :=
  wrap (size + wrap (IdealThreadCount p - 1)) / IdealThreadCount p.

Definition threadWorkStart (p : FunctionPass) (size : Z) (i : Z) : Z :=
  wrap (workAmount p size * i).

Definition threadWorkStop (p : FunctionPass) (size : Z) (i : Z) : Z :=
  Z.min (wrap (threadWorkStart p size i + workAmount p size)) size.

(** [concurrency::parallel_for(uint(0), IdealThreadCount(), ...)], the
    shards taken in index order with [n] of them left.  Workers share
    [m_MainBlocks] only through [SetFlag] on the CLAIMED bit, which no
    worker reads, so the order of the shards does not show in the result. *)
Fixpoint run_shards (p : FunctionPass) (n : nat) (i : Z) (MainBlocks : BBlockArray)
    : option (list (list FunctionDef.t) * BBlockArray) :=
  match n with
  | O => Some ([], MainBlocks)
  | S n' =>
      let size := Z.of_nat (length MainBlocks) in
      '(threadFunctions_i, MainBlocks') <-
        AnalysisWorker p MainBlocks (threadWorkStart p size i) (threadWorkStop p size i) [] ;;
      '(others, MainBlocks'') <- run_shards p n' (i + 1) MainBlocks' ;;
      Some (threadFunctions_i :: others, MainBlocks'')
  end.

Definition commit (funcs : list FunctionDef.t) (table : FunctionTable) : FunctionTable :=
  fold_left
    (fun table func =>
       FunctionAdd table (FunctionDef.VirtualStart func)
                   (wrap (FunctionDef.VirtualEnd func - 1)) true)
    funcs (FunctionClear table).

(** What a run leaves behind: the value returned, the function table, the
    block array, and (for reference) the per-shard lists and the merged
    list [funcs]. *)
Record AnalyseResult : Type := {
  returned : bool;
  table_after : FunctionTable;
  blocks_after : BBlockArray;
  threadFunctions : list (list FunctionDef.t);
  funcs : list FunctionDef.t
}.

Definition Analyse (p : FunctionPass) (MainBlocks : BBlockArray) (table : FunctionTable)
    : option AnalyseResult :=
  if IdealThreadCount p =? 0 then None else
  '(threadFunctions, MainBlocks') <-
    run_shards p (Z.to_nat (IdealThreadCount p)) 0 MainBlocks ;;
  (* Merge thread vectors into single local *)
  let funcs := concat threadFunctions in
  (* Sort and remove duplicates *)
  let funcs := std_unique (std_sort funcs) in
  Some {| returned := true;
          table_after := commit funcs table;
          blocks_after := MainBlocks';
          threadFunctions := threadFunctions;
          funcs := funcs |}.

(** ** Construction *)

(** What the constructor asks of its collaborators: the module base of an
    address (0 for none); for a module base, the virtual offset and size of
    the exception directory of its on-disk image ([None] when the image
    cannot be mapped); whether the buffer allocation succeeds; and the
    records the buffer holds after the copy from the live process. *)
Record Collaborators : Type := {
  ModBaseFromAddr : Z -> Z;
  exception_directory : Z -> option (Z * Z);
  BridgeAlloc : Z -> bool;
  table_records : Z -> Z -> list RUNTIME_FUNCTION
}.

Definition load_function_table (c : Collaborators) (ModuleStart : Z)
    : option (list RUNTIME_FUNCTION) :=
  if negb (ModuleStart =? 0) then
    match exception_directory c ModuleStart with
    | Some (virtualOffset, FunctionInfoSize) =>
        if negb (virtualOffset =? 0) then
          if BridgeAlloc c FunctionInfoSize
          then Some (table_records c (wrap (virtualOffset + ModuleStart)) FunctionInfoSize)
          else None
        else None
    | None => None
    end
  else None.

Definition FunctionPass_new (c : Collaborators) (VirtualStart VirtualEnd : Z)
    (threads : Z) (read : Z -> option Z) (readable : Z -> bool) : FunctionPass :=
  {| m_VirtualStart := VirtualStart;
     m_VirtualEnd := VirtualEnd;
     m_ModuleStart := ModBaseFromAddr c VirtualStart;
     m_FunctionInfo := load_function_table c (ModBaseFromAddr c VirtualStart);
     IdealThreadCount := threads;
     MemRead := read;
     MemIsValidReadPtr := readable |}.

(** ** Shards *)

(** Block index [k] belongs to shard [i] of a run over [size] blocks. *)
Definition in_shard (p : FunctionPass) (size i k : Z) : Prop :=
  threadWorkStart p size i <= k < threadWorkStop p size i.

Definition shard_nonempty (p : FunctionPass) (size i : Z) : Prop :=
  threadWorkStart p size i < threadWorkStop p size i.

(** The two block reads at the head of the prepass are inside the vector. *)
Definition prepass_reads_in_bounds (MainBlocks : BBlockArray) (Start End : Z) : Prop :=
  block_at MainBlocks Start <> None /\ block_at MainBlocks (wrap (End - 1)) <> None.

(** ** Relations between block arrays *)

(** [b'] is [b] with, at most, the CLAIMED flag newly set. *)
Definition claimed_grows (b b' : BasicBlock.t) : Prop :=
  BasicBlock.VirtualStart b' = BasicBlock.VirtualStart b
  /\ BasicBlock.VirtualEnd b' = BasicBlock.VirtualEnd b
  /\ BasicBlock.Target b' = BasicBlock.Target b
  /\ GetFlag b' BASIC_BLOCK_FLAG_CALL = GetFlag b BASIC_BLOCK_FLAG_CALL
  /\ GetFlag b' BASIC_BLOCK_FLAG_INDIRPTR = GetFlag b BASIC_BLOCK_FLAG_INDIRPTR
  /\ (GetFlag b BASIC_BLOCK_FLAG_FUNCTION = true -> GetFlag b' BASIC_BLOCK_FLAG_FUNCTION = true).

Definition claimed_monotone (before after : BBlockArray) : Prop :=
  Forall2 claimed_grows before after.

(** ** Candidates of the scan *)

(** What the scan appends: the destination as both start and end, inside the
    analysis bounds, block indices zero. *)
Definition scan_candidate (p : FunctionPass) (c : FunctionDef.t) : Prop :=
  ValidateAddress p (FunctionDef.VirtualStart c) = true
  /\ FunctionDef.VirtualEnd c = FunctionDef.VirtualStart c
  /\ FunctionDef.BBlockStart c = 0
  /\ FunctionDef.BBlockEnd c = 0.

(** The cell behind an indirect call cannot be used: the read fails, or the
    value read is not a readable address. *)
Definition unusable_pointer (p : FunctionPass) (blk : BasicBlock.t) : Prop :=
  MemRead p (BasicBlock.Target blk) = None
  \/ exists v, MemRead p (BasicBlock.Target blk) = Some v /\ MemIsValidReadPtr p v = false.

(** ** Sorted ranges *)

(** [a] does not come after [b], the relation a sorted range satisfies; and
    [a] comes strictly before [b]. *)
Definition not_after (a b : FunctionDef.t) : Prop := FunctionDef.ltb b a = false.
Definition before (a b : FunctionDef.t) : Prop := FunctionDef.ltb a b = true.

(** The index of the last block. *)
Definition last_index (MainBlocks : BBlockArray) : Z := Z.of_nat (length MainBlocks) - 1.

(** ** Committed entries *)

Definition entry_of (func : FunctionDef.t) : FunctionEntry :=
  {| fn_Start := FunctionDef.VirtualStart func;
     fn_End := wrap (FunctionDef.VirtualEnd func - 1);
     fn_AutoDiscovered := true |}.



(** ** Inputs of the worked examples *)

Definition no_memory (a : Z) : option Z := None.
Definition nothing_readable (a : Z) : bool := false.

(** Example 1: B1 [0x1000,0x1010) calls 0x2000, B2 [0x2000,0x2020) is
    unflagged, one record {0x2000, 0x2020}, module base 0. *)
Definition example1_B1 : BasicBlock.t :=
  BasicBlock.mk 0x1000 0x1010 BASIC_BLOCK_FLAG_CALL 0x2000.
Definition example1_B2 : BasicBlock.t := BasicBlock.mk 0x2000 0x2020 0 0.
Definition example1_blocks : BBlockArray := [example1_B1; example1_B2].

Definition example1_pass (threads : Z) : FunctionPass :=
  {| m_VirtualStart := 0x1000;
     m_VirtualEnd := 0x2020;
     m_ModuleStart := 0;
     m_FunctionInfo :=
       Some [{| BeginAddress := 0x2000; EndAddress := 0x2020; UnwindData := 0 |}];
     IdealThreadCount := threads;
     MemRead := no_memory;
     MemIsValidReadPtr := nothing_readable |}.

(** What example 1 expects of a run: the function table holds the one
    function [0x2000, 0x201F], auto-discovered, and B2 is CLAIMED. *)
Definition example1_function : FunctionEntry :=
  {| fn_Start := 0x2000; fn_End := 0x201F; fn_AutoDiscovered := true |}.


(** Example 1 as the constructor leaves the pass for module base 0: no
    table. *)
Definition example1_pass_no_table (threads : Z) : FunctionPass :=
  {| m_VirtualStart := 0x1000;
     m_VirtualEnd := 0x2020;
     m_ModuleStart := 0;
     m_FunctionInfo := None;
     IdealThreadCount := threads;
     MemRead := no_memory;
     MemIsValidReadPtr := nothing_readable |}.

(** Example 1 followed by a third block [0x2020,0x2030). *)
Definition example1_B3 : BasicBlock.t := BasicBlock.mk 0x2020 0x2030 0 0.
Definition three_blocks : BBlockArray := [example1_B1; example1_B2; example1_B3].

Definition three_blocks_pass (threads : Z) : FunctionPass :=
  {| m_VirtualStart := 0x1000;
     m_VirtualEnd := 0x2030;
     m_ModuleStart := 0;
     m_FunctionInfo :=
       Some [{| BeginAddress := 0x2000; EndAddress := 0x2020; UnwindData := 0 |}];
     IdealThreadCount := threads;
     MemRead := no_memory;
     MemIsValidReadPtr := nothing_readable |}.

(** Example 2: B1 [0x1000,0x1010) is an indirect call through the cell at
    0x3000, which holds 0x4000; no metadata. *)
Definition example2_B1 : BasicBlock.t :=
  BasicBlock.mk 0x1000 0x1010
                (Z.lor BASIC_BLOCK_FLAG_CALL BASIC_BLOCK_FLAG_INDIRPTR) 0x3000.
Definition example2_blocks : BBlockArray := [example2_B1].

Definition example2_memory (a : Z) : option Z :=
  if a =? 0x3000 then Some 0x4000 else None.
Definition example2_readable (a : Z) : bool := a =? 0x4000.

Definition example2_pass : FunctionPass :=
  {| m_VirtualStart := 0x1000;
     m_VirtualEnd := 0x5000;
     m_ModuleStart := 0;
     m_FunctionInfo := None;
     IdealThreadCount := 1;
     MemRead := example2_memory;
     MemIsValidReadPtr := example2_readable |}.

(** One block [0x401000,0x401010) in a module based at 0x400000, and a record
    that begins inside the block, at offset 0x1008, and ends at offset 0x9000,
    far beyond the analysed range [0x401000,0x401010). *)
Definition overlong_blocks : BBlockArray := [BasicBlock.mk 0x401000 0x401010 0 0].

Definition overlong_record : RUNTIME_FUNCTION :=
  {| BeginAddress := 0x1008; EndAddress := 0x9000; UnwindData := 0 |}.

Definition overlong_pass : FunctionPass :=
  {| m_VirtualStart := 0x401000;
     m_VirtualEnd := 0x401010;
     m_ModuleStart := 0x400000;
     m_FunctionInfo := Some [overlong_record];
     IdealThreadCount := 1;
     MemRead := no_memory;
     MemIsValidReadPtr := nothing_readable |}.

(** Four unflagged blocks, for runs with two and three threads. *)
Definition four_blocks : BBlockArray :=
  [BasicBlock.mk 0x1000 0x1010 0 0; BasicBlock.mk 0x1010 0x1020 0 0;
   BasicBlock.mk 0x1020 0x1030 0 0; BasicBlock.mk 0x1030 0x1040 0 0].

Definition four_blocks_pass (threads : Z) : FunctionPass :=
  {| m_VirtualStart := 0x1000;
     m_VirtualEnd := 0x1040;
     m_ModuleStart := 0;
     m_FunctionInfo := None;
     IdealThreadCount := threads;
     MemRead := no_memory;
     MemIsValidReadPtr := nothing_readable |}.

(** Four calls: through a cell that holds 0x4000, through a cell that cannot
    be read, through a cell that holds the unreadable address 0x7000, and a
    direct one to 0x1000. *)
Definition indirect_flags : Z := Z.lor BASIC_BLOCK_FLAG_CALL BASIC_BLOCK_FLAG_INDIRPTR.
Definition indirect_I0 : BasicBlock.t := BasicBlock.mk 0x1000 0x1010 indirect_flags 0x3000.
Definition indirect_I1 : BasicBlock.t := BasicBlock.mk 0x1010 0x1020 indirect_flags 0x3008.
Definition indirect_I2 : BasicBlock.t := BasicBlock.mk 0x1020 0x1030 indirect_flags 0x3010.
Definition indirect_I3 : BasicBlock.t :=
  BasicBlock.mk 0x1030 0x1040 BASIC_BLOCK_FLAG_CALL 0x1000.
Definition indirect_blocks : BBlockArray :=
  [indirect_I0; indirect_I1; indirect_I2; indirect_I3].

Definition indirect_memory (a : Z) : option Z :=
  if a =? 0x3000 then Some 0x4000
  else if a =? 0x3010 then Some 0x7000
  else None.

Definition indirect_pass : FunctionPass :=
  {| m_VirtualStart := 0x1000;
     m_VirtualEnd := 0x5000;
     m_ModuleStart := 0;
     m_FunctionInfo := None;
     IdealThreadCount := 1;
     MemRead := indirect_memory;
     MemIsValidReadPtr := example2_readable |}.

Definition scan_start : ScanState := {| st_Blocks := []; st_MemReads := [] |}.

(** The three blocks with a CLAIMED flag already on the first one. *)
Definition stale_blocks : BBlockArray :=
  [SetFlag example1_B1 BASIC_BLOCK_FLAG_FUNCTION; example1_B2; example1_B3].

(** ** Further notions for the workers *)

(** The records of the table the pass holds; none for a null pointer. *)
Definition function_table (p : FunctionPass) : list RUNTIME_FUNCTION :=
  match m_FunctionInfo p with
  | Some records => records
  | None => []
  end.

(** The candidate the prepass builds from a record, and its window test. *)
Definition record_candidate (p : FunctionPass) (Function : RUNTIME_FUNCTION) : FunctionDef.t :=
  FunctionDef.mk (wrap (m_ModuleStart p + BeginAddress Function))
                 (wrap (m_ModuleStart p + EndAddress Function)) 0 0.

Definition record_in_window (p : FunctionPass) (minFunc maxFunc : Z)
    (Function : RUNTIME_FUNCTION) : bool :=
  (minFunc <=? wrap (m_ModuleStart p + BeginAddress Function))
  && (wrap (m_ModuleStart p + BeginAddress Function) <? maxFunc).

Definition prepass_candidates (p : FunctionPass) (minFunc maxFunc : Z)
    (records : list RUNTIME_FUNCTION) : list FunctionDef.t :=
  map (record_candidate p) (filter (record_in_window p minFunc maxFunc) records).

(** The blocks of the shard [[Start, End)], in order. *)
Definition shard_blocks (MainBlocks : BBlockArray) (Start End : Z) : list BasicBlock.t :=
  firstn (Z.to_nat (End - Start)) (skipn (Z.to_nat Start) MainBlocks).

Definition is_indirect_call (blk : BasicBlock.t) : bool :=
  GetFlag blk BASIC_BLOCK_FLAG_CALL && GetFlag blk BASIC_BLOCK_FLAG_INDIRPTR.

(** The call of block [blk] leads to [destination]: directly, or through a
    readable cell that holds a readable address; and [destination] is inside
    the analysis bounds. *)
Definition resolves_to (p : FunctionPass) (blk : BasicBlock.t) (destination : Z) : Prop :=
  GetFlag blk BASIC_BLOCK_FLAG_CALL = true
  /\ (if GetFlag blk BASIC_BLOCK_FLAG_INDIRPTR
      then MemRead p (BasicBlock.Target blk) = Some destination
           /\ MemIsValidReadPtr p destination = true
      else destination = BasicBlock.Target blk)
  /\ ValidateAddress p destination = true.

(** The candidate the scan builds for a destination. *)
Definition call_candidate (destination : Z) : FunctionDef.t :=
  FunctionDef.mk destination destination 0 0.

(** A visitor that records the begin offsets it sees and asks to stop at
    the first offset of 0x3000 or more. *)
Definition stop_at_3000 (Function : RUNTIME_FUNCTION) (seen : list Z) : bool * list Z :=
  (BeginAddress Function <? 0x3000, seen ++ [BeginAddress Function]).

Definition three_records : list RUNTIME_FUNCTION :=
  [{| BeginAddress := 0x1000; EndAddress := 0x1800; UnwindData := 0 |};
   {| BeginAddress := 0x3000; EndAddress := 0x3800; UnwindData := 0 |};
   {| BeginAddress := 0x2000; EndAddress := 0x2800; UnwindData := 0 |}].

Definition visitor_pass : FunctionPass :=
  {| m_VirtualStart := 0;
     m_VirtualEnd := 0;
     m_ModuleStart := 0;
     m_FunctionInfo := Some three_records;
     IdealThreadCount := 1;
     MemRead := no_memory;
     MemIsValidReadPtr := nothing_readable |}.

(** The four blocks of the two-thread runs, with the three records in a
    module based at 0: the first shard's window is [0x1000, 0x1020). *)
Definition three_records_pass : FunctionPass :=
  {| m_VirtualStart := 0x1000;
     m_VirtualEnd := 0x1040;
     m_ModuleStart := 0;
     m_FunctionInfo :=
       Some [{| BeginAddress := 0x1018; EndAddress := 0x1800; UnwindData := 0 |};
             {| BeginAddress := 0x3000; EndAddress := 0x3800; UnwindData := 0 |};
             {| BeginAddress := 0x1000; EndAddress := 0x1004; UnwindData := 0 |}];
     IdealThreadCount := 2;
     MemRead := no_memory;
     MemIsValidReadPtr := nothing_readable |}.

(** Two blocks that agree on everything the pass reads: the addresses, the
    target and the CALL and INDIRPTR flags.  The CLAIMED flag may differ. *)
Definition same_code (b b' : BasicBlock.t) : Prop :=
  BasicBlock.VirtualStart b' = BasicBlock.VirtualStart b
  /\ BasicBlock.VirtualEnd b' = BasicBlock.VirtualEnd b
  /\ BasicBlock.Target b' = BasicBlock.Target b
  /\ GetFlag b' BASIC_BLOCK_FLAG_CALL = GetFlag b BASIC_BLOCK_FLAG_CALL
  /\ GetFlag b' BASIC_BLOCK_FLAG_INDIRPTR = GetFlag b BASIC_BLOCK_FLAG_INDIRPTR.

(** What boundary resolution makes of one candidate, given the block array
    for the lookups: the candidate with the two indices filled in when it
    has an end and both lookups succeed, the candidate as it is otherwise. *)
Definition resolved (MainBlocks : BBlockArray) (c : FunctionDef.t) : FunctionDef.t :=
  if FunctionDef.VirtualEnd c =? 0 then c
  else
    match FindBBlockInRange MainBlocks (FunctionDef.VirtualStart c),
          FindBBlockInRange MainBlocks (FunctionDef.VirtualEnd c) with
    | Some startIndex, Some endIndex =>
        FunctionDef.mk (FunctionDef.VirtualStart c) (FunctionDef.VirtualEnd c)
                       startIndex endIndex
    | _, _ => c
    end.

(** Boundary resolution has nothing to do for [c]: no end, or a lookup that
    misses. *)
Definition unresolvable (MainBlocks : BBlockArray) (c : FunctionDef.t) : Prop :=
  FunctionDef.VirtualEnd c = 0
  \/ FindBBlockInRange MainBlocks (FunctionDef.VirtualStart c) = None
  \/ FindBBlockInRange MainBlocks (FunctionDef.VirtualEnd c) = None.

(** Collaborators for a range that lies in no module. *)
Definition no_module : Collaborators :=
  {| ModBaseFromAddr := fun _ => 0;
     exception_directory := fun _ => Some (0x5000, 24);
     BridgeAlloc := fun _ => true;
     table_records := fun _ _ => three_records |}.

(** Collaborators for a module at 0x400000 whose image has no exception
    directory. *)
Definition no_directory : Collaborators :=
  {| ModBaseFromAddr := fun _ => 0x400000;
     exception_directory := fun _ => Some (0, 0);
     BridgeAlloc := fun _ => true;
     table_records := fun _ _ => three_records |}.

(** The construction found no table to enumerate. *)
Definition table_unavailable (c : Collaborators) (ModuleStart : Z) : Prop :=
  ModuleStart = 0
  \/ exception_directory c ModuleStart = None
  \/ (exists FunctionInfoSize, exception_directory c ModuleStart = Some (0, FunctionInfoSize))
  \/ (exists virtualOffset FunctionInfoSize,
        exception_directory c ModuleStart = Some (virtualOffset, FunctionInfoSize)
        /\ BridgeAlloc c FunctionInfoSize = false).

(** ** Contiguous block sequences *)

(** The blocks are in address order and each starts where the one before
    ends. *)
Definition contiguous (MainBlocks : BBlockArray) : Prop :=
  (forall k b, block_at MainBlocks k = Some b ->
     BasicBlock.VirtualStart b <= BasicBlock.VirtualEnd b)
  /\ (forall k b b', block_at MainBlocks k = Some b -> block_at MainBlocks (k + 1) = Some b' ->
        BasicBlock.VirtualEnd b = BasicBlock.VirtualStart b').

(** The address at which block [k] starts; for [k] one past the last block,
    the address at which the last block ends. *)
Definition boundary (MainBlocks : BBlockArray) (k : Z) : Z :=
  match block_at MainBlocks k with
  | Some b => BasicBlock.VirtualStart b
  | None =>
      match block_at MainBlocks (k - 1) with
      | Some b => BasicBlock.VirtualEnd b
      | None => 0
      end
  end.

(** The address pairs a run can find in a block sequence: the pair of a
    record that begins between the start of the first block and the end of
    the last one, and the pair of a call destination. *)
Definition discovered_pair (p : FunctionPass) (MainBlocks : BBlockArray) (k : Z * Z) : Prop :=
  (exists Function,
     In Function (function_table p)
     /\ boundary MainBlocks 0 <= wrap (m_ModuleStart p + BeginAddress Function)
        < boundary MainBlocks (Z.of_nat (length MainBlocks))
     /\ k = FunctionDef.key (record_candidate p Function))
  \/ (exists j blk destination,
        block_at MainBlocks j = Some blk /\ resolves_to p blk destination
        /\ k = (destination, destination)).

(** The pass with another thread count. *)
Definition set_threads (p : FunctionPass) (threads : Z) : FunctionPass :=
  {| m_VirtualStart := m_VirtualStart p;
     m_VirtualEnd := m_VirtualEnd p;
     m_ModuleStart := m_ModuleStart p;
     m_FunctionInfo := m_FunctionInfo p;
     IdealThreadCount := threads;
     MemRead := MemRead p;
     MemIsValidReadPtr := MemIsValidReadPtr p |}.

(** Four contiguous blocks [0x1000, 0x1040), the second calling 0x1030, and
    records that begin at 0x1028 and at 0x2000. *)
Definition calling_blocks : BBlockArray :=
  [BasicBlock.mk 0x1000 0x1010 0 0;
   BasicBlock.mk 0x1010 0x1020 BASIC_BLOCK_FLAG_CALL 0x1030;
   BasicBlock.mk 0x1020 0x1030 0 0;
   BasicBlock.mk 0x1030 0x1040 0 0].

Definition calling_pass (threads : Z) : FunctionPass :=
  {| m_VirtualStart := 0x1000;
     m_VirtualEnd := 0x1040;
     m_ModuleStart := 0;
     m_FunctionInfo :=
       Some [{| BeginAddress := 0x1028; EndAddress := 0x1030; UnwindData := 0 |};
             {| BeginAddress := 0x2000; EndAddress := 0x2010; UnwindData := 0 |}];
     IdealThreadCount := threads;
     MemRead := no_memory;
     MemIsValidReadPtr := nothing_readable |}.

(** Boundary resolution of candidate [c] reaches block [j]: [c] has an end,
    both lookups succeed, and [j] lies from the start block up to, and
    without, the end block. *)
Definition covers (MainBlocks : BBlockArray) (c : FunctionDef.t) (j : Z) : Prop :=
  FunctionDef.VirtualEnd c <> 0
  /\ exists startIndex endIndex,
       FindBBlockInRange MainBlocks (FunctionDef.VirtualStart c) = Some startIndex
       /\ FindBBlockInRange MainBlocks (FunctionDef.VirtualEnd c) = Some endIndex
       /\ startIndex <= j < endIndex.

(** Block [j] lies in the index range a candidate carries. *)
Definition in_block_range (c : FunctionDef.t) (j : Z) : Prop :=
  FunctionDef.BBlockStart c <= j < FunctionDef.BBlockEnd c.

(** ** The order and the equality of candidates as parameters *)

(** [FunctionDef]'s [operator<] and [operator==] are not among the sources.
    The definitions of this section are [std::sort], [std::unique],
    [AnalysisWorker] and [Analyse] once more, line by line, with the two
    operators taken as parameters, for the properties that turn on how two
    candidates with the same start address compare. *)
Section Operators.
Variable operator_lt : FunctionDef.t -> FunctionDef.t -> bool.
Variable operator_eq : FunctionDef.t -> FunctionDef.t -> bool.

Fixpoint sort_insert_with (x : FunctionDef.t) (l : list FunctionDef.t) : list FunctionDef.t :=
  match l with
  | [] => [x]
  | y :: t => if operator_lt y x then y :: sort_insert_with x t else x :: y :: t
  end.

Definition std_sort_with (l : list FunctionDef.t) : list FunctionDef.t :=
  fold_right sort_insert_with [] l.

Fixpoint unique_after_with (kept : FunctionDef.t) (l : list FunctionDef.t)
    : list FunctionDef.t :=
  match l with
  | [] => []
  | x :: t => if operator_eq kept x then unique_after_with kept t
              else x :: unique_after_with x t
  end.

Definition std_unique_with (l : list FunctionDef.t) : list FunctionDef.t :=
  match l with
  | [] => []
  | x :: t => x :: unique_after_with x t
  end.

Definition AnalysisWorker_with (p : FunctionPass) (MainBlocks : BBlockArray) (Start End : Z)
    (Blocks : list FunctionDef.t) : option (list FunctionDef.t * BBlockArray) :=
  (* Step 1 *)
  Blocks1 <- FindFunctionWorkerPrepass p MainBlocks Start End Blocks ;;
  (* Step 2 *)
  st <- scan_calls p MainBlocks Start End {| st_Blocks := Blocks1; st_MemReads := [] |} ;;
  (* Step 3 *)
  let Blocks3 := std_unique_with (std_sort_with (st_Blocks st)) in
  (* Step 4 *)
  Some (FindFunctionWorker MainBlocks Blocks3).

Fixpoint run_shards_with (p : FunctionPass) (n : nat) (i : Z) (MainBlocks : BBlockArray)
    : option (list (list FunctionDef.t) * BBlockArray) :=
  match n with
  | O => Some ([], MainBlocks)
  | S n' =>
      let size := Z.of_nat (length MainBlocks) in
      '(threadFunctions_i, MainBlocks') <-
        AnalysisWorker_with p MainBlocks (threadWorkStart p size i)
                            (threadWorkStop p size i) [] ;;
      '(others, MainBlocks'') <- run_shards_with p n' (i + 1) MainBlocks' ;;
      Some (threadFunctions_i :: others, MainBlocks'')
  end.

Definition Analyse_with (p : FunctionPass) (MainBlocks : BBlockArray) (table : FunctionTable)
    : option AnalyseResult :=
  if IdealThreadCount p =? 0 then None else
  '(threadFunctions, MainBlocks') <-
    run_shards_with p (Z.to_nat (IdealThreadCount p)) 0 MainBlocks ;;
  (* Merge thread vectors into single local *)
  let funcs := concat threadFunctions in
  (* Sort and remove duplicates *)
  let funcs := std_unique_with (std_sort_with funcs) in
  Some {| returned := true;
          table_after := commit funcs table;
          blocks_after := MainBlocks';
          threadFunctions := threadFunctions;
          funcs := funcs |}.
End Operators.

(** Modelled from the spec: [operator==] as the dedup property and example 1
    need it.  "A candidate discoverable by two different shards (e.g.,
    visible via metadata to one, via a call edge to the other) appears
    exactly once after merge": the two candidates differ in their end, so
    equality looks at [VirtualStart] alone. *)
Definition same_start (a b : FunctionDef.t) : bool :=
  FunctionDef.VirtualStart a =? FunctionDef.VirtualStart b.

(** Modelled from the spec: [operator<] as example 1 needs it.  "Ordering
    ... primarily VirtualStart, then VirtualEnd"; example 1 commits the
    record's [0x2000, 0x201F] and not the call edge's candidate, and
    [std::unique] keeps the first of a run of equal elements, so of two
    candidates with the same start the one with the larger end sorts
    first. *)
Definition longer_first (a b : FunctionDef.t) : bool :=
  (FunctionDef.VirtualStart a <? FunctionDef.VirtualStart b)
  || ((FunctionDef.VirtualStart a =? FunctionDef.VirtualStart b)
      && (FunctionDef.VirtualEnd b <? FunctionDef.VirtualEnd a)).

(** Two candidate lists with the same start addresses. *)
Definition same_starts (l l' : list FunctionDef.t) : Prop :=
  forall A, In A (map FunctionDef.VirtualStart l) <-> In A (map FunctionDef.VirtualStart l').

(** The start addresses a run can find in a block sequence: the begin of a
    record that lies between the start of the first block and the end of
    the last one, and a call destination. *)
Definition discovered_start (p : FunctionPass) (MainBlocks : BBlockArray) (A : Z) : Prop :=
  (exists Function,
     In Function (function_table p)
     /\ boundary MainBlocks 0 <= wrap (m_ModuleStart p + BeginAddress Function)
        < boundary MainBlocks (Z.of_nat (length MainBlocks))
     /\ A = wrap (m_ModuleStart p + BeginAddress Function))
  \/ (exists j blk,
        block_at MainBlocks j = Some blk /\ resolves_to p blk A).


(** * Properties *)

(** ** Arithmetic of the shard bounds *)

Lemma wrap_small (z : Z) : 0 <= z < uint_modulus -> wrap z = z.
Proof. intros H. unfold wrap. apply Z.mod_small. exact H. Qed.

Lemma uint_modulus_value : uint_modulus = 18446744073709551616.
Proof. reflexivity. Qed.

Lemma vector_max_size_value : vector_max_size = 9223372036854775807.
Proof. reflexivity. Qed.

Section ShardArithmetic.
Variable p : FunctionPass.
Variable N : Z.
Let T := IdealThreadCount p.
Let w := workAmount p N.

Hypothesis T_pos : 1 <= T.
Hypothesis T_max : T <= vector_max_size.
Hypothesis N_nonneg : 0 <= N.
Hypothesis N_max : N <= vector_max_size.

Lemma workAmount_eq : w = (N + (T - 1)) / T.
Proof.
  subst w T. unfold workAmount.
  pose proof uint_modulus_value. pose proof vector_max_size_value.
  rewrite (wrap_small (IdealThreadCount p - 1)) by lia.
  rewrite wrap_small by lia. reflexivity.
Qed.

Lemma workAmount_bounds : N <= w * T < N + T.
Proof.
  rewrite workAmount_eq.
  pose proof (Z.div_mod (N + (T - 1)) T ltac:(lia)) as Hdm.
  pose proof (Z.mod_pos_bound (N + (T - 1)) T ltac:(lia)) as Hm.
  nia.
Qed.

Lemma workAmount_nonneg : 0 <= w.
Proof. pose proof workAmount_bounds. nia. Qed.

Lemma workAmount_pos : 1 <= N -> 1 <= w.
Proof. pose proof workAmount_bounds. nia. Qed.

Lemma workAmount_zero : N = 0 -> w = 0.
Proof. pose proof workAmount_bounds. pose proof workAmount_nonneg. nia. Qed.

Lemma threadWorkStart_eq (i : Z) : 0 <= i < T -> threadWorkStart p N i = w * i.
Proof.
  intros Hi. unfold threadWorkStart. fold w.
  pose proof workAmount_bounds. pose proof workAmount_nonneg.
  pose proof uint_modulus_value. pose proof vector_max_size_value.
  apply wrap_small. nia.
Qed.

Lemma threadWorkStop_eq (i : Z) :
  0 <= i < T -> threadWorkStop p N i = Z.min (w * i + w) N.
Proof.
  intros Hi. unfold threadWorkStop. rewrite threadWorkStart_eq by assumption. fold w.
  pose proof workAmount_bounds. pose proof workAmount_nonneg.
  pose proof uint_modulus_value. pose proof vector_max_size_value.
  rewrite wrap_small by nia. reflexivity.
Qed.

Lemma in_shard_iff (i k : Z) :
  0 <= i < T -> (in_shard p N i k <-> w * i <= k < w * i + w /\ k < N).
Proof.
  intros Hi. unfold in_shard.
  rewrite threadWorkStart_eq, threadWorkStop_eq by assumption. lia.
Qed.

Lemma shard_nonempty_iff (i : Z) :
  0 <= i < T -> (shard_nonempty p N i <-> w * i < N /\ 1 <= w).
Proof.
  intros Hi. unfold shard_nonempty.
  rewrite threadWorkStart_eq, threadWorkStop_eq by assumption. lia.
Qed.

Lemma in_shard_unique (i j k : Z) :
  0 <= i < T -> 0 <= j < T -> in_shard p N i k -> in_shard p N j k -> i = j.
Proof.
  intros Hi Hj Hik Hjk.
  apply in_shard_iff in Hik; [|assumption]. apply in_shard_iff in Hjk; [|assumption].
  nia.
Qed.

Lemma in_shard_exists (k : Z) :
  0 <= k < N -> exists i, 0 <= i < T /\ in_shard p N i k.
Proof.
  intros Hk.
  pose proof (workAmount_pos ltac:(lia)) as Hw.
  pose proof workAmount_bounds as Hb.
  pose proof (Z.div_mod k w ltac:(lia)) as Hdm.
  pose proof (Z.mod_pos_bound k w ltac:(lia)) as Hm.
  assert (0 <= k / w) by (apply Z.div_pos; lia).
  exists (k / w). 
  assert (Hi : 0 <= k / w < T) by nia.
  split; [exact Hi|]. apply in_shard_iff; [exact Hi|]. nia.
Qed.

Lemma all_shards_nonempty_iff :
  (forall i, 0 <= i < T -> shard_nonempty p N i) <-> w * (T - 1) < N.
Proof.
  pose proof workAmount_nonneg as Hw.
  split.
  - intros H. specialize (H (T - 1) ltac:(lia)).
    apply shard_nonempty_iff in H; lia.
  - intros H i Hi. apply shard_nonempty_iff; [assumption|].
    split; [nia|].
    destruct (Z.eq_dec N 0) as [HN|HN].
    + pose proof (workAmount_zero HN). nia.
    + apply workAmount_pos. lia.
Qed.
End ShardArithmetic.

(** C4. For a block count [N >= 1] and a thread count [T] in [1, N], shard
    [i] of the run is the index interval
    [[i * ceil(N/T), min((i+1) * ceil(N/T), N))], and the [T] shards
    partition [[0, N)]: every index lies in exactly one shard, two different
    shards share no index, and the shards together hold the indices of
    [[0, N)] and nothing else. *)
Theorem shard_partition (p : FunctionPass) (N : Z) :
  1 <= N -> N <= vector_max_size -> 1 <= IdealThreadCount p <= N ->
  let T := IdealThreadCount p in
  let w := workAmount p N in
  (N <= w * T < N + T)
  /\ (forall i k, 0 <= i < T ->
        (in_shard p N i k <-> i * w <= k < Z.min ((i + 1) * w) N))
  /\ (forall k, 0 <= k < N ->
        exists i, 0 <= i < T /\ in_shard p N i k
                  /\ forall j, 0 <= j < T -> in_shard p N j k -> j = i)
  /\ (forall i j k, 0 <= i < T -> 0 <= j < T -> i <> j ->
        ~ (in_shard p N i k /\ in_shard p N j k))
  /\ (forall k, (exists i, 0 <= i < T /\ in_shard p N i k) <-> 0 <= k < N).
Proof.
  intros HN HNmax HT T w.
  assert (T_pos : 1 <= IdealThreadCount p) by lia.
  assert (T_max : IdealThreadCount p <= vector_max_size) by lia.
  assert (N_nonneg : 0 <= N) by lia.
  pose proof (workAmount_nonneg p N T_pos T_max N_nonneg HNmax) as Hw.
  fold w in Hw.
  split; [apply workAmount_bounds; assumption|].
  split.
  { intros i k Hi. rewrite in_shard_iff by assumption. fold w. lia. }
  split.
  { intros k Hk.
    destruct (in_shard_exists p N T_pos T_max N_nonneg HNmax k Hk) as (i & Hi & Hik).
    exists i. split; [exact Hi|]. split; [exact Hik|].
    intros j Hj Hjk.
    exact (in_shard_unique p N T_pos T_max N_nonneg HNmax j i k Hj Hi Hjk Hik). }
  split.
  { intros i j k Hi Hj Hne [Hik Hjk]. apply Hne.
    exact (in_shard_unique p N T_pos T_max N_nonneg HNmax i j k Hi Hj Hik Hjk). }
  intros k. split.
  - intros (i & Hi & Hik). apply in_shard_iff in Hik; try assumption.
    fold w in Hik. nia.
  - intros Hk.
    destruct (in_shard_exists p N T_pos T_max N_nonneg HNmax k Hk) as (i & Hi & Hik).
    exists i. split; assumption.
Qed.

(** Five blocks on four threads: shards [0,2), [2,4), [4,5) and an empty
    fourth one. *)
Lemma shard_partition_witness :
  let p := four_blocks_pass 4 in
  (5 <= workAmount p 5 * 4 < 5 + 4)
  /\ (forall k, 0 <= k < 5 ->
        exists i, 0 <= i < 4 /\ in_shard p 5 i k
                  /\ forall j, 0 <= j < 4 -> in_shard p 5 j k -> j = i).
Proof.
  intros p.
  assert (H1 : 1 <= 5) by lia.
  assert (H2 : 5 <= vector_max_size) by (rewrite vector_max_size_value; lia).
  assert (H3 : 1 <= IdealThreadCount p <= 5) by (simpl; lia).
  destruct (shard_partition p 5 H1 H2 H3) as (Hb & _ & Hex & _).
  split; [exact Hb | exact Hex].
Defined.

(** ** Block reads *)

Lemma block_at_in_bounds (MainBlocks : BBlockArray) (i : Z) :
  block_at MainBlocks i <> None <-> 0 <= i < Z.of_nat (length MainBlocks).
Proof.
  unfold block_at.
  destruct (0 <=? i) eqn:H0; destruct (i <? Z.of_nat (length MainBlocks)) eqn:H1; simpl.
  - apply Z.leb_le in H0. apply Z.ltb_lt in H1. split; [lia|]. intros _.
    apply nth_error_Some. lia.
  - apply Z.ltb_ge in H1. split; [congruence | lia].
  - apply Z.leb_gt in H0. split; [congruence | lia].
  - apply Z.leb_gt in H0. split; [congruence | lia].
Qed.

Lemma block_at_Some (MainBlocks : BBlockArray) (i : Z) :
  0 <= i < Z.of_nat (length MainBlocks) -> exists b, block_at MainBlocks i = Some b.
Proof.
  intros H. apply block_at_in_bounds in H.
  destruct (block_at MainBlocks i) as [b|]; [exists b; reflexivity | congruence].
Qed.

Lemma prepass_defined_iff (p : FunctionPass) (MainBlocks : BBlockArray)
    (Start End : Z) (Blocks : list FunctionDef.t) :
  FindFunctionWorkerPrepass p MainBlocks Start End Blocks <> None
  <-> prepass_reads_in_bounds MainBlocks Start End.
Proof.
  unfold FindFunctionWorkerPrepass, prepass_reads_in_bounds, bind.
  destruct (block_at MainBlocks Start); destruct (block_at MainBlocks (wrap (End - 1)));
    split; intros H; try congruence; try (split; congruence); destruct H; congruence.
Qed.

Lemma shard_reads_in_bounds_iff (p : FunctionPass) (MainBlocks : BBlockArray) (i : Z) :
  let N := Z.of_nat (length MainBlocks) in
  1 <= IdealThreadCount p <= vector_max_size -> N <= vector_max_size ->
  0 <= i < IdealThreadCount p ->
  (prepass_reads_in_bounds MainBlocks (threadWorkStart p N i) (threadWorkStop p N i)
   <-> shard_nonempty p N i).
Proof.
  intros N HT HN Hi.
  assert (T_pos : 1 <= IdealThreadCount p) by lia.
  assert (T_max : IdealThreadCount p <= vector_max_size) by lia.
  assert (N_nonneg : 0 <= N) by (subst N; lia).
  pose proof (workAmount_nonneg p N T_pos T_max N_nonneg HN) as Hw.
  pose proof (workAmount_bounds p N T_pos T_max N_nonneg HN) as Hb.
  pose proof uint_modulus_value as Hm. pose proof vector_max_size_value as Hv.
  unfold prepass_reads_in_bounds. rewrite !block_at_in_bounds.
  rewrite shard_nonempty_iff by assumption.
  rewrite threadWorkStart_eq, threadWorkStop_eq by assumption.
  fold N. set (w := workAmount p N) in *.
  set (stop := Z.min (w * i + w) N).
  assert (Hstop : 0 <= stop <= N) by (subst stop; nia).
  destruct (Z.eq_dec stop 0) as [H0|H0].
  - rewrite H0. replace (wrap (0 - 1)) with (uint_modulus - 1) by reflexivity.
    subst stop. split; [lia|]. intros [H1 H2]. nia.
  - rewrite wrap_small by lia. subst stop. split.
    + intros [H1 H2]. split; [lia|].
      destruct (Z.eq_dec w 0); [|lia]. subst N. nia.
    + intros [H1 H2]. nia.
Qed.

(** C9. The prepass reads block [Start] and block [End - 1] before anything
    else, so it is defined exactly when both reads are inside the block
    sequence.  For the shards that [Analyse] hands out this is the case for
    a shard exactly when it is non-empty, and for all of them exactly when
    [ceil(N/T) * (T - 1) < N]. *)
Theorem prepass_reads_need_nonempty_shards (p : FunctionPass) (MainBlocks : BBlockArray) :
  let N := Z.of_nat (length MainBlocks) in
  let T := IdealThreadCount p in
  1 <= T <= vector_max_size -> N <= vector_max_size ->
  (forall Start End Blocks,
      FindFunctionWorkerPrepass p MainBlocks Start End Blocks = None
      <-> (block_at MainBlocks Start = None \/ block_at MainBlocks (wrap (End - 1)) = None))
  /\ (forall i, 0 <= i < T ->
        (prepass_reads_in_bounds MainBlocks (threadWorkStart p N i) (threadWorkStop p N i)
         <-> shard_nonempty p N i))
  /\ ((forall i, 0 <= i < T ->
         prepass_reads_in_bounds MainBlocks (threadWorkStart p N i) (threadWorkStop p N i))
      <-> workAmount p N * (T - 1) < N).
Proof.
  intros N T HT HN.
  split.
  { intros Start End Blocks. unfold FindFunctionWorkerPrepass, bind.
    destruct (block_at MainBlocks Start); destruct (block_at MainBlocks (wrap (End - 1)));
      split; intros H; try congruence; auto; destruct H; congruence. }
  split.
  { intros i Hi. apply shard_reads_in_bounds_iff; assumption. }
  assert (N_nonneg : 0 <= N) by (subst N; lia).
  pose proof (all_shards_nonempty_iff p N ltac:(lia) ltac:(lia) N_nonneg HN) as Hall.
  split.
  - intros H. apply Hall. intros i Hi.
    apply (shard_reads_in_bounds_iff p MainBlocks i HT HN Hi). apply H. exact Hi.
  - intros H i Hi.
    apply (shard_reads_in_bounds_iff p MainBlocks i HT HN Hi).
    apply Hall; assumption.
Qed.

(** Four blocks on three threads: [ceil(4/3) * 2 = 4] is not below 4, and
    the third shard, [4,4), reads block 4 of a four-block sequence. *)
Lemma prepass_reads_need_nonempty_shards_witness :
  ~ (forall i, 0 <= i < 3 ->
       prepass_reads_in_bounds four_blocks
         (threadWorkStart (four_blocks_pass 3) 4 i) (threadWorkStop (four_blocks_pass 3) 4 i))
  /\ block_at four_blocks (threadWorkStart (four_blocks_pass 3) 4 2) = None
  /\ FindFunctionWorkerPrepass (four_blocks_pass 3) four_blocks
       (threadWorkStart (four_blocks_pass 3) 4 2) (threadWorkStop (four_blocks_pass 3) 4 2) []
     = None.
Proof.
  assert (HT : 1 <= IdealThreadCount (four_blocks_pass 3) <= vector_max_size)
    by (rewrite vector_max_size_value; simpl; lia).
  assert (HN : Z.of_nat (length four_blocks) <= vector_max_size)
    by (rewrite vector_max_size_value; simpl; lia).
  destruct (prepass_reads_need_nonempty_shards (four_blocks_pass 3) four_blocks HT HN)
    as (Hnone & _ & Hall).
  split.
  - intros H. apply Hall in H. vm_compute in H. discriminate.
  - split; [reflexivity|]. apply Hnone. left. reflexivity.
Defined.

(** With no block at all every shard is empty, whatever the thread count:
    the first read is already outside the sequence. *)
Example prepass_reads_no_blocks :
  workAmount (four_blocks_pass 1) 0 = 0
  /\ block_at [] (threadWorkStart (four_blocks_pass 1) 0 0) = None
  /\ block_at [] (wrap (threadWorkStop (four_blocks_pass 1) 0 0 - 1)) = None.
Proof. repeat split. Qed.

(** ** The CLAIMED flag *)

Lemma land_lor_same (x F : Z) : Z.land (Z.lor x F) F = F.
Proof.
  apply Z.bits_inj'. intros n Hn.
  rewrite Z.land_spec, Z.lor_spec.
  destruct (Z.testbit x n), (Z.testbit F n); reflexivity.
Qed.

Lemma land_lor_other (x F G : Z) : Z.land F G = 0 -> Z.land (Z.lor x F) G = Z.land x G.
Proof.
  intros H. rewrite Z.land_lor_distr_l, H. apply Z.lor_0_r.
Qed.

Lemma GetFlag_SetFlag_same (b : BasicBlock.t) (Flag : Z) :
  GetFlag (SetFlag b Flag) Flag = true.
Proof.
  unfold GetFlag, SetFlag. simpl. rewrite land_lor_same. apply Z.eqb_refl.
Qed.

Lemma GetFlag_SetFlag_other (b : BasicBlock.t) (Flag Other : Z) :
  Z.land Flag Other = 0 -> GetFlag (SetFlag b Flag) Other = GetFlag b Other.
Proof.
  intros H. unfold GetFlag, SetFlag. simpl. rewrite land_lor_other by exact H. reflexivity.
Qed.

Lemma claimed_grows_refl (b : BasicBlock.t) : claimed_grows b b.
Proof. unfold claimed_grows. auto 10. Qed.

Lemma claimed_grows_trans (a b c : BasicBlock.t) :
  claimed_grows a b -> claimed_grows b c -> claimed_grows a c.
Proof.
  unfold claimed_grows.
  intros (H1 & H2 & H3 & H4 & H5 & H6) (K1 & K2 & K3 & K4 & K5 & K6).
  repeat split; try congruence. auto.
Qed.

Lemma claimed_grows_SetFlag (b : BasicBlock.t) :
  claimed_grows b (SetFlag b BASIC_BLOCK_FLAG_FUNCTION).
Proof.
  unfold claimed_grows. repeat split.
  - apply GetFlag_SetFlag_other. reflexivity.
  - apply GetFlag_SetFlag_other. reflexivity.
  - intros _. apply GetFlag_SetFlag_same.
Qed.

Lemma claimed_monotone_refl (MainBlocks : BBlockArray) :
  claimed_monotone MainBlocks MainBlocks.
Proof.
  unfold claimed_monotone. induction MainBlocks; constructor; auto using claimed_grows_refl.
Qed.

Lemma claimed_monotone_trans (a b c : BBlockArray) :
  claimed_monotone a b -> claimed_monotone b c -> claimed_monotone a c.
Proof.
  unfold claimed_monotone. intros Hab. revert c.
  induction Hab; intros c Hbc; inversion Hbc; subst; constructor.
  - eapply claimed_grows_trans; eassumption.
  - apply IHHab. assumption.
Qed.

Lemma claimed_monotone_length (a b : BBlockArray) :
  claimed_monotone a b -> length b = length a.
Proof. intros H. induction H; simpl; congruence. Qed.

Lemma block_at_split (MainBlocks : BBlockArray) (i : Z) (b : BasicBlock.t) :
  block_at MainBlocks i = Some b ->
  MainBlocks = firstn (Z.to_nat i) MainBlocks ++ b :: skipn (S (Z.to_nat i)) MainBlocks.
Proof.
  unfold block_at.
  destruct ((0 <=? i) && (i <? Z.of_nat (length MainBlocks))); [|discriminate].
  generalize (Z.to_nat i) as n. clear i.
  induction MainBlocks as [|x l IH]; intros [|n] H; simpl in *; try discriminate.
  - congruence.
  - f_equal. apply IH. exact H.
Qed.

Lemma SetFlagAt_monotone (MainBlocks : BBlockArray) (i : Z) :
  claimed_monotone MainBlocks (SetFlagAt MainBlocks i BASIC_BLOCK_FLAG_FUNCTION).
Proof.
  unfold SetFlagAt. destruct (block_at MainBlocks i) as [b|] eqn:Hb.
  - pose proof (block_at_split _ _ _ Hb) as Hsplit.
    rewrite Hsplit at 1. unfold claimed_monotone.
    apply Forall2_app; [apply claimed_monotone_refl|].
    constructor; [apply claimed_grows_SetFlag | apply claimed_monotone_refl].
  - apply claimed_monotone_refl.
Qed.

Lemma mark_loop_monotone (n : nat) (i : Z) (MainBlocks : BBlockArray) :
  claimed_monotone MainBlocks (mark_loop n i MainBlocks).
Proof.
  revert i MainBlocks. induction n as [|n IH]; intros i MainBlocks; simpl.
  - apply claimed_monotone_refl.
  - eapply claimed_monotone_trans; [apply SetFlagAt_monotone | apply IH].
Qed.

Lemma ResolveKnownFunctionEnd_monotone (MainBlocks : BBlockArray) (Function : FunctionDef.t) :
  claimed_monotone MainBlocks (snd (ResolveKnownFunctionEnd MainBlocks Function)).
Proof.
  unfold ResolveKnownFunctionEnd.
  destruct (FindBBlockInRange MainBlocks (FunctionDef.VirtualStart Function));
    destruct (FindBBlockInRange MainBlocks (FunctionDef.VirtualEnd Function)); simpl;
    auto using mark_loop_monotone, claimed_monotone_refl.
Qed.

Lemma FindFunctionWorker_monotone (Blocks : list FunctionDef.t) (MainBlocks : BBlockArray) :
  claimed_monotone MainBlocks (snd (FindFunctionWorker MainBlocks Blocks)).
Proof.
  revert MainBlocks. induction Blocks as [|block rest IH]; intros MainBlocks; simpl.
  - apply claimed_monotone_refl.
  - destruct (negb (FunctionDef.VirtualEnd block =? 0)).
    + pose proof (ResolveKnownFunctionEnd_monotone MainBlocks block) as Hr.
      destruct (ResolveKnownFunctionEnd MainBlocks block) as [[ok block'] MainBlocks'].
      simpl in Hr. specialize (IH MainBlocks').
      destruct (FindFunctionWorker MainBlocks' rest) as [rest' MainBlocks'']. simpl in *.
      eapply claimed_monotone_trans; eassumption.
    + specialize (IH MainBlocks).
      destruct (FindFunctionWorker MainBlocks rest) as [rest' MainBlocks'']. simpl in *.
      exact IH.
Qed.

Lemma AnalysisWorker_monotone (p : FunctionPass) (MainBlocks MainBlocks' : BBlockArray)
    (Start End : Z) (Blocks out : list FunctionDef.t) :
  AnalysisWorker p MainBlocks Start End Blocks = Some (out, MainBlocks') ->
  claimed_monotone MainBlocks MainBlocks'.
Proof.
  unfold AnalysisWorker, bind. intros H.
  destruct (FindFunctionWorkerPrepass p MainBlocks Start End Blocks); [|discriminate].
  destruct (scan_calls p MainBlocks Start End _) as [st|]; [|discriminate].
  inversion H as [H']. 
  pose proof (FindFunctionWorker_monotone (std_unique (std_sort (st_Blocks st))) MainBlocks) as Hf.
  rewrite H' in Hf. exact Hf.
Qed.

Lemma run_shards_monotone (p : FunctionPass) (n : nat) (i : Z)
    (MainBlocks MainBlocks' : BBlockArray) (outs : list (list FunctionDef.t)) :
  run_shards p n i MainBlocks = Some (outs, MainBlocks') ->
  claimed_monotone MainBlocks MainBlocks'.
Proof.
  revert i MainBlocks MainBlocks' outs.
  induction n as [|n IH]; intros i MainBlocks MainBlocks' outs H; simpl in H.
  - inversion H. apply claimed_monotone_refl.
  - unfold bind in H.
    destruct (AnalysisWorker p MainBlocks _ _ []) as [[out MB1]|] eqn:Hw; [|discriminate].
    destruct (run_shards p n (i + 1) MB1) as [[others MB2]|] eqn:Hr; [|discriminate].
    inversion H; subst.
    eapply claimed_monotone_trans.
    + eapply AnalysisWorker_monotone; eassumption.
    + eapply IH; eassumption.
Qed.

Lemma Analyse_inv (p : FunctionPass) (MainBlocks : BBlockArray) (table : FunctionTable)
    (r : AnalyseResult) :
  Analyse p MainBlocks table = Some r ->
  IdealThreadCount p <> 0
  /\ run_shards p (Z.to_nat (IdealThreadCount p)) 0 MainBlocks
     = Some (threadFunctions r, blocks_after r)
  /\ funcs r = std_unique (std_sort (concat (threadFunctions r)))
  /\ table_after r = commit (funcs r) table
  /\ returned r = true.
Proof.
  unfold Analyse, bind. intros H.
  destruct (IdealThreadCount p =? 0) eqn:HT; [discriminate|].
  apply Z.eqb_neq in HT.
  destruct (run_shards p _ 0 MainBlocks) as [[outs MB]|]; [|discriminate].
  inversion H; subst; simpl. auto.
Qed.

Lemma claimed_monotone_nth (before after : BBlockArray) (i : nat) (b : BasicBlock.t) :
  claimed_monotone before after -> nth_error before i = Some b ->
  exists b', nth_error after i = Some b' /\ claimed_grows b b'.
Proof.
  intros H. revert i. induction H as [|x y l l' Hxy Hl IH]; intros [|i] Hi; simpl in *;
    try discriminate.
  - inversion Hi; subst. exists y. auto.
  - apply IH. exact Hi.
Qed.

(** C7. Within a run the CLAIMED flag only ever goes from clear to set:
    each operation of the pass that touches the block array (the marking
    loop, [ResolveKnownFunctionEnd], [FindFunctionWorker], a shard's
    [AnalysisWorker], the whole of [Analyse]) leaves every block as it was or
    with the flag newly set, so a block that is CLAIMED before a step is
    CLAIMED after it. *)
Theorem claimed_flag_monotone :
  (forall n i MainBlocks, claimed_monotone MainBlocks (mark_loop n i MainBlocks))
  /\ (forall MainBlocks Function,
        claimed_monotone MainBlocks (snd (ResolveKnownFunctionEnd MainBlocks Function)))
  /\ (forall MainBlocks Blocks,
        claimed_monotone MainBlocks (snd (FindFunctionWorker MainBlocks Blocks)))
  /\ (forall p MainBlocks Start End Blocks out MainBlocks',
        AnalysisWorker p MainBlocks Start End Blocks = Some (out, MainBlocks') ->
        claimed_monotone MainBlocks MainBlocks')
  /\ (forall p MainBlocks table r,
        Analyse p MainBlocks table = Some r ->
        claimed_monotone MainBlocks (blocks_after r)
        /\ forall i b, nth_error MainBlocks i = Some b ->
             GetFlag b BASIC_BLOCK_FLAG_FUNCTION = true ->
             exists b', nth_error (blocks_after r) i = Some b'
                        /\ GetFlag b' BASIC_BLOCK_FLAG_FUNCTION = true).
Proof.
  split; [apply mark_loop_monotone|].
  split; [apply ResolveKnownFunctionEnd_monotone|].
  split; [intros; apply FindFunctionWorker_monotone|].
  split; [intros; eapply AnalysisWorker_monotone; eassumption|].
  intros p MainBlocks table r H.
  destruct (Analyse_inv _ _ _ _ H) as (_ & Hrun & _).
  pose proof (run_shards_monotone _ _ _ _ _ _ Hrun) as Hm.
  split; [exact Hm|].
  intros i b Hi Hb.
  destruct (claimed_monotone_nth _ _ _ _ Hm Hi) as (b' & Hi' & Hg).
  exists b'. split; [exact Hi'|]. apply Hg. exact Hb.
Qed.

(** A block claimed before the run is claimed after it. *)
Lemma claimed_flag_monotone_witness :
  exists r b',
    Analyse (three_blocks_pass 2) stale_blocks [] = Some r
    /\ nth_error (blocks_after r) 0 = Some b'
    /\ GetFlag b' BASIC_BLOCK_FLAG_FUNCTION = true.
Proof.
  destruct claimed_flag_monotone as (_ & _ & _ & _ & H).
  assert (Hrun : exists r, Analyse (three_blocks_pass 2) stale_blocks [] = Some r)
    by (eexists; vm_compute; reflexivity).
  destruct Hrun as [r Hr].
  destruct (H _ _ _ _ Hr) as [_ Hnth].
  destruct (Hnth 0%nat (SetFlag example1_B1 BASIC_BLOCK_FLAG_FUNCTION) eq_refl eq_refl)
    as (b' & Hb' & Hflag).
  exists r, b'. auto.
Defined.

(** ** The control-flow scan *)

Lemma scan_emit_spec (p : FunctionPass) (destination : Z) (st : ScanState) :
  st_MemReads (scan_emit p destination st) = st_MemReads st
  /\ exists emitted,
       st_Blocks (scan_emit p destination st) = st_Blocks st ++ emitted
       /\ Forall (scan_candidate p) emitted.
Proof.
  unfold scan_emit. destruct (ValidateAddress p destination) eqn:Hv; simpl.
  - split; [reflexivity|]. eexists. split; [reflexivity|].
    constructor; [|constructor]. unfold scan_candidate. simpl. auto.
  - split; [reflexivity|]. exists []. rewrite app_nil_r. auto.
Qed.

Lemma scan_block_spec (p : FunctionPass) (blk : BasicBlock.t) (st : ScanState) :
  exists emitted,
    st_Blocks (scan_block p blk st) = st_Blocks st ++ emitted
    /\ Forall (scan_candidate p) emitted.
Proof.
  assert (Hnil : exists emitted, st_Blocks st = st_Blocks st ++ emitted
                                 /\ Forall (scan_candidate p) emitted)
    by (exists []; rewrite app_nil_r; auto).
  unfold scan_block.
  destruct (GetFlag blk BASIC_BLOCK_FLAG_CALL); [|exact Hnil].
  destruct (GetFlag blk BASIC_BLOCK_FLAG_INDIRPTR).
  - destruct (MemRead p (BasicBlock.Target blk)) as [v|]; [|exact Hnil].
    destruct (MemIsValidReadPtr p v); simpl; [|exact Hnil].
    apply (scan_emit_spec p v (log_read st (BasicBlock.Target blk))).
  - apply scan_emit_spec.
Qed.

Lemma scan_loop_spec (p : FunctionPass) (MainBlocks : BBlockArray) (n : nat) (i : Z)
    (st st' : ScanState) :
  scan_loop p MainBlocks n i st = Some st' ->
  exists emitted,
    st_Blocks st' = st_Blocks st ++ emitted /\ Forall (scan_candidate p) emitted.
Proof.
  revert i st. induction n as [|n IH]; intros i st H; simpl in H.
  - inversion H; subst. exists []. rewrite app_nil_r. auto.
  - unfold bind in H. destruct (block_at MainBlocks i) as [blk|]; [|discriminate].
    destruct (IH _ _ H) as (e2 & He2 & Hf2).
    destruct (scan_block_spec p blk st) as (e1 & He1 & Hf1).
    exists (e1 ++ e2). rewrite He2, He1, app_assoc. split; [reflexivity|].
    apply Forall_app. auto.
Qed.

Lemma scan_loop_app (p : FunctionPass) (MainBlocks : BBlockArray) (n m : nat) (i : Z)
    (st : ScanState) :
  scan_loop p MainBlocks (n + m) i st
  = (st1 <- scan_loop p MainBlocks n i st ;;
     scan_loop p MainBlocks m (i + Z.of_nat n) st1).
Proof.
  revert i st. induction n as [|n IH]; intros i st.
  - simpl. rewrite Z.add_0_r. reflexivity.
  - cbn [Nat.add scan_loop]. unfold bind at 1 3.
    destruct (block_at MainBlocks i) as [blk|]; [|reflexivity].
    rewrite IH. replace (i + 1 + Z.of_nat n) with (i + Z.of_nat (S n)) by lia.
    reflexivity.
Qed.

Lemma scan_loop_defined (p : FunctionPass) (MainBlocks : BBlockArray) (n : nat) (i : Z)
    (st : ScanState) :
  0 <= i -> i + Z.of_nat n <= Z.of_nat (length MainBlocks) ->
  exists st', scan_loop p MainBlocks n i st = Some st'.
Proof.
  revert i st. induction n as [|n IH]; intros i st H0 H1; simpl.
  - eauto.
  - destruct (block_at_Some MainBlocks i ltac:(lia)) as [blk Hblk].
    rewrite Hblk. simpl. apply IH; lia.
Qed.

(** C6. Every candidate that the control-flow scan of a shard appends starts
    at an address that passes [ValidateAddress], that is, inside the overall
    analysis bounds [[m_VirtualStart, m_VirtualEnd)] of the pass, whatever
    the shard [[Start, End)] is. *)
Theorem scan_candidates_within_analysis_bounds (p : FunctionPass) (MainBlocks : BBlockArray)
    (Start End : Z) (st st' : ScanState) :
  scan_calls p MainBlocks Start End st = Some st' ->
  exists emitted,
    st_Blocks st' = st_Blocks st ++ emitted
    /\ forall c, In c emitted ->
         ValidateAddress p (FunctionDef.VirtualStart c) = true
         /\ m_VirtualStart p <= FunctionDef.VirtualStart c < m_VirtualEnd p.
Proof.
  unfold scan_calls. intros H.
  destruct (scan_loop_spec _ _ _ _ _ _ H) as (emitted & He & Hf).
  exists emitted. split; [exact He|].
  intros c Hc. rewrite Forall_forall in Hf. destruct (Hf c Hc) as (Hv & _).
  split; [exact Hv|].
  unfold ValidateAddress in Hv. apply andb_true_iff in Hv. destruct Hv as [H1 H2].
  apply Z.leb_le in H1. apply Z.ltb_lt in H2. lia.
Qed.

(** The call of example 1 is scanned by a shard that holds block 0 only; its
    destination 0x2000 lies outside that shard and inside the bounds. *)
Lemma scan_candidates_within_analysis_bounds_witness :
  exists st',
    scan_calls (example1_pass 2) example1_blocks 0 1 {| st_Blocks := []; st_MemReads := [] |}
    = Some st'
    /\ st_Blocks st' = [FunctionDef.mk 0x2000 0x2000 0 0]
    /\ forall c, In c (st_Blocks st') ->
         m_VirtualStart (example1_pass 2) <= FunctionDef.VirtualStart c
         < m_VirtualEnd (example1_pass 2).
Proof.
  eexists. split; [reflexivity|]. split; [reflexivity|].
  intros c Hc.
  destruct (scan_candidates_within_analysis_bounds (example1_pass 2) example1_blocks 0 1
              {| st_Blocks := []; st_MemReads := [] |} _ eq_refl) as (emitted & He & Hin).
  simpl in He. subst emitted. apply Hin. exact Hc.
Defined.

Lemma scan_block_indirect_reads (p : FunctionPass) (blk : BasicBlock.t) (st : ScanState) :
  GetFlag blk BASIC_BLOCK_FLAG_CALL = true ->
  GetFlag blk BASIC_BLOCK_FLAG_INDIRPTR = true ->
  st_MemReads (scan_block p blk st) = st_MemReads st ++ [BasicBlock.Target blk].
Proof.
  intros Hc Hi. unfold scan_block. rewrite Hc, Hi.
  destruct (MemRead p (BasicBlock.Target blk)) as [v|]; [|reflexivity].
  destruct (MemIsValidReadPtr p v); simpl; [|reflexivity].
  apply (proj1 (scan_emit_spec p v (log_read st (BasicBlock.Target blk)))).
Qed.

Lemma scan_block_unusable (p : FunctionPass) (blk : BasicBlock.t) (st : ScanState) :
  GetFlag blk BASIC_BLOCK_FLAG_CALL = true ->
  GetFlag blk BASIC_BLOCK_FLAG_INDIRPTR = true ->
  unusable_pointer p blk ->
  scan_block p blk st = log_read st (BasicBlock.Target blk).
Proof.
  intros Hc Hi Hu. unfold scan_block. rewrite Hc, Hi.
  destruct Hu as [Hn | (v & Hv & Hr)].
  - rewrite Hn. reflexivity.
  - rewrite Hv, Hr. reflexivity.
Qed.

(** C5. For a CALL block that is also flagged indirect, the scan hands
    exactly one address to [MemRead], the block's [Target].  If that read
    fails, or the value read is not a readable address, the block adds no
    candidate: the candidate list is left as it was, and the scan of a shard
    [[Start, End)] holding the block at index [k] is the scan of [[Start, k)]
    followed by the scan of [[k + 1, End)], with nothing but the one read in
    between. *)
Theorem indirect_call_single_dereference (p : FunctionPass) (MainBlocks : BBlockArray)
    (blk : BasicBlock.t) :
  GetFlag blk BASIC_BLOCK_FLAG_CALL = true ->
  GetFlag blk BASIC_BLOCK_FLAG_INDIRPTR = true ->
  (forall st,
      st_MemReads (scan_block p blk st) = st_MemReads st ++ [BasicBlock.Target blk])
  /\ (unusable_pointer p blk ->
      (forall st, st_Blocks (scan_block p blk st) = st_Blocks st)
      /\ forall Start End k st,
           Start <= k < End -> block_at MainBlocks k = Some blk ->
           scan_calls p MainBlocks Start End st
           = (st1 <- scan_calls p MainBlocks Start k st ;;
              scan_calls p MainBlocks (k + 1) End (log_read st1 (BasicBlock.Target blk)))).
Proof.
  intros Hc Hi. split.
  { intros st. apply scan_block_indirect_reads; assumption. }
  intros Hu. split.
  { intros st. rewrite scan_block_unusable by assumption. reflexivity. }
  intros Start End k st Hk Hblk. unfold scan_calls.
  replace (Z.to_nat (End - Start))
    with (Z.to_nat (k - Start) + S (Z.to_nat (End - (k + 1))))%nat by lia.
  rewrite scan_loop_app.
  replace (Start + Z.of_nat (Z.to_nat (k - Start))) with k by lia.
  destruct (scan_loop p MainBlocks (Z.to_nat (k - Start)) Start st) as [st1|]; simpl;
    [|reflexivity].
  rewrite Hblk. simpl. rewrite scan_block_unusable by assumption. reflexivity.
Qed.

(** The second block reads the cell at 0x3008, which fails: one read, no
    candidate, and the scan of the four blocks is as if the block held no
    call. *)
Lemma indirect_call_single_dereference_witness :
  st_MemReads (scan_block indirect_pass indirect_I1 scan_start) = [0x3008]
  /\ st_Blocks (scan_block indirect_pass indirect_I1 scan_start) = []
  /\ scan_calls indirect_pass indirect_blocks 0 4 scan_start
     = Some {| st_Blocks := [FunctionDef.mk 0x4000 0x4000 0 0; FunctionDef.mk 0x1000 0x1000 0 0];
               st_MemReads := [0x3000; 0x3008; 0x3010] |}.
Proof.
  destruct (indirect_call_single_dereference indirect_pass indirect_blocks indirect_I1
              eq_refl eq_refl) as [Hreads Hfail].
  split; [apply Hreads|].
  destruct (Hfail (or_introl eq_refl)) as [Hblocks Hscan].
  split; [apply Hblocks|].
  rewrite (Hscan 0 4 1 scan_start ltac:(lia) eq_refl). reflexivity.
Defined.

Lemma scan_candidates_end_at_destination (p : FunctionPass) (MainBlocks : BBlockArray)
    (Start End : Z) (st st' : ScanState) :
  scan_calls p MainBlocks Start End st = Some st' ->
  exists emitted,
    st_Blocks st' = st_Blocks st ++ emitted
    /\ forall c, In c emitted -> FunctionDef.VirtualEnd c = FunctionDef.VirtualStart c.
Proof.
  unfold scan_calls. intros H.
  destruct (scan_loop_spec _ _ _ _ _ _ H) as (emitted & He & Hf).
  exists emitted. split; [exact He|].
  intros c Hc. rewrite Forall_forall in Hf. destruct (Hf c Hc) as (_ & Hend & _).
  exact Hend.
Qed.

(** C1. The candidate that the scan appends for a surviving CALL block has
    its [VirtualEnd] set to the destination, not to 0.  On example 2 the
    candidate is (0x4000, 0x4000) and the run commits [0x4000, 0x3FFF]; on
    example 1 the shard of block B1 appends (0x2000, 0x2000), which boundary
    resolution takes for a candidate with a known end and resolves to the
    block indices (1, 1). *)
Theorem call_candidate_end_is_destination :
  scan_calls example2_pass example2_blocks 0 1 scan_start
  = Some {| st_Blocks := [FunctionDef.mk 0x4000 0x4000 0 0]; st_MemReads := [0x3000] |}
  /\ (exists r, Analyse example2_pass example2_blocks [] = Some r
                /\ funcs r = [FunctionDef.mk 0x4000 0x4000 0 0]
                /\ table_after r
                   = [{| fn_Start := 0x4000; fn_End := 0x3FFF; fn_AutoDiscovered := true |}]
                /\ blocks_after r = example2_blocks)
  /\ AnalysisWorker (example1_pass 2) example1_blocks 0 1 []
     = Some ([FunctionDef.mk 0x2000 0x2000 1 1], example1_blocks).
Proof.
  split; [reflexivity|]. split; [|reflexivity].
  eexists. split; [reflexivity|]. repeat split.
Qed.

(** ** Order and equality of candidates *)

Lemma ltb_spec (a b : FunctionDef.t) :
  FunctionDef.ltb a b = true
  <-> FunctionDef.VirtualStart a < FunctionDef.VirtualStart b
      \/ (FunctionDef.VirtualStart a = FunctionDef.VirtualStart b
          /\ FunctionDef.VirtualEnd a < FunctionDef.VirtualEnd b).
Proof.
  unfold FunctionDef.ltb.
  rewrite orb_true_iff, andb_true_iff, !Z.ltb_lt, Z.eqb_eq. reflexivity.
Qed.

Lemma ltb_false_spec (a b : FunctionDef.t) :
  FunctionDef.ltb a b = false
  <-> FunctionDef.VirtualStart b < FunctionDef.VirtualStart a
      \/ (FunctionDef.VirtualStart a = FunctionDef.VirtualStart b
          /\ FunctionDef.VirtualEnd b <= FunctionDef.VirtualEnd a).
Proof.
  rewrite <- not_true_iff_false, ltb_spec. lia.
Qed.

Lemma eqb_spec (a b : FunctionDef.t) :
  FunctionDef.eqb a b = true <-> FunctionDef.key a = FunctionDef.key b.
Proof.
  unfold FunctionDef.eqb, FunctionDef.key.
  rewrite andb_true_iff, !Z.eqb_eq. split.
  - intros [H1 H2]. congruence.
  - intros H. inversion H. auto.
Qed.

Lemma eqb_false_spec (a b : FunctionDef.t) :
  FunctionDef.eqb a b = false <-> FunctionDef.key a <> FunctionDef.key b.
Proof. rewrite <- not_true_iff_false, eqb_spec. reflexivity. Qed.

Lemma key_eq (a b : FunctionDef.t) :
  FunctionDef.key a = FunctionDef.key b
  <-> FunctionDef.VirtualStart a = FunctionDef.VirtualStart b
      /\ FunctionDef.VirtualEnd a = FunctionDef.VirtualEnd b.
Proof.
  unfold FunctionDef.key. split.
  - intros H. inversion H. auto.
  - intros [H1 H2]. congruence.
Qed.

Lemma not_after_trans (a b c : FunctionDef.t) :
  not_after a b -> not_after b c -> not_after a c.
Proof. unfold not_after. rewrite !ltb_false_spec. lia. Qed.

Lemma before_trans (a b c : FunctionDef.t) : before a b -> before b c -> before a c.
Proof. unfold before. rewrite !ltb_spec. lia. Qed.

Lemma not_after_neq_before (a b : FunctionDef.t) :
  not_after a b -> FunctionDef.eqb a b = false -> before a b.
Proof.
  unfold not_after, before. rewrite ltb_false_spec, eqb_false_spec, key_eq, ltb_spec. lia.
Qed.

Lemma before_key_neq (a b : FunctionDef.t) :
  before a b -> FunctionDef.key a <> FunctionDef.key b.
Proof. unfold before. rewrite ltb_spec, key_eq. lia. Qed.

(** ** Sorting *)

Lemma sort_insert_perm (x : FunctionDef.t) (l : list FunctionDef.t) :
  Permutation (sort_insert x l) (x :: l).
Proof.
  induction l as [|y t IH]; simpl.
  - apply Permutation_refl.
  - destruct (FunctionDef.ltb y x).
    + eapply Permutation_trans; [apply perm_skip, IH | apply perm_swap].
    + apply Permutation_refl.
Qed.

Lemma std_sort_perm (l : list FunctionDef.t) : Permutation (std_sort l) l.
Proof.
  induction l as [|x t IH]; simpl.
  - apply Permutation_refl.
  - eapply Permutation_trans; [apply sort_insert_perm | apply perm_skip, IH].
Qed.

Lemma sort_insert_sorted (x : FunctionDef.t) (l : list FunctionDef.t) :
  StronglySorted not_after l -> StronglySorted not_after (sort_insert x l).
Proof.
  induction l as [|y t IH]; intros Hs; simpl.
  - constructor; constructor.
  - inversion Hs as [|? ? Ht Hy]; subst.
    destruct (FunctionDef.ltb y x) eqn:Hyx.
    + constructor; [apply IH; assumption|].
      apply (Permutation_Forall (Permutation_sym (sort_insert_perm x t))).
      constructor; [|assumption].
      unfold not_after. apply ltb_false_spec. apply ltb_spec in Hyx. lia.
    + constructor; [assumption|].
      constructor; [exact Hyx|].
      rewrite Forall_forall in *. intros z Hz.
      eapply not_after_trans; [exact Hyx | apply Hy; exact Hz].
Qed.

Lemma std_sort_sorted (l : list FunctionDef.t) : StronglySorted not_after (std_sort l).
Proof.
  induction l as [|x t IH]; simpl.
  - constructor.
  - apply sort_insert_sorted. exact IH.
Qed.

(** ** Removing duplicates *)

Lemma unique_after_sorted (kept : FunctionDef.t) (l : list FunctionDef.t) :
  StronglySorted not_after (kept :: l) ->
  StronglySorted before (kept :: unique_after kept l).
Proof.
  revert kept. induction l as [|x t IH]; intros kept Hs; simpl.
  - constructor; constructor.
  - inversion Hs as [|? ? Hxt Hk]; subst.
    inversion Hxt as [|? ? Ht Hx]; subst.
    inversion Hk as [|? ? Hkx Hkt]; subst.
    destruct (FunctionDef.eqb kept x) eqn:He.
    + apply IH. constructor; assumption.
    + pose proof (not_after_neq_before _ _ Hkx He) as Hlt.
      specialize (IH x Hxt). inversion IH as [|? ? Hu Hxu]; subst.
      constructor; [exact IH|].
      constructor; [exact Hlt|].
      rewrite Forall_forall in *. intros z Hz.
      eapply before_trans; [exact Hlt | apply Hxu; exact Hz].
Qed.

Lemma std_unique_sorted (l : list FunctionDef.t) :
  StronglySorted not_after l -> StronglySorted before (std_unique l).
Proof.
  destruct l as [|x t]; simpl; intros Hs.
  - constructor.
  - apply unique_after_sorted. exact Hs.
Qed.

Lemma unique_after_keeps_key (kept c : FunctionDef.t) (l : list FunctionDef.t) :
  In c l ->
  FunctionDef.key kept = FunctionDef.key c
  \/ exists y, In y (unique_after kept l) /\ FunctionDef.key y = FunctionDef.key c.
Proof.
  revert kept. induction l as [|x t IH]; intros kept Hc; simpl in *; [contradiction|].
  destruct Hc as [->|Hc].
  - destruct (FunctionDef.eqb kept c) eqn:He.
    + left. apply eqb_spec. exact He.
    + right. exists c. simpl. auto.
  - destruct (FunctionDef.eqb kept x) eqn:He.
    + apply IH. exact Hc.
    + right. destruct (IH x Hc) as [Hk | (y & Hy & Hk)].
      * exists x. simpl. auto.
      * exists y. simpl. auto.
Qed.

Lemma std_unique_keeps_key (c : FunctionDef.t) (l : list FunctionDef.t) :
  In c l -> exists y, In y (std_unique l) /\ FunctionDef.key y = FunctionDef.key c.
Proof.
  destruct l as [|x t]; simpl; intros Hc; [contradiction|].
  destruct Hc as [->|Hc].
  - exists c. auto.
  - destruct (unique_after_keeps_key x c t Hc) as [Hk | (y & Hy & Hk)].
    + exists x. auto.
    + exists y. auto.
Qed.

(** ** Candidates through a worker *)

Lemma enumerate_prepass_keeps (p : FunctionPass) (minFunc maxFunc : Z)
    (records : list RUNTIME_FUNCTION) (Blocks : list FunctionDef.t) (c : FunctionDef.t) :
  In c Blocks -> In c (enumerate_entries (prepass_callback p minFunc maxFunc) records Blocks).
Proof.
  revert Blocks. induction records as [|entry rest IH]; intros Blocks Hc; simpl; [exact Hc|].
  unfold prepass_callback at 1.
  destruct ((minFunc <=? _) && (_ <? maxFunc)); apply IH; [apply in_or_app; left|]; exact Hc.
Qed.

Lemma enumerate_prepass_emits (p : FunctionPass) (minFunc maxFunc : Z)
    (records : list RUNTIME_FUNCTION) (Blocks : list FunctionDef.t)
    (Function : RUNTIME_FUNCTION) :
  In Function records ->
  minFunc <= wrap (m_ModuleStart p + BeginAddress Function) < maxFunc ->
  In (FunctionDef.mk (wrap (m_ModuleStart p + BeginAddress Function))
                     (wrap (m_ModuleStart p + EndAddress Function)) 0 0)
     (enumerate_entries (prepass_callback p minFunc maxFunc) records Blocks).
Proof.
  intros HF Hw. revert Blocks.
  induction records as [|entry rest IH]; intros Blocks; simpl in *; [contradiction|].
  destruct HF as [->|HF].
  - unfold prepass_callback at 1.
    replace ((minFunc <=? wrap (m_ModuleStart p + BeginAddress Function))
             && (wrap (m_ModuleStart p + BeginAddress Function) <? maxFunc)) with true.
    + apply enumerate_prepass_keeps. apply in_or_app. right. left. reflexivity.
    + symmetry. apply andb_true_iff. split; [apply Z.leb_le | apply Z.ltb_lt]; lia.
  - unfold prepass_callback at 1.
    destruct ((minFunc <=? _) && (_ <? maxFunc)); apply IH; exact HF.
Qed.

Lemma ResolveKnownFunctionEnd_key (MainBlocks : BBlockArray) (Function : FunctionDef.t) :
  FunctionDef.key (snd (fst (ResolveKnownFunctionEnd MainBlocks Function)))
  = FunctionDef.key Function.
Proof.
  unfold ResolveKnownFunctionEnd.
  destruct (FindBBlockInRange MainBlocks (FunctionDef.VirtualStart Function));
    destruct (FindBBlockInRange MainBlocks (FunctionDef.VirtualEnd Function)); reflexivity.
Qed.

Lemma FindFunctionWorker_keys (Blocks : list FunctionDef.t) (MainBlocks : BBlockArray) :
  map FunctionDef.key (fst (FindFunctionWorker MainBlocks Blocks))
  = map FunctionDef.key Blocks.
Proof.
  revert MainBlocks. induction Blocks as [|block rest IH]; intros MainBlocks; simpl;
    [reflexivity|].
  destruct (negb (FunctionDef.VirtualEnd block =? 0)).
  - pose proof (ResolveKnownFunctionEnd_key MainBlocks block) as Hk.
    destruct (ResolveKnownFunctionEnd MainBlocks block) as [[ok block'] MainBlocks'].
    simpl in Hk. specialize (IH MainBlocks').
    destruct (FindFunctionWorker MainBlocks' rest) as [rest' MainBlocks'']. simpl in *.
    congruence.
  - specialize (IH MainBlocks).
    destruct (FindFunctionWorker MainBlocks rest) as [rest' MainBlocks'']. simpl in *.
    congruence.
Qed.

Lemma key_member_transfer (l l' : list FunctionDef.t) (c : FunctionDef.t) :
  map FunctionDef.key l' = map FunctionDef.key l -> In c l ->
  exists y, In y l' /\ FunctionDef.key y = FunctionDef.key c.
Proof.
  intros Hm Hc. apply (in_map FunctionDef.key) in Hc. rewrite <- Hm in Hc.
  apply in_map_iff in Hc. destruct Hc as (y & Hk & Hy). exists y. auto.
Qed.

(** A candidate in the worker's list before step 3 has its address pair in
    the worker's output. *)
Lemma worker_steps_keep_key (MainBlocks : BBlockArray) (l : list FunctionDef.t)
    (c : FunctionDef.t) :
  In c l ->
  exists y, In y (fst (FindFunctionWorker MainBlocks (std_unique (std_sort l))))
            /\ FunctionDef.key y = FunctionDef.key c.
Proof.
  intros Hc.
  assert (Hc' : In c (std_sort l))
    by (apply (Permutation_in c (Permutation_sym (std_sort_perm l))); exact Hc).
  destruct (std_unique_keeps_key c _ Hc') as (y & Hy & Hk).
  destruct (key_member_transfer _ _ y (FindFunctionWorker_keys _ MainBlocks) Hy)
    as (z & Hz & Hkz).
  exists z. split; [exact Hz | congruence].
Qed.

Lemma AnalysisWorker_keeps_record (p : FunctionPass) (MainBlocks MainBlocks' : BBlockArray)
    (Start End : Z) (out : list FunctionDef.t) (records : list RUNTIME_FUNCTION)
    (Function : RUNTIME_FUNCTION) (first last : BasicBlock.t) :
  AnalysisWorker p MainBlocks Start End [] = Some (out, MainBlocks') ->
  m_FunctionInfo p = Some records -> In Function records ->
  block_at MainBlocks Start = Some first ->
  block_at MainBlocks (wrap (End - 1)) = Some last ->
  BasicBlock.VirtualStart first <= wrap (m_ModuleStart p + BeginAddress Function)
    < BasicBlock.VirtualEnd last ->
  exists y, In y out
            /\ FunctionDef.VirtualStart y = wrap (m_ModuleStart p + BeginAddress Function)
            /\ FunctionDef.VirtualEnd y = wrap (m_ModuleStart p + EndAddress Function).
Proof.
  intros H Hinfo HF Hfirst Hlast Hw.
  unfold AnalysisWorker, FindFunctionWorkerPrepass, EnumerateFunctionRuntimeEntries64 in H.
  rewrite Hfirst, Hlast, Hinfo in H. simpl in H.
  destruct (scan_calls p MainBlocks Start End _) as [st|] eqn:Hscan; [|discriminate].
  simpl in H. injection H as Hout.
  unfold scan_calls in Hscan.
  destruct (scan_loop_spec _ _ _ _ _ _ Hscan) as (emitted & He & _). simpl in He.
  pose proof (enumerate_prepass_emits p _ _ records [] Function HF Hw) as Hin.
  assert (Hin' : In (FunctionDef.mk (wrap (m_ModuleStart p + BeginAddress Function))
                                    (wrap (m_ModuleStart p + EndAddress Function)) 0 0)
                    (st_Blocks st))
    by (rewrite He; apply in_or_app; left; exact Hin).
  destruct (worker_steps_keep_key MainBlocks _ _ Hin') as (y & Hy & Hk).
  rewrite Hout in Hy. simpl in Hy.
  exists y. apply key_eq in Hk. simpl in Hk. tauto.
Qed.

(** ** Shards of a run *)

Lemma run_shards_nth (p : FunctionPass) (n : nat) (i : Z) (MainBlocks MainBlocks' : BBlockArray)
    (outs : list (list FunctionDef.t)) (j : nat) :
  run_shards p n i MainBlocks = Some (outs, MainBlocks') -> (j < n)%nat ->
  exists MBj out MBj',
    claimed_monotone MainBlocks MBj
    /\ AnalysisWorker p MBj
         (threadWorkStart p (Z.of_nat (length MBj)) (i + Z.of_nat j))
         (threadWorkStop p (Z.of_nat (length MBj)) (i + Z.of_nat j)) []
       = Some (out, MBj')
    /\ nth_error outs j = Some out.
Proof.
  revert i MainBlocks MainBlocks' outs j.
  induction n as [|n IH]; intros i MainBlocks MainBlocks' outs j H Hj; [lia|].
  simpl in H. unfold bind in H.
  destruct (AnalysisWorker p MainBlocks _ _ []) as [[out MB1]|] eqn:Hw; [|discriminate].
  destruct (run_shards p n (i + 1) MB1) as [[others MB2]|] eqn:Hr; [|discriminate].
  inversion H; subst. clear H.
  destruct j as [|j].
  - exists MainBlocks, out, MB1. rewrite Z.add_0_r.
    split; [apply claimed_monotone_refl|]. split; [exact Hw | reflexivity].
  - destruct (IH _ _ _ _ j Hr ltac:(lia)) as (MBj & outj & MBj' & Hm & Hwj & Hn).
    exists MBj, outj, MBj'.
    split; [eapply claimed_monotone_trans;
            [eapply AnalysisWorker_monotone; exact Hw | exact Hm]|].
    replace (i + Z.of_nat (S j)) with (i + 1 + Z.of_nat j) by lia.
    split; [exact Hwj | exact Hn].
Qed.

Lemma claimed_monotone_block_at (before after : BBlockArray) (i : Z) (b : BasicBlock.t) :
  claimed_monotone before after -> block_at before i = Some b ->
  exists b', block_at after i = Some b' /\ claimed_grows b b'.
Proof.
  intros Hm. unfold block_at. rewrite (claimed_monotone_length _ _ Hm).
  destruct ((0 <=? i) && (i <? Z.of_nat (length before))); [|discriminate].
  apply claimed_monotone_nth. exact Hm.
Qed.

Lemma commit_map (l : list FunctionDef.t) (table : FunctionTable) :
  commit l table = map entry_of l.
Proof.
  unfold commit, FunctionClear.
  assert (H : forall acc,
             fold_left (fun table func =>
                          FunctionAdd table (FunctionDef.VirtualStart func)
                                      (wrap (FunctionDef.VirtualEnd func - 1)) true) l acc
             = acc ++ map entry_of l).
  { induction l as [|x t IH]; intros acc; simpl.
    - rewrite app_nil_r. reflexivity.
    - rewrite IH. unfold FunctionAdd. rewrite <- app_assoc. reflexivity. }
  apply H.
Qed.

Lemma merged_keeps_key (l : list FunctionDef.t) (c : FunctionDef.t) :
  In c l ->
  exists y, In y (std_unique (std_sort l)) /\ FunctionDef.key y = FunctionDef.key c.
Proof.
  intros Hc. apply std_unique_keeps_key.
  apply (Permutation_in c (Permutation_sym (std_sort_perm l))). exact Hc.
Qed.

(** C10. The prepass keeps a record on its begin address alone.  Whenever a
    record of the table begins inside the address window of a shard (from
    the first block's [VirtualStart] to the last block's [VirtualEnd]), a
    candidate with the record's begin and end is in the merged list and the
    closed interval up to that end, less one, is committed to the function
    table: no condition is put on the end, which may lie outside the shard
    and outside the analysis bounds. *)
Theorem prepass_filters_on_begin_only (p : FunctionPass) (MainBlocks : BBlockArray)
    (table : FunctionTable) (r : AnalyseResult) (records : list RUNTIME_FUNCTION)
    (Function : RUNTIME_FUNCTION) (i : Z) (first last : BasicBlock.t) :
  let N := Z.of_nat (length MainBlocks) in
  let funcAddr := wrap (m_ModuleStart p + BeginAddress Function) in
  let funcEnd := wrap (m_ModuleStart p + EndAddress Function) in
  Analyse p MainBlocks table = Some r ->
  m_FunctionInfo p = Some records -> In Function records ->
  0 <= i < IdealThreadCount p ->
  block_at MainBlocks (threadWorkStart p N i) = Some first ->
  block_at MainBlocks (wrap (threadWorkStop p N i - 1)) = Some last ->
  BasicBlock.VirtualStart first <= funcAddr < BasicBlock.VirtualEnd last ->
  (exists c, In c (funcs r)
             /\ FunctionDef.VirtualStart c = funcAddr
             /\ FunctionDef.VirtualEnd c = funcEnd)
  /\ In {| fn_Start := funcAddr; fn_End := wrap (funcEnd - 1); fn_AutoDiscovered := true |}
        (table_after r).
Proof.
  intros N funcAddr funcEnd H Hinfo HF Hi Hfirst Hlast Hw.
  destruct (Analyse_inv _ _ _ _ H) as (_ & Hrun & Hfuncs & Htable & _).
  destruct (run_shards_nth _ _ _ _ _ _ (Z.to_nat i) Hrun ltac:(lia))
    as (MBj & out & MBj' & Hm & Hworker & Hnth).
  rewrite (claimed_monotone_length _ _ Hm) in Hworker. fold N in Hworker.
  replace (0 + Z.of_nat (Z.to_nat i)) with i in Hworker by lia.
  destruct (claimed_monotone_block_at _ _ _ _ Hm Hfirst) as (first' & Hfirst' & Hgf).
  destruct (claimed_monotone_block_at _ _ _ _ Hm Hlast) as (last' & Hlast' & Hgl).
  destruct Hgf as (Hfs & _). destruct Hgl as (_ & Hle & _).
  assert (Hw' : BasicBlock.VirtualStart first' <= wrap (m_ModuleStart p + BeginAddress Function)
                < BasicBlock.VirtualEnd last')
    by (rewrite Hfs, Hle; exact Hw).
  destruct (AnalysisWorker_keeps_record _ _ _ _ _ _ _ _ _ _ Hworker Hinfo HF Hfirst' Hlast' Hw')
    as (y & Hy & Hys & Hye).
  assert (Hyc : In y (concat (threadFunctions r))).
  { apply in_concat. exists out. split; [eapply nth_error_In; exact Hnth | exact Hy]. }
  destruct (merged_keeps_key _ _ Hyc) as (c & Hc & Hk).
  rewrite <- Hfuncs in Hc. apply key_eq in Hk. destruct Hk as [Hks Hke].
  split.
  - exists c. subst funcAddr funcEnd. repeat split; [exact Hc | congruence | congruence].
  - rewrite Htable, commit_map.
    replace {| fn_Start := funcAddr; fn_End := wrap (funcEnd - 1); fn_AutoDiscovered := true |}
      with (entry_of c).
    + apply in_map. exact Hc.
    + unfold entry_of. subst funcAddr funcEnd. rewrite Hks, Hke, Hys, Hye. reflexivity.
Qed.

(** A record that begins at 0x401008, inside the only block, and ends at
    0x409000, outside the analysis bounds [0x401000,0x401010): the function
    [0x401008, 0x408FFF] is committed. *)
Lemma prepass_filters_on_begin_only_witness :
  ValidateAddress overlong_pass (wrap (m_ModuleStart overlong_pass + EndAddress overlong_record))
  = false
  /\ exists r,
       Analyse overlong_pass overlong_blocks [] = Some r
       /\ In {| fn_Start := 0x401008; fn_End := 0x408FFF; fn_AutoDiscovered := true |}
             (table_after r).
Proof.
  split; [reflexivity|].
  eexists. split; [reflexivity|].
  refine (proj2 (prepass_filters_on_begin_only overlong_pass overlong_blocks []
                   _ [overlong_record] overlong_record 0
                   (BasicBlock.mk 0x401000 0x401010 0 0) (BasicBlock.mk 0x401000 0x401010 0 0)
                   eq_refl eq_refl (or_introl eq_refl) _ eq_refl eq_refl _)).
  all: vm_compute; split; solve [reflexivity | discriminate].
Defined.

(** ** The last block of the sequence *)

Lemma FindBBlockInRange_from_bound (MainBlocks : BBlockArray) (index Address k : Z) :
  FindBBlockInRange_from MainBlocks index Address = Some k ->
  index <= k < index + Z.of_nat (length MainBlocks).
Proof.
  revert index. induction MainBlocks as [|entry rest IH]; intros index H; simpl in H;
    [discriminate|].
  destruct ((BasicBlock.VirtualStart entry <=? Address)
            && (Address <? BasicBlock.VirtualEnd entry)).
  - inversion H; subst. simpl. lia.
  - apply IH in H. simpl. lia.
Qed.

(** The marking loop stays inside the vector: its bounds are indices of
    blocks that the lookup found. *)
Lemma resolve_indices_in_range (MainBlocks : BBlockArray) (a b startIndex endIndex i : Z) :
  FindBBlockInRange MainBlocks a = Some startIndex ->
  FindBBlockInRange MainBlocks b = Some endIndex ->
  startIndex <= i < endIndex ->
  block_at MainBlocks i <> None.
Proof.
  intros Hs He Hi.
  apply FindBBlockInRange_from_bound in Hs. apply FindBBlockInRange_from_bound in He.
  apply block_at_in_bounds. lia.
Qed.

Lemma nth_error_update {A : Type} (l : list A) (n m : nat) (x : A) :
  (n < length l)%nat -> m <> n ->
  nth_error (firstn n l ++ x :: skipn (S n) l) m = nth_error l m.
Proof.
  revert n m. induction l as [|a l IH]; intros n m Hn Hm; simpl in Hn; [lia|].
  destruct n as [|n]; destruct m as [|m]; simpl; try reflexivity; try congruence.
  apply IH; lia.
Qed.

Lemma SetFlagAt_other (MainBlocks : BBlockArray) (i j Flag : Z) :
  i <> j -> block_at (SetFlagAt MainBlocks i Flag) j = block_at MainBlocks j.
Proof.
  intros Hij. unfold SetFlagAt.
  destruct (block_at MainBlocks i) as [b|] eqn:Hb; [|reflexivity].
  assert (Hi : 0 <= i < Z.of_nat (length MainBlocks))
    by (apply block_at_in_bounds; congruence).
  assert (Hlen : length (firstn (Z.to_nat i) MainBlocks
                         ++ SetFlag b Flag :: skipn (S (Z.to_nat i)) MainBlocks)
                 = length MainBlocks).
  { rewrite length_app, length_cons, length_firstn, length_skipn. lia. }
  unfold block_at at 1. rewrite Hlen. unfold block_at.
  destruct ((0 <=? j) && (j <? Z.of_nat (length MainBlocks))) eqn:Hj; [|reflexivity].
  apply andb_true_iff in Hj. destruct Hj as [Hj0 Hj1].
  apply Z.leb_le in Hj0. apply Z.ltb_lt in Hj1.
  apply nth_error_update; lia.
Qed.

Lemma mark_loop_outside (n : nat) (i j : Z) (MainBlocks : BBlockArray) :
  j < i \/ i + Z.of_nat n <= j ->
  block_at (mark_loop n i MainBlocks) j = block_at MainBlocks j.
Proof.
  revert i MainBlocks. induction n as [|n IH]; intros i MainBlocks Hj; simpl; [reflexivity|].
  rewrite IH by lia. apply SetFlagAt_other. lia.
Qed.

Lemma ResolveKnownFunctionEnd_last (MainBlocks : BBlockArray) (Function : FunctionDef.t) :
  block_at (snd (ResolveKnownFunctionEnd MainBlocks Function)) (last_index MainBlocks)
  = block_at MainBlocks (last_index MainBlocks).
Proof.
  unfold ResolveKnownFunctionEnd, last_index.
  destruct (FindBBlockInRange MainBlocks (FunctionDef.VirtualStart Function)) as [s|] eqn:Hs;
    [|reflexivity].
  destruct (FindBBlockInRange MainBlocks (FunctionDef.VirtualEnd Function)) as [e|] eqn:He;
    [|reflexivity].
  simpl. apply FindBBlockInRange_from_bound in Hs. apply FindBBlockInRange_from_bound in He.
  apply mark_loop_outside. lia.
Qed.

Lemma FindFunctionWorker_last (Blocks : list FunctionDef.t) (MainBlocks : BBlockArray) :
  block_at (snd (FindFunctionWorker MainBlocks Blocks)) (last_index MainBlocks)
  = block_at MainBlocks (last_index MainBlocks).
Proof.
  revert MainBlocks. induction Blocks as [|block rest IH]; intros MainBlocks; simpl;
    [reflexivity|].
  destruct (negb (FunctionDef.VirtualEnd block =? 0)).
  - pose proof (ResolveKnownFunctionEnd_last MainBlocks block) as Hr.
    pose proof (claimed_monotone_length _ _ (ResolveKnownFunctionEnd_monotone MainBlocks block))
      as Hlen.
    destruct (ResolveKnownFunctionEnd MainBlocks block) as [[ok block'] MainBlocks'].
    simpl in Hr, Hlen. specialize (IH MainBlocks').
    destruct (FindFunctionWorker MainBlocks' rest) as [rest' MainBlocks'']. simpl in *.
    unfold last_index in *. rewrite Hlen in IH. congruence.
  - specialize (IH MainBlocks).
    destruct (FindFunctionWorker MainBlocks rest) as [rest' MainBlocks'']. simpl in *.
    exact IH.
Qed.

(** Boundary resolution marks the blocks from the one that holds the start
    up to, and without, the one that holds the end: whatever the candidates
    are, the last block of the sequence is left as it was. *)
Lemma Analyse_last_block (p : FunctionPass) (MainBlocks : BBlockArray) (table : FunctionTable)
    (r : AnalyseResult) :
  Analyse p MainBlocks table = Some r ->
  block_at (blocks_after r) (last_index MainBlocks)
  = block_at MainBlocks (last_index MainBlocks).
Proof.
  intros H. destruct (Analyse_inv _ _ _ _ H) as (_ & Hrun & _). clear H.
  revert Hrun. generalize (threadFunctions r) (blocks_after r) 0.
  generalize (Z.to_nat (IdealThreadCount p)) as n. clear r.
  intros n. revert MainBlocks.
  induction n as [|n IH]; intros MainBlocks outs MainBlocks' i H; simpl in H.
  - inversion H. reflexivity.
  - unfold bind in H.
    destruct (AnalysisWorker p MainBlocks _ _ []) as [[out MB1]|] eqn:Hw; [|discriminate].
    destruct (run_shards p n (i + 1) MB1) as [[others MB2]|] eqn:Hr; [|discriminate].
    inversion H; subst. clear H.
    pose proof (claimed_monotone_length _ _ (AnalysisWorker_monotone _ _ _ _ _ _ _ Hw)) as Hlen.
    apply IH in Hr. unfold last_index in *. rewrite Hlen in Hr. rewrite Hr.
    unfold AnalysisWorker, bind in Hw.
    destruct (FindFunctionWorkerPrepass p MainBlocks _ _ []); [|discriminate].
    destruct (scan_calls p MainBlocks _ _ _) as [st|]; [|discriminate].
    injection Hw as Hw.
    pose proof (FindFunctionWorker_last (std_unique (std_sort (st_Blocks st))) MainBlocks) as Hl.
    rewrite Hw in Hl. exact Hl.
Qed.

(** ** When a run is defined *)

Lemma prepass_reads_in_bounds_length (a b : BBlockArray) (Start End : Z) :
  length a = length b ->
  prepass_reads_in_bounds a Start End -> prepass_reads_in_bounds b Start End.
Proof.
  unfold prepass_reads_in_bounds. rewrite !block_at_in_bounds. intros ->. auto.
Qed.

Lemma AnalysisWorker_defined (p : FunctionPass) (MainBlocks : BBlockArray) (Start End : Z) :
  prepass_reads_in_bounds MainBlocks Start End ->
  End <= Z.of_nat (length MainBlocks) ->
  exists out MainBlocks', AnalysisWorker p MainBlocks Start End [] = Some (out, MainBlocks').
Proof.
  intros Hb HE. pose proof Hb as [Hs _]. apply block_at_in_bounds in Hs.
  apply (prepass_defined_iff p _ _ _ []) in Hb.
  unfold AnalysisWorker.
  destruct (FindFunctionWorkerPrepass p MainBlocks Start End []) as [Blocks1|];
    [|congruence].
  simpl. unfold scan_calls.
  destruct (scan_loop_defined p MainBlocks (Z.to_nat (End - Start)) Start
              {| st_Blocks := Blocks1; st_MemReads := [] |} ltac:(lia) ltac:(lia))
    as [st Hst].
  rewrite Hst. simpl.
  destruct (FindFunctionWorker MainBlocks (std_unique (std_sort (st_Blocks st))))
    as [out MainBlocks'].
  eauto.
Qed.

Lemma AnalysisWorker_reads_in_bounds (p : FunctionPass) (MainBlocks MainBlocks' : BBlockArray)
    (Start End : Z) (Blocks out : list FunctionDef.t) :
  AnalysisWorker p MainBlocks Start End Blocks = Some (out, MainBlocks') ->
  prepass_reads_in_bounds MainBlocks Start End.
Proof.
  intros H. apply (prepass_defined_iff p _ _ _ Blocks).
  unfold AnalysisWorker, bind in H.
  destruct (FindFunctionWorkerPrepass p MainBlocks Start End Blocks);
    [discriminate | discriminate H].
Qed.

Lemma threadWorkStop_le (p : FunctionPass) (size i : Z) : threadWorkStop p size i <= size.
Proof. unfold threadWorkStop. apply Z.le_min_r. Qed.

Lemma run_shards_defined (p : FunctionPass) (n : nat) (i : Z) (MainBlocks : BBlockArray) :
  (forall j, i <= j < i + Z.of_nat n ->
     prepass_reads_in_bounds MainBlocks
       (threadWorkStart p (Z.of_nat (length MainBlocks)) j)
       (threadWorkStop p (Z.of_nat (length MainBlocks)) j)) ->
  exists outs MainBlocks', run_shards p n i MainBlocks = Some (outs, MainBlocks').
Proof.
  revert i MainBlocks. induction n as [|n IH]; intros i MainBlocks H; simpl.
  - eauto.
  - destruct (AnalysisWorker_defined p MainBlocks _ _ (H i ltac:(lia))
                (threadWorkStop_le _ _ _)) as (out & MB1 & Hw).
    rewrite Hw. simpl.
    pose proof (claimed_monotone_length _ _ (AnalysisWorker_monotone _ _ _ _ _ _ _ Hw)) as Hlen.
    destruct (IH (i + 1) MB1) as (others & MB2 & Hr).
    { intros j Hj. rewrite Hlen.
      apply (prepass_reads_in_bounds_length MainBlocks); [congruence|].
      apply H. lia. }
    rewrite Hr. simpl. eauto.
Qed.

(** A run is defined, and then returns true, exactly when no shard is
    empty. *)
Lemma Analyse_defined_iff (p : FunctionPass) (MainBlocks : BBlockArray) (table : FunctionTable) :
  let N := Z.of_nat (length MainBlocks) in
  let T := IdealThreadCount p in
  1 <= T <= vector_max_size -> N <= vector_max_size ->
  ((exists r, Analyse p MainBlocks table = Some r /\ returned r = true)
   <-> workAmount p N * (T - 1) < N).
Proof.
  intros N T HT HN.
  assert (N_nonneg : 0 <= N) by (subst N; lia).
  pose proof (all_shards_nonempty_iff p N ltac:(lia) ltac:(lia) N_nonneg HN) as Hall.
  split.
  - intros (r & H & _). apply Hall. intros i Hi.
    apply (shard_reads_in_bounds_iff p MainBlocks i HT HN Hi).
    destruct (Analyse_inv _ _ _ _ H) as (_ & Hrun & _).
    destruct (run_shards_nth _ _ _ _ _ _ (Z.to_nat i) Hrun ltac:(lia))
      as (MBj & out & MBj' & Hm & Hworker & _).
    apply AnalysisWorker_reads_in_bounds in Hworker.
    pose proof (claimed_monotone_length _ _ Hm) as Hlen.
    rewrite Hlen in Hworker.
    replace (0 + Z.of_nat (Z.to_nat i)) with i in Hworker by lia.
    apply (prepass_reads_in_bounds_length MBj); [exact Hlen | exact Hworker].
  - intros Hlt.
    destruct (run_shards_defined p (Z.to_nat T) 0 MainBlocks) as (outs & MB' & Hrun).
    { intros j Hj.
      apply (shard_reads_in_bounds_iff p MainBlocks j HT HN ltac:(lia)).
      apply Hall; [exact Hlt | lia]. }
    unfold Analyse.
    replace (IdealThreadCount p =? 0) with false by (symmetry; apply Z.eqb_neq; lia).
    fold T. rewrite Hrun. simpl. eexists. split; reflexivity.
Qed.

(** C8. The run is undefined on inputs that leave a shard empty, where the
    prepass reads a block outside the sequence: four blocks on three threads,
    no block at all, and the two blocks of example 1 on three threads.  With
    no metadata table and every shard non-empty the run goes through on the
    control-flow scan alone and returns true. *)
Theorem analyse_undefined_on_empty_shard :
  Analyse (four_blocks_pass 3) four_blocks [] = None
  /\ Analyse (four_blocks_pass 1) [] [] = None
  /\ Analyse (example1_pass 3) example1_blocks [] = None
  /\ (exists r, Analyse (four_blocks_pass 2) four_blocks [] = Some r /\ returned r = true)
  /\ (exists r, Analyse indirect_pass indirect_blocks [] = Some r
                /\ returned r = true
                /\ funcs r = [FunctionDef.mk 0x1000 0x1000 0 0; FunctionDef.mk 0x4000 0x4000 0 0]).
Proof.
  split; [reflexivity|]. split; [reflexivity|]. split; [reflexivity|].
  split; eexists; (split; [reflexivity|]); repeat split.
Qed.

(** With no owning module the constructor leaves the table pointer null, and
    with a null or empty table the prepass adds nothing. *)
Lemma prepass_without_table (p : FunctionPass) (MainBlocks : BBlockArray) (Start End : Z)
    (Blocks Blocks' : list FunctionDef.t) :
  m_FunctionInfo p = None \/ m_FunctionInfo p = Some [] ->
  FindFunctionWorkerPrepass p MainBlocks Start End Blocks = Some Blocks' ->
  Blocks' = Blocks.
Proof.
  intros Hinfo H. unfold FindFunctionWorkerPrepass, EnumerateFunctionRuntimeEntries64, bind in H.
  destruct (block_at MainBlocks Start); [|discriminate].
  destruct (block_at MainBlocks (wrap (End - 1))); [|discriminate].
  destruct Hinfo as [Hi|Hi]; rewrite Hi in H; simpl in H; congruence.
Qed.

Lemma no_module_no_table (c : Collaborators) (VirtualStart VirtualEnd threads : Z)
    (read : Z -> option Z) (readable : Z -> bool) :
  ModBaseFromAddr c VirtualStart = 0 ->
  m_FunctionInfo (FunctionPass_new c VirtualStart VirtualEnd threads read readable) = None.
Proof.
  intros H. unfold FunctionPass_new, load_function_table. simpl. rewrite H. reflexivity.
Qed.

(** * Further properties of the code *)

(** ** Enumeration of the table *)

Lemma enumerate_all_accepted {S : Type} (Callback : RUNTIME_FUNCTION -> S -> bool * S)
    (records : list RUNTIME_FUNCTION) (s : S) :
  (forall Function s', In Function records -> fst (Callback Function s') = true) ->
  enumerate_entries Callback records s
  = fold_left (fun s' Function => snd (Callback Function s')) records s.
Proof.
  revert s. induction records as [|entry rest IH]; intros s H; simpl; [reflexivity|].
  pose proof (H entry s (or_introl eq_refl)) as He.
  destruct (Callback entry s) as [go_on s']. simpl in He. subst go_on. simpl.
  apply IH. intros F s'' HF. apply H. right. exact HF.
Qed.

(** X1. [EnumerateFunctionRuntimeEntries64] hands the records to the
    callback in table order and stops after the first record at which the
    callback returns false: that record is still visited, the records after
    it are not.  With a null table pointer the callback is never called. *)
Theorem enumeration_stops_after_refusal {S : Type} (p : FunctionPass)
    (Callback : RUNTIME_FUNCTION -> S -> bool * S)
    (visited rest : list RUNTIME_FUNCTION) (refused : RUNTIME_FUNCTION) (s : S) :
  (forall Function s', In Function visited -> fst (Callback Function s') = true) ->
  (forall s', fst (Callback refused s') = false) ->
  (m_FunctionInfo p = Some (visited ++ refused :: rest) ->
   EnumerateFunctionRuntimeEntries64 p Callback s
   = snd (Callback refused
            (fold_left (fun s' Function => snd (Callback Function s')) visited s)))
  /\ (m_FunctionInfo p = Some visited ->
      EnumerateFunctionRuntimeEntries64 p Callback s
      = fold_left (fun s' Function => snd (Callback Function s')) visited s)
  /\ (m_FunctionInfo p = None -> EnumerateFunctionRuntimeEntries64 p Callback s = s).
Proof.
  intros Hgo Hstop. unfold EnumerateFunctionRuntimeEntries64.
  split; [|split]; intros Hinfo; rewrite Hinfo; [| |reflexivity].
  - clear Hinfo. revert s. induction visited as [|entry more IH]; intros s; simpl.
    + pose proof (Hstop s) as Hs. destruct (Callback refused s) as [go_on s'].
      simpl in Hs. subst go_on. reflexivity.
    + pose proof (Hgo entry s (or_introl eq_refl)) as He.
      destruct (Callback entry s) as [go_on s']. simpl in He. subst go_on. simpl.
      apply IH. intros F s'' HF. apply Hgo. right. exact HF.
  - apply enumerate_all_accepted. exact Hgo.
Qed.

(** Of the records at 0x1000, 0x3000 and 0x2000 the visitor sees the first
    two. *)
Lemma enumeration_stops_after_refusal_witness :
  EnumerateFunctionRuntimeEntries64 visitor_pass stop_at_3000 [] = [0x1000; 0x3000].
Proof.
  refine (proj1 (enumeration_stops_after_refusal visitor_pass stop_at_3000
                   [{| BeginAddress := 0x1000; EndAddress := 0x1800; UnwindData := 0 |}]
                   [{| BeginAddress := 0x2000; EndAddress := 0x2800; UnwindData := 0 |}]
                   {| BeginAddress := 0x3000; EndAddress := 0x3800; UnwindData := 0 |}
                   [] _ _) eq_refl).
  - intros F s' [<-|[]]. reflexivity.
  - intros s'. reflexivity.
Defined.

(** ** The prepass *)

Lemma enumerate_prepass_exact (p : FunctionPass) (minFunc maxFunc : Z)
    (records : list RUNTIME_FUNCTION) (Blocks : list FunctionDef.t) :
  enumerate_entries (prepass_callback p minFunc maxFunc) records Blocks
  = Blocks ++ prepass_candidates p minFunc maxFunc records.
Proof.
  unfold prepass_candidates.
  revert Blocks. induction records as [|entry rest IH]; intros Blocks; simpl.
  - rewrite app_nil_r. reflexivity.
  - unfold prepass_callback at 1. unfold record_in_window at 1.
    destruct ((minFunc <=? wrap (m_ModuleStart p + BeginAddress entry))
              && (wrap (m_ModuleStart p + BeginAddress entry) <? maxFunc)).
    + rewrite IH. simpl. rewrite <- app_assoc. reflexivity.
    + apply IH.
Qed.

Lemma prepass_exact (p : FunctionPass) (MainBlocks : BBlockArray) (Start End : Z)
    (Blocks : list FunctionDef.t) (first last : BasicBlock.t) :
  block_at MainBlocks Start = Some first ->
  block_at MainBlocks (wrap (End - 1)) = Some last ->
  FindFunctionWorkerPrepass p MainBlocks Start End Blocks
  = Some (Blocks ++ prepass_candidates p (BasicBlock.VirtualStart first)
                                       (BasicBlock.VirtualEnd last) (function_table p)).
Proof.
  intros Hf Hl. unfold FindFunctionWorkerPrepass, EnumerateFunctionRuntimeEntries64,
    function_table.
  rewrite Hf, Hl. simpl. destruct (m_FunctionInfo p) as [records|].
  - rewrite enumerate_prepass_exact. reflexivity.
  - unfold prepass_candidates. simpl. rewrite app_nil_r. reflexivity.
Qed.

(** X2. When its two block reads are in bounds, the prepass appends to the
    candidate list one candidate for each record whose begin address
    (module base plus offset, in 64 bits) lies in
    [[first.VirtualStart, last.VirtualEnd)], in table order and with
    duplicates kept; every appended candidate starts inside that window and
    has block indices 0; the candidates already in the list stay in front. *)
Theorem prepass_appends_window_records (p : FunctionPass) (MainBlocks : BBlockArray)
    (Start End : Z) (Blocks : list FunctionDef.t) (first last : BasicBlock.t) :
  block_at MainBlocks Start = Some first ->
  block_at MainBlocks (wrap (End - 1)) = Some last ->
  let minFunc := BasicBlock.VirtualStart first in
  let maxFunc := BasicBlock.VirtualEnd last in
  FindFunctionWorkerPrepass p MainBlocks Start End Blocks
  = Some (Blocks ++ map (record_candidate p)
                        (filter (record_in_window p minFunc maxFunc) (function_table p)))
  /\ forall c, In c (prepass_candidates p minFunc maxFunc (function_table p)) ->
       minFunc <= FunctionDef.VirtualStart c < maxFunc
       /\ FunctionDef.BBlockStart c = 0 /\ FunctionDef.BBlockEnd c = 0.
Proof.
  intros Hf Hl minFunc maxFunc. split.
  - apply prepass_exact; assumption.
  - intros c Hc. unfold prepass_candidates in Hc.
    apply in_map_iff in Hc. destruct Hc as (F & <- & HF).
    apply filter_In in HF. destruct HF as [_ Hw].
    unfold record_in_window in Hw. apply andb_true_iff in Hw. destruct Hw as [H1 H2].
    apply Z.leb_le in H1. apply Z.ltb_lt in H2. simpl. auto.
Qed.

(** The first shard of the four blocks has the window [0x1000, 0x1020): of
    the records at 0x1018, 0x3000 and 0x1000 the first and the third are
    kept, in that order. *)
Lemma prepass_appends_window_records_witness :
  FindFunctionWorkerPrepass three_records_pass four_blocks 0 2 []
  = Some [FunctionDef.mk 0x1018 0x1800 0 0; FunctionDef.mk 0x1000 0x1004 0 0].
Proof.
  exact (proj1 (prepass_appends_window_records three_records_pass four_blocks 0 2 []
                  (BasicBlock.mk 0x1000 0x1010 0 0) (BasicBlock.mk 0x1010 0x1020 0 0)
                  eq_refl eq_refl)).
Defined.

(** ** The scan, block by block *)

Lemma scan_emit_blocks (p : FunctionPass) (destination : Z) (st : ScanState) :
  st_Blocks (scan_emit p destination st)
  = st_Blocks st ++ (if ValidateAddress p destination then [call_candidate destination] else []).
Proof.
  unfold scan_emit. destruct (ValidateAddress p destination); simpl.
  - reflexivity.
  - rewrite app_nil_r. reflexivity.
Qed.

Lemma scan_block_emits (p : FunctionPass) (blk : BasicBlock.t) (st : ScanState) :
  exists emitted,
    st_Blocks (scan_block p blk st) = st_Blocks st ++ emitted
    /\ (length emitted <= 1)%nat
    /\ forall c, In c emitted <->
                 exists destination, resolves_to p blk destination
                                     /\ c = call_candidate destination.
Proof.
  unfold scan_block, resolves_to.
  destruct (GetFlag blk BASIC_BLOCK_FLAG_CALL) eqn:Hc.
  2:{ exists []. rewrite app_nil_r. split; [reflexivity|]. split; [simpl; lia|].
      intros c. split; [intros []|]. intros (d & (H & _) & _). discriminate. }
  destruct (GetFlag blk BASIC_BLOCK_FLAG_INDIRPTR) eqn:Hi.
  - destruct (MemRead p (BasicBlock.Target blk)) as [v|] eqn:Hr.
    + destruct (MemIsValidReadPtr p v) eqn:Hv; simpl.
      * rewrite scan_emit_blocks. simpl.
        exists (if ValidateAddress p v then [call_candidate v] else []).
        split; [reflexivity|].
        destruct (ValidateAddress p v) eqn:Hb; simpl; (split; [lia|]); intros c; split.
        -- intros [<-|[]]. exists v. auto.
        -- intros (d & (_ & (Hd & _) & _) & ->). left. congruence.
        -- intros [].
        -- intros (d & (_ & (Hd & _) & Hb') & _).
           assert (d = v) by congruence. subst d. congruence.
      * exists []. rewrite app_nil_r. split; [reflexivity|]. split; [simpl; lia|].
        intros c. split; [intros []|].
        intros (d & (_ & (Hd & Hv') & _) & _).
        assert (d = v) by congruence. subst d. congruence.
    + exists []. simpl. rewrite app_nil_r. split; [reflexivity|]. split; [simpl; lia|].
      intros c. split; [intros []|].
      intros (d & (_ & (Hd & _) & _) & _). discriminate.
  - rewrite scan_emit_blocks.
    exists (if ValidateAddress p (BasicBlock.Target blk)
            then [call_candidate (BasicBlock.Target blk)] else []).
    split; [reflexivity|].
    destruct (ValidateAddress p (BasicBlock.Target blk)) eqn:Hb; simpl;
      (split; [lia|]); intros c; split.
    + intros [<-|[]]. exists (BasicBlock.Target blk). auto.
    + intros (d & (_ & -> & _) & ->). left. reflexivity.
    + intros [].
    + intros (d & (_ & -> & Hb') & _). congruence.
Qed.

Lemma scan_block_reads (p : FunctionPass) (blk : BasicBlock.t) (st : ScanState) :
  st_MemReads (scan_block p blk st)
  = st_MemReads st ++ (if is_indirect_call blk then [BasicBlock.Target blk] else []).
Proof.
  unfold scan_block, is_indirect_call.
  destruct (GetFlag blk BASIC_BLOCK_FLAG_CALL); simpl.
  2:{ rewrite app_nil_r. reflexivity. }
  destruct (GetFlag blk BASIC_BLOCK_FLAG_INDIRPTR).
  - destruct (MemRead p (BasicBlock.Target blk)) as [v|]; [|reflexivity].
    destruct (MemIsValidReadPtr p v); simpl; [|reflexivity].
    apply (proj1 (scan_emit_spec p v (log_read st (BasicBlock.Target blk)))).
  - rewrite (proj1 (scan_emit_spec p _ st)), app_nil_r. reflexivity.
Qed.

Lemma skipn_nth_error {A : Type} (l : list A) (n : nat) (x : A) :
  nth_error l n = Some x -> skipn n l = x :: skipn (S n) l.
Proof.
  revert n. induction l as [|a l IH]; intros [|n] H; simpl in *; try discriminate.
  - congruence.
  - apply IH. exact H.
Qed.

Lemma skipn_block_at (MainBlocks : BBlockArray) (i : Z) (blk : BasicBlock.t) :
  block_at MainBlocks i = Some blk ->
  0 <= i
  /\ skipn (Z.to_nat i) MainBlocks = blk :: skipn (Z.to_nat (i + 1)) MainBlocks.
Proof.
  intros H.
  assert (Hi : 0 <= i < Z.of_nat (length MainBlocks))
    by (apply block_at_in_bounds; congruence).
  split; [lia|].
  unfold block_at in H.
  destruct ((0 <=? i) && (i <? Z.of_nat (length MainBlocks))); [|discriminate].
  replace (Z.to_nat (i + 1)) with (S (Z.to_nat i)) by lia.
  apply skipn_nth_error. exact H.
Qed.

Lemma scan_loop_reads (p : FunctionPass) (MainBlocks : BBlockArray) (n : nat) (i : Z)
    (st st' : ScanState) :
  scan_loop p MainBlocks n i st = Some st' ->
  st_MemReads st'
  = st_MemReads st
    ++ map BasicBlock.Target
         (filter is_indirect_call (firstn n (skipn (Z.to_nat i) MainBlocks))).
Proof.
  revert i st. induction n as [|n IH]; intros i st H; simpl in H.
  - inversion H; subst. simpl. rewrite app_nil_r. reflexivity.
  - unfold bind in H. destruct (block_at MainBlocks i) as [blk|] eqn:Hb; [|discriminate].
    destruct (skipn_block_at _ _ _ Hb) as [_ Hs]. rewrite Hs.
    rewrite (IH _ _ H), scan_block_reads. cbn [firstn filter].
    destruct (is_indirect_call blk); simpl; rewrite <- app_assoc; reflexivity.
Qed.

(** X3. The scan of a shard hands to [MemRead] the [Target] of each block of
    the shard that is flagged CALL and INDIRPTR, once each and in block
    order, and nothing else: a block without the CALL flag, or a direct
    call, costs no read of debuggee memory. *)
Theorem scan_reads_indirect_targets (p : FunctionPass) (MainBlocks : BBlockArray)
    (Start End : Z) (st st' : ScanState) :
  scan_calls p MainBlocks Start End st = Some st' ->
  st_MemReads st'
  = st_MemReads st
    ++ map BasicBlock.Target (filter is_indirect_call (shard_blocks MainBlocks Start End)).
Proof.
  unfold scan_calls, shard_blocks. apply scan_loop_reads.
Qed.

(** Of the four calls the first three are indirect. *)
Lemma scan_reads_indirect_targets_witness :
  exists st',
    scan_calls indirect_pass indirect_blocks 0 4 scan_start = Some st'
    /\ st_MemReads st' = [0x3000; 0x3008; 0x3010].
Proof.
  eexists. split; [reflexivity|].
  exact (scan_reads_indirect_targets indirect_pass indirect_blocks 0 4 scan_start _ eq_refl).
Defined.

Lemma scan_loop_emits (p : FunctionPass) (MainBlocks : BBlockArray) (n : nat) (i : Z)
    (st st' : ScanState) :
  scan_loop p MainBlocks n i st = Some st' ->
  exists emitted,
    st_Blocks st' = st_Blocks st ++ emitted
    /\ (length emitted <= n)%nat
    /\ forall c, In c emitted <->
                 exists k blk destination,
                   i <= k < i + Z.of_nat n /\ block_at MainBlocks k = Some blk
                   /\ resolves_to p blk destination /\ c = call_candidate destination.
Proof.
  revert i st. induction n as [|n IH]; intros i st H; simpl in H.
  - inversion H; subst. exists []. rewrite app_nil_r. split; [reflexivity|].
    split; [simpl; lia|]. intros c. split; [intros []|].
    intros (k & _ & _ & Hk & _). lia.
  - unfold bind in H. destruct (block_at MainBlocks i) as [blk|] eqn:Hb; [|discriminate].
    destruct (IH _ _ H) as (e2 & He2 & Hl2 & Hin2).
    destruct (scan_block_emits p blk st) as (e1 & He1 & Hl1 & Hin1).
    exists (e1 ++ e2). rewrite He2, He1, app_assoc. split; [reflexivity|].
    split; [rewrite length_app; lia|].
    intros c. rewrite in_app_iff, Hin1, Hin2. split.
    + intros [(d & Hd & ->) | (k & b & d & Hk & Hkb & Hd & ->)].
      * exists i, blk, d. split; [lia|]. split; [exact Hb|]. split; [exact Hd | reflexivity].
      * exists k, b, d. split; [lia|]. split; [exact Hkb|]. split; [exact Hd | reflexivity].
    + intros (k & b & d & Hk & Hkb & Hd & ->).
      destruct (Z.eq_dec k i) as [->|Hne].
      * left. exists d. split; [|reflexivity]. congruence.
      * right. exists k, b, d.
        split; [lia|]. split; [exact Hkb|]. split; [exact Hd | reflexivity].
Qed.

(** X4. The scan of the shard [[Start, End)] appends, after the candidates
    it was given, at most one candidate per block, each with block indices
    0.  The start addresses of the appended candidates are exactly the
    destinations for which some block of the shard is flagged CALL, leads
    to the destination (its [Target] for a direct call; for an indirect one
    the value read at [Target], which must be readable) and the destination
    passes [ValidateAddress]. *)
Theorem scan_emits_resolved_calls (p : FunctionPass) (MainBlocks : BBlockArray)
    (Start End : Z) (st st' : ScanState) :
  scan_calls p MainBlocks Start End st = Some st' ->
  exists emitted,
    st_Blocks st' = st_Blocks st ++ emitted
    /\ (length emitted <= Z.to_nat (End - Start))%nat
    /\ (forall c, In c emitted ->
          FunctionDef.BBlockStart c = 0 /\ FunctionDef.BBlockEnd c = 0)
    /\ forall destination,
         In destination (map FunctionDef.VirtualStart emitted) <->
         exists k blk,
           Start <= k < End /\ block_at MainBlocks k = Some blk
           /\ resolves_to p blk destination.
Proof.
  unfold scan_calls. intros H.
  destruct (scan_loop_emits _ _ _ _ _ _ H) as (emitted & He & Hl & Hin).
  exists emitted. split; [exact He|]. split; [exact Hl|]. split.
  - intros c Hc. apply Hin in Hc. destruct Hc as (k & b & d & _ & _ & _ & ->). auto.
  - intros d. rewrite in_map_iff. split.
    + intros (c & Hs & Hc). apply Hin in Hc.
      destruct Hc as (k & b & d' & Hk & Hb & Hd & ->). simpl in Hs. subst d'.
      exists k, b. split; [lia|]. auto.
    + intros (k & b & Hk & Hb & Hd). exists (call_candidate d). split; [reflexivity|].
      apply Hin. exists k, b, d. split; [lia|]. auto.
Qed.

(** Of the four calls two lead somewhere: the first, through the cell at
    0x3000, to 0x4000 and the last, directly, to 0x1000. *)
Lemma scan_emits_resolved_calls_witness :
  exists st',
    scan_calls indirect_pass indirect_blocks 0 4 scan_start = Some st'
    /\ In 0x4000 (map FunctionDef.VirtualStart (st_Blocks st'))
    /\ ~ In 0x7000 (map FunctionDef.VirtualStart (st_Blocks st')).
Proof.
  eexists. split; [reflexivity|].
  destruct (scan_emits_resolved_calls indirect_pass indirect_blocks 0 4 scan_start _ eq_refl)
    as (emitted & He & _ & _ & Hin).
  simpl in He. subst emitted. split.
  - apply (proj2 (Hin 0x4000)). exists 0, indirect_I0.
    split; [lia|]. split; [reflexivity|].
    unfold resolves_to. simpl. auto.
  - intros [Hc|[Hc|[]]]; discriminate Hc.
Defined.

(** ** Boundary resolution *)

Lemma same_code_refl (b : BasicBlock.t) : same_code b b.
Proof. unfold same_code. auto. Qed.

Lemma same_code_sym (a b : BasicBlock.t) : same_code a b -> same_code b a.
Proof. unfold same_code. intros (H1 & H2 & H3 & H4 & H5). auto. Qed.

Lemma same_code_trans (a b c : BasicBlock.t) :
  same_code a b -> same_code b c -> same_code a c.
Proof.
  unfold same_code. intros (H1 & H2 & H3 & H4 & H5) (K1 & K2 & K3 & K4 & K5).
  repeat split; congruence.
Qed.

Lemma claimed_grows_same_code (b b' : BasicBlock.t) : claimed_grows b b' -> same_code b b'.
Proof. unfold claimed_grows, same_code. intros (H1 & H2 & H3 & H4 & H5 & _). auto. Qed.

Lemma claimed_monotone_same_code (before after : BBlockArray) :
  claimed_monotone before after -> Forall2 same_code before after.
Proof.
  intros H. induction H; constructor; auto using claimed_grows_same_code.
Qed.

Lemma Forall2_same_code_sym (a b : BBlockArray) :
  Forall2 same_code a b -> Forall2 same_code b a.
Proof. intros H. induction H; constructor; auto using same_code_sym. Qed.

Lemma Forall2_same_code_trans (a b c : BBlockArray) :
  Forall2 same_code a b -> Forall2 same_code b c -> Forall2 same_code a c.
Proof.
  intros Hab. revert c. induction Hab; intros c Hbc; inversion Hbc; subst; constructor.
  - eapply same_code_trans; eassumption.
  - apply IHHab. assumption.
Qed.

Lemma FindBBlockInRange_from_same_code (a b : BBlockArray) (index Address : Z) :
  Forall2 same_code a b ->
  FindBBlockInRange_from b index Address = FindBBlockInRange_from a index Address.
Proof.
  intros H. revert index. induction H as [|x y l l' Hxy Hl IH]; intros index; simpl;
    [reflexivity|].
  destruct Hxy as (H1 & H2 & _). rewrite H1, H2, IH. reflexivity.
Qed.

Lemma FindBBlockInRange_same_code (a b : BBlockArray) (Address : Z) :
  Forall2 same_code a b -> FindBBlockInRange b Address = FindBBlockInRange a Address.
Proof. apply FindBBlockInRange_from_same_code. Qed.

Lemma resolved_same_code (a b : BBlockArray) (c : FunctionDef.t) :
  Forall2 same_code a b -> resolved b c = resolved a c.
Proof.
  intros H. unfold resolved.
  rewrite !(FindBBlockInRange_same_code a b) by exact H. reflexivity.
Qed.

Lemma SetFlagAt_same (MainBlocks : BBlockArray) (i Flag : Z) (b : BasicBlock.t) :
  block_at MainBlocks i = Some b ->
  block_at (SetFlagAt MainBlocks i Flag) i = Some (SetFlag b Flag).
Proof.
  intros Hb. unfold SetFlagAt. rewrite Hb.
  assert (Hi : 0 <= i < Z.of_nat (length MainBlocks))
    by (apply block_at_in_bounds; congruence).
  assert (Hlen : length (firstn (Z.to_nat i) MainBlocks) = Z.to_nat i)
    by (rewrite length_firstn; lia).
  unfold block_at.
  rewrite length_app, length_cons, length_firstn, length_skipn.
  replace ((0 <=? i) && (i <? Z.of_nat (Nat.min (Z.to_nat i) (length MainBlocks)
                                        + S (length MainBlocks - S (Z.to_nat i)))))
    with true by (symmetry; apply andb_true_iff; split;
                  [apply Z.leb_le | apply Z.ltb_lt]; lia).
  rewrite nth_error_app2 by lia. rewrite Hlen, Nat.sub_diag. reflexivity.
Qed.

Lemma mark_loop_inside (n : nat) (i j : Z) (MainBlocks : BBlockArray) (b : BasicBlock.t) :
  i <= j < i + Z.of_nat n -> block_at MainBlocks j = Some b ->
  block_at (mark_loop n i MainBlocks) j = Some (SetFlag b BASIC_BLOCK_FLAG_FUNCTION).
Proof.
  revert i MainBlocks. induction n as [|n IH]; intros i MainBlocks Hj Hb; [lia|].
  simpl. destruct (Z.eq_dec j i) as [->|Hne].
  - rewrite mark_loop_outside by lia. apply SetFlagAt_same. exact Hb.
  - apply IH; [lia|]. rewrite SetFlagAt_other by lia. exact Hb.
Qed.

Lemma ResolveKnownFunctionEnd_miss (MainBlocks : BBlockArray) (Function : FunctionDef.t) :
  FindBBlockInRange MainBlocks (FunctionDef.VirtualStart Function) = None
  \/ FindBBlockInRange MainBlocks (FunctionDef.VirtualEnd Function) = None ->
  ResolveKnownFunctionEnd MainBlocks Function = (false, Function, MainBlocks).
Proof.
  intros H. unfold ResolveKnownFunctionEnd.
  destruct (FindBBlockInRange MainBlocks (FunctionDef.VirtualStart Function));
    destruct (FindBBlockInRange MainBlocks (FunctionDef.VirtualEnd Function));
    try reflexivity; destruct H; discriminate.
Qed.

(** X7. [ResolveKnownFunctionEnd] looks up the block that holds the
    candidate's start and the block that holds its end.  If either lookup
    misses it returns false and changes neither the candidate nor any block.
    Otherwise it returns true, stores the two block indices in the candidate
    and sets the CLAIMED flag on exactly the blocks with index in
    [[startIndex, endIndex)]: every other block is as before, and so is
    every block when the end index is not above the start index. *)
Theorem resolve_marks_exactly_the_range (MainBlocks : BBlockArray) (Function : FunctionDef.t) :
  (FindBBlockInRange MainBlocks (FunctionDef.VirtualStart Function) = None
   \/ FindBBlockInRange MainBlocks (FunctionDef.VirtualEnd Function) = None ->
   ResolveKnownFunctionEnd MainBlocks Function = (false, Function, MainBlocks))
  /\ forall startIndex endIndex,
       FindBBlockInRange MainBlocks (FunctionDef.VirtualStart Function) = Some startIndex ->
       FindBBlockInRange MainBlocks (FunctionDef.VirtualEnd Function) = Some endIndex ->
       exists MainBlocks',
         ResolveKnownFunctionEnd MainBlocks Function
         = (true,
            FunctionDef.mk (FunctionDef.VirtualStart Function) (FunctionDef.VirtualEnd Function)
                           startIndex endIndex,
            MainBlocks')
         /\ length MainBlocks' = length MainBlocks
         /\ (forall j b, startIndex <= j < endIndex -> block_at MainBlocks j = Some b ->
               block_at MainBlocks' j = Some (SetFlag b BASIC_BLOCK_FLAG_FUNCTION))
         /\ (forall j, j < startIndex \/ endIndex <= j ->
               block_at MainBlocks' j = block_at MainBlocks j).
Proof.
  split; [apply ResolveKnownFunctionEnd_miss|].
  - intros s e Hs He. unfold ResolveKnownFunctionEnd. rewrite Hs, He.
    eexists. split; [reflexivity|].
    split; [apply claimed_monotone_length, mark_loop_monotone|].
    split.
    + intros j b Hj Hb. apply mark_loop_inside; [lia | exact Hb].
    + intros j Hj. apply mark_loop_outside. lia.
Qed.

(** In the three-block sequence the function [0x2000, 0x2020) starts in
    block 1 and its end lies in block 2: block 1, and only block 1, is
    marked. *)
Lemma resolve_marks_exactly_the_range_witness :
  exists MainBlocks',
    ResolveKnownFunctionEnd three_blocks (FunctionDef.mk 0x2000 0x2020 0 0)
    = (true, FunctionDef.mk 0x2000 0x2020 1 2, MainBlocks')
    /\ block_at MainBlocks' 1 = Some (SetFlag example1_B2 BASIC_BLOCK_FLAG_FUNCTION)
    /\ block_at MainBlocks' 0 = Some example1_B1
    /\ block_at MainBlocks' 2 = Some example1_B3.
Proof.
  destruct (proj2 (resolve_marks_exactly_the_range three_blocks
                     (FunctionDef.mk 0x2000 0x2020 0 0)) 1 2 eq_refl eq_refl)
    as (MainBlocks' & Hr & _ & Hin & Hout).
  exists MainBlocks'. split; [exact Hr|]. split; [|split].
  - apply Hin; [lia | reflexivity].
  - rewrite Hout by lia. reflexivity.
  - rewrite Hout by lia. reflexivity.
Defined.

Lemma ResolveKnownFunctionEnd_resolved (MainBlocks : BBlockArray) (c : FunctionDef.t) :
  FunctionDef.VirtualEnd c <> 0 ->
  snd (fst (ResolveKnownFunctionEnd MainBlocks c)) = resolved MainBlocks c.
Proof.
  intros H. unfold ResolveKnownFunctionEnd, resolved.
  replace (FunctionDef.VirtualEnd c =? 0) with false by (symmetry; apply Z.eqb_neq; exact H).
  destruct (FindBBlockInRange MainBlocks (FunctionDef.VirtualStart c));
    destruct (FindBBlockInRange MainBlocks (FunctionDef.VirtualEnd c)); reflexivity.
Qed.

Lemma FindFunctionWorker_resolved (Blocks : list FunctionDef.t) (MainBlocks : BBlockArray) :
  fst (FindFunctionWorker MainBlocks Blocks) = map (resolved MainBlocks) Blocks.
Proof.
  revert MainBlocks. induction Blocks as [|block rest IH]; intros MainBlocks; simpl;
    [reflexivity|].
  destruct (FunctionDef.VirtualEnd block =? 0) eqn:Hz; simpl.
  - specialize (IH MainBlocks).
    destruct (FindFunctionWorker MainBlocks rest) as [rest' MainBlocks'']. simpl in *.
    unfold resolved at 1. rewrite Hz. congruence.
  - apply Z.eqb_neq in Hz.
    pose proof (ResolveKnownFunctionEnd_resolved MainBlocks block Hz) as Hr.
    pose proof (ResolveKnownFunctionEnd_monotone MainBlocks block) as Hm.
    destruct (ResolveKnownFunctionEnd MainBlocks block) as [[ok block'] MainBlocks'].
    simpl in Hr, Hm. specialize (IH MainBlocks').
    destruct (FindFunctionWorker MainBlocks' rest) as [rest' MainBlocks'']. simpl in *.
    rewrite Hr, IH. f_equal.
    apply map_ext. intros c. apply resolved_same_code.
    apply claimed_monotone_same_code. exact Hm.
Qed.

(** X5. [FindFunctionWorker] neither drops, adds nor reorders candidates,
    and never changes an address: the list it leaves is the list it was
    given with, position by position, the block indices of the two lookups
    filled in where the candidate has a non-zero end and both lookups
    succeed, and the candidate as it was otherwise.  A candidate whose
    lookup misses stays in the list. *)
Theorem find_function_worker_keeps_candidates (MainBlocks : BBlockArray)
    (Blocks : list FunctionDef.t) :
  fst (FindFunctionWorker MainBlocks Blocks) = map (resolved MainBlocks) Blocks
  /\ length (fst (FindFunctionWorker MainBlocks Blocks)) = length Blocks
  /\ map FunctionDef.key (fst (FindFunctionWorker MainBlocks Blocks))
     = map FunctionDef.key Blocks
  /\ length (snd (FindFunctionWorker MainBlocks Blocks)) = length MainBlocks.
Proof.
  split; [apply FindFunctionWorker_resolved|].
  split; [rewrite FindFunctionWorker_resolved; apply length_map|].
  split; [apply FindFunctionWorker_keys|].
  apply claimed_monotone_length, FindFunctionWorker_monotone.
Qed.

(** X6. When every candidate of the list has a zero end or an address that
    no block holds, [FindFunctionWorker] is the identity: the candidates and
    all the blocks are as they were. *)
Theorem find_function_worker_without_resolution (MainBlocks : BBlockArray)
    (Blocks : list FunctionDef.t) :
  Forall (unresolvable MainBlocks) Blocks ->
  FindFunctionWorker MainBlocks Blocks = (Blocks, MainBlocks).
Proof.
  intros H. induction H as [|block rest Hb Hrest IH]; simpl; [reflexivity|].
  assert (Hstep : (if negb (FunctionDef.VirtualEnd block =? 0)
                   then let '(_, block', MainBlocks') :=
                          ResolveKnownFunctionEnd MainBlocks block in (block', MainBlocks')
                   else (block, MainBlocks)) = (block, MainBlocks)).
  { destruct (FunctionDef.VirtualEnd block =? 0) eqn:Hz; simpl; [reflexivity|].
    apply Z.eqb_neq in Hz. destruct Hb as [Hb|Hb]; [contradiction|].
    rewrite (ResolveKnownFunctionEnd_miss MainBlocks block Hb). reflexivity. }
  rewrite Hstep, IH. reflexivity.
Qed.

(** On example 1 the call-edge candidate without an end and the record's
    candidate, whose end 0x2020 no block holds, both pass through. *)
Lemma find_function_worker_without_resolution_witness :
  FindFunctionWorker example1_blocks
    [FunctionDef.mk 0x2000 0 0 0; FunctionDef.mk 0x2000 0x2020 0 0]
  = ([FunctionDef.mk 0x2000 0 0 0; FunctionDef.mk 0x2000 0x2020 0 0], example1_blocks).
Proof.
  apply find_function_worker_without_resolution.
  constructor; [left; reflexivity|].
  constructor; [right; right; reflexivity|]. constructor.
Defined.

(** ** The output of a worker *)

Lemma before_by_key (a a' b b' : FunctionDef.t) :
  FunctionDef.key a' = FunctionDef.key a -> FunctionDef.key b' = FunctionDef.key b ->
  before a b -> before a' b'.
Proof.
  unfold before. rewrite !ltb_spec, !key_eq. intros [-> ->] [-> ->]. auto.
Qed.

Lemma sorted_by_keys (l l' : list FunctionDef.t) :
  map FunctionDef.key l' = map FunctionDef.key l ->
  StronglySorted before l -> StronglySorted before l'.
Proof.
  intros Hk Hs. revert l' Hk.
  induction Hs as [|a l Hl IH Ha]; intros l' Hk; destruct l' as [|a' l']; simpl in Hk;
    try discriminate; [constructor|].
  assert (Hka : FunctionDef.key a' = FunctionDef.key a) by congruence.
  assert (Hkl : map FunctionDef.key l' = map FunctionDef.key l) by congruence.
  clear Hk. constructor; [apply IH; exact Hkl|].
  rewrite Forall_forall in *. intros y' Hy'.
  destruct (key_member_transfer l' l y' (eq_sym Hkl) Hy') as (y & Hy & Hky).
  apply (before_by_key a a' y y'); [exact Hka | congruence | apply Ha; exact Hy].
Qed.

Lemma sorted_keys_NoDup (l : list FunctionDef.t) :
  StronglySorted before l -> NoDup (map FunctionDef.key l).
Proof.
  intros Hs. induction Hs as [|a l Hl IH Ha]; simpl; constructor; [|exact IH].
  intros Hin. apply in_map_iff in Hin. destruct Hin as (y & Hk & Hy).
  rewrite Forall_forall in Ha. apply (before_key_neq _ _ (Ha y Hy)). congruence.
Qed.

(** X8. The list a worker returns is in strictly ascending order of
    (VirtualStart, VirtualEnd), so no address pair occurs in it twice: the
    sort and the erasure of duplicates of step 3 survive the boundary
    resolution of step 4, which rewrites block indices only. *)
Theorem worker_output_strictly_sorted (p : FunctionPass) (MainBlocks MainBlocks' : BBlockArray)
    (Start End : Z) (Blocks out : list FunctionDef.t) :
  AnalysisWorker p MainBlocks Start End Blocks = Some (out, MainBlocks') ->
  StronglySorted before out /\ NoDup (map FunctionDef.key out).
Proof.
  intros H. unfold AnalysisWorker, bind in H.
  destruct (FindFunctionWorkerPrepass p MainBlocks Start End Blocks); [|discriminate].
  destruct (scan_calls p MainBlocks Start End _) as [st|]; [|discriminate].
  injection H as H.
  assert (Hs : StronglySorted before out).
  { apply (sorted_by_keys (std_unique (std_sort (st_Blocks st)))).
    - pose proof (FindFunctionWorker_keys (std_unique (std_sort (st_Blocks st))) MainBlocks)
        as Hk.
      rewrite H in Hk. exact Hk.
    - apply std_unique_sorted, std_sort_sorted. }
  split; [exact Hs | apply sorted_keys_NoDup; exact Hs].
Qed.

(** The single shard of example 1: the call-edge candidate comes before the
    record's. *)
Lemma worker_output_strictly_sorted_witness :
  exists out MainBlocks',
    AnalysisWorker (example1_pass 1) example1_blocks 0 2 [] = Some (out, MainBlocks')
    /\ map FunctionDef.key out = [(0x2000, 0x2000); (0x2000, 0x2020)]
    /\ StronglySorted before out.
Proof.
  eexists. eexists. split; [reflexivity|]. split; [reflexivity|].
  exact (proj1 (worker_output_strictly_sorted (example1_pass 1) example1_blocks _ 0 2 [] _
                  eq_refl)).
Defined.

(** ** Where the candidates of a run come from *)

Lemma unique_after_incl (kept y : FunctionDef.t) (l : list FunctionDef.t) :
  In y (unique_after kept l) -> In y l.
Proof.
  revert kept. induction l as [|x t IH]; intros kept Hy; simpl in *; [contradiction|].
  destruct (FunctionDef.eqb kept x).
  - right. eapply IH. exact Hy.
  - destruct Hy as [->|Hy]; [left; reflexivity | right; eapply IH; exact Hy].
Qed.

Lemma std_unique_incl (y : FunctionDef.t) (l : list FunctionDef.t) :
  In y (std_unique l) -> In y l.
Proof.
  destruct l as [|x t]; simpl; [auto|].
  intros [->|Hy]; [left; reflexivity | right; eapply unique_after_incl; exact Hy].
Qed.

Lemma merged_key_iff (l : list FunctionDef.t) (k : Z * Z) :
  In k (map FunctionDef.key (std_unique (std_sort l))) <-> In k (map FunctionDef.key l).
Proof.
  rewrite !in_map_iff. split.
  - intros (y & Hk & Hy). exists y. split; [exact Hk|].
    apply (Permutation_in y (std_sort_perm l)). apply std_unique_incl. exact Hy.
  - intros (c & Hk & Hc). destruct (merged_keeps_key l c Hc) as (y & Hy & Hky).
    exists y. split; [congruence | exact Hy].
Qed.

Lemma resolves_to_same_code (p : FunctionPass) (b b' : BasicBlock.t) (destination : Z) :
  same_code b b' -> resolves_to p b destination -> resolves_to p b' destination.
Proof.
  unfold same_code, resolves_to. intros (_ & _ & Ht & Hc & Hi). rewrite Hc, Hi, Ht. auto.
Qed.

Lemma Forall2_same_code_block_at (a b : BBlockArray) (i : Z) (x : BasicBlock.t) :
  Forall2 same_code a b -> block_at a i = Some x ->
  exists y, block_at b i = Some y /\ same_code x y.
Proof.
  intros H. unfold block_at. rewrite <- (Forall2_length H).
  destruct ((0 <=? i) && (i <? Z.of_nat (length a))); [|discriminate].
  generalize (Z.to_nat i) as n. clear i.
  induction H as [|u v l l' Huv Hl IH]; intros [|n] Hn; simpl in *; try discriminate.
  - inversion Hn; subst. exists v. auto.
  - apply IH. exact Hn.
Qed.

Lemma AnalysisWorker_keys_iff (p : FunctionPass) (MainBlocks MainBlocks' : BBlockArray)
    (Start End : Z) (out : list FunctionDef.t) (first last : BasicBlock.t) :
  AnalysisWorker p MainBlocks Start End [] = Some (out, MainBlocks') ->
  block_at MainBlocks Start = Some first ->
  block_at MainBlocks (wrap (End - 1)) = Some last ->
  forall k,
    In k (map FunctionDef.key out)
    <-> In k (map FunctionDef.key
                (prepass_candidates p (BasicBlock.VirtualStart first)
                                    (BasicBlock.VirtualEnd last) (function_table p)))
        \/ exists j blk destination,
             Start <= j < End /\ block_at MainBlocks j = Some blk
             /\ resolves_to p blk destination /\ k = (destination, destination).
Proof.
  intros H Hf Hl k. unfold AnalysisWorker in H.
  rewrite (prepass_exact p MainBlocks Start End [] first last Hf Hl) in H. simpl in H.
  destruct (scan_calls p MainBlocks Start End _) as [st|] eqn:Hscan; [|discriminate].
  simpl in H. injection H as H.
  pose proof (FindFunctionWorker_keys (std_unique (std_sort (st_Blocks st))) MainBlocks) as Hk.
  rewrite H in Hk. simpl in Hk. rewrite Hk, merged_key_iff.
  unfold scan_calls in Hscan.
  destruct (scan_loop_emits _ _ _ _ _ _ Hscan) as (emitted & He & _ & Hin).
  simpl in He. rewrite He, map_app, in_app_iff.
  apply or_iff_compat_l. rewrite in_map_iff. split.
  - intros (c & Hck & Hc). apply Hin in Hc.
    destruct Hc as (j & blk & d & Hj & Hb & Hd & ->).
    exists j, blk, d. split; [lia|]. split; [exact Hb|]. split; [exact Hd|].
    rewrite <- Hck. reflexivity.
  - intros (j & blk & d & Hj & Hb & Hd & ->).
    exists (call_candidate d). split; [reflexivity|]. apply Hin.
    exists j, blk, d. split; [lia|]. split; [exact Hb|]. split; [exact Hd | reflexivity].
Qed.

Lemma run_shards_length (p : FunctionPass) (n : nat) (i : Z)
    (MainBlocks MainBlocks' : BBlockArray) (outs : list (list FunctionDef.t)) :
  run_shards p n i MainBlocks = Some (outs, MainBlocks') -> length outs = n.
Proof.
  revert i MainBlocks MainBlocks' outs.
  induction n as [|n IH]; intros i MainBlocks MainBlocks' outs H; simpl in H.
  - inversion H. reflexivity.
  - unfold bind in H.
    destruct (AnalysisWorker p MainBlocks _ _ []) as [[out MB1]|]; [|discriminate].
    destruct (run_shards p n (i + 1) MB1) as [[others MB2]|] eqn:Hr; [|discriminate].
    inversion H; subst. simpl. f_equal. eapply IH. exact Hr.
Qed.

(** The address pairs of the merged list of a run, shard by shard. *)
Lemma Analyse_keys_iff (p : FunctionPass) (MainBlocks : BBlockArray) (table : FunctionTable)
    (r : AnalyseResult) :
  let N := Z.of_nat (length MainBlocks) in
  Analyse p MainBlocks table = Some r ->
  forall k,
    In k (map FunctionDef.key (funcs r))
    <-> exists i first last,
          0 <= i < IdealThreadCount p
          /\ block_at MainBlocks (threadWorkStart p N i) = Some first
          /\ block_at MainBlocks (wrap (threadWorkStop p N i - 1)) = Some last
          /\ (In k (map FunctionDef.key
                      (prepass_candidates p (BasicBlock.VirtualStart first)
                                          (BasicBlock.VirtualEnd last) (function_table p)))
              \/ exists j blk destination,
                   threadWorkStart p N i <= j < threadWorkStop p N i
                   /\ block_at MainBlocks j = Some blk
                   /\ resolves_to p blk destination /\ k = (destination, destination)).
Proof.
  intros N H k.
  destruct (Analyse_inv _ _ _ _ H) as (_ & Hrun & Hfuncs & _).
  rewrite Hfuncs, merged_key_iff.
  assert (Hshard : forall j, (j < Z.to_nat (IdealThreadCount p))%nat ->
            exists MBj out MBj' first last first' last',
              Forall2 same_code MainBlocks MBj
              /\ AnalysisWorker p MBj (threadWorkStart p N (Z.of_nat j))
                   (threadWorkStop p N (Z.of_nat j)) [] = Some (out, MBj')
              /\ nth_error (threadFunctions r) j = Some out
              /\ block_at MainBlocks (threadWorkStart p N (Z.of_nat j)) = Some first
              /\ block_at MainBlocks (wrap (threadWorkStop p N (Z.of_nat j) - 1)) = Some last
              /\ block_at MBj (threadWorkStart p N (Z.of_nat j)) = Some first'
              /\ block_at MBj (wrap (threadWorkStop p N (Z.of_nat j) - 1)) = Some last'
              /\ same_code first first' /\ same_code last last').
  { intros j Hj.
    destruct (run_shards_nth _ _ _ _ _ _ j Hrun Hj) as (MBj & out & MBj' & Hm & Hw & Hn).
    rewrite (claimed_monotone_length _ _ Hm) in Hw. fold N in Hw. simpl in Hw.
    pose proof (claimed_monotone_same_code _ _ Hm) as Hsc.
    pose proof (AnalysisWorker_reads_in_bounds _ _ _ _ _ _ _ Hw) as [Hb1 Hb2].
    destruct (block_at MBj (threadWorkStart p N (Z.of_nat j))) as [first'|] eqn:Hf';
      [|congruence].
    destruct (block_at MBj (wrap (threadWorkStop p N (Z.of_nat j) - 1))) as [last'|] eqn:Hl';
      [|congruence].
    destruct (Forall2_same_code_block_at _ _ _ _ (Forall2_same_code_sym _ _ Hsc) Hf')
      as (first & Hf & Hsf).
    destruct (Forall2_same_code_block_at _ _ _ _ (Forall2_same_code_sym _ _ Hsc) Hl')
      as (last & Hl & Hsl).
    exists MBj, out, MBj', first, last, first', last'.
    repeat (split; [first [assumption | apply same_code_sym; assumption]|]).
    apply same_code_sym. assumption. }
  split.
  - intros Hk. apply in_map_iff in Hk. destruct Hk as (c & Hck & Hc).
    apply in_concat in Hc. destruct Hc as (out & Hout & Hc).
    apply In_nth_error in Hout. destruct Hout as [j Hj].
    assert (Hjn : (j < Z.to_nat (IdealThreadCount p))%nat).
    { rewrite <- (run_shards_length _ _ _ _ _ _ Hrun). apply nth_error_Some. congruence. }
    destruct (Hshard j Hjn)
      as (MBj & out' & MBj' & first & last & first' & last'
          & Hsc & Hw & Hn & Hf & Hl & Hf' & Hl' & Hsf & Hsl).
    assert (out' = out) by congruence. subst out'.
    exists (Z.of_nat j), first, last.
    split; [lia|]. split; [exact Hf|]. split; [exact Hl|].
    pose proof (proj1 (AnalysisWorker_keys_iff _ _ _ _ _ _ _ _ Hw Hf' Hl' k)
                  ltac:(rewrite <- Hck; apply in_map; exact Hc)) as Hor.
    destruct Hsf as (Hfs & _). destruct Hsl as (_ & Hle & _).
    rewrite Hfs, Hle in Hor.
    destruct Hor as [Hp | (jj & blk & d & Hjj & Hb & Hd & Hkd)]; [left; exact Hp|].
    right.
    destruct (Forall2_same_code_block_at _ _ _ _ (Forall2_same_code_sym _ _ Hsc) Hb)
      as (blk0 & Hb0 & Hs0).
    exists jj, blk0, d. split; [exact Hjj|]. split; [exact Hb0|].
    split; [eapply resolves_to_same_code; eassumption | exact Hkd].
  - intros (i & first & last & Hi & Hf & Hl & Hor).
    destruct (Hshard (Z.to_nat i) ltac:(lia))
      as (MBj & out & MBj' & first0 & last0 & first' & last'
          & Hsc & Hw & Hn & Hf0 & Hl0 & Hf' & Hl' & Hsf & Hsl).
    replace (Z.of_nat (Z.to_nat i)) with i in * by lia.
    assert (first0 = first) by congruence. assert (last0 = last) by congruence.
    subst first0 last0.
    assert (Hk : In k (map FunctionDef.key out)).
    { apply (AnalysisWorker_keys_iff _ _ _ _ _ _ _ _ Hw Hf' Hl' k).
      destruct Hsf as (Hfs & _). destruct Hsl as (_ & Hle & _). rewrite Hfs, Hle.
      destruct Hor as [Hp | (jj & blk & d & Hjj & Hb & Hd & Hkd)]; [left; exact Hp|].
      right. destruct (Forall2_same_code_block_at _ _ _ _ Hsc Hb) as (blk' & Hb' & Hs').
      exists jj, blk', d. split; [exact Hjj|]. split; [exact Hb'|].
      split; [eapply resolves_to_same_code; eassumption | exact Hkd]. }
    apply in_map_iff in Hk. destruct Hk as (c & Hck & Hc).
    apply in_map_iff. exists c. split; [exact Hck|].
    apply in_concat. exists out. split; [eapply nth_error_In; exact Hn | exact Hc].
Qed.

(** ** What a run commits *)

Lemma shard_blocks_of_run (p : FunctionPass) (MainBlocks : BBlockArray) (table : FunctionTable)
    (r : AnalyseResult) (i : Z) :
  let N := Z.of_nat (length MainBlocks) in
  Analyse p MainBlocks table = Some r -> 0 <= i < IdealThreadCount p ->
  exists first last,
    block_at MainBlocks (threadWorkStart p N i) = Some first
    /\ block_at MainBlocks (wrap (threadWorkStop p N i - 1)) = Some last.
Proof.
  intros N H Hi.
  destruct (Analyse_inv _ _ _ _ H) as (_ & Hrun & _).
  destruct (run_shards_nth _ _ _ _ _ _ (Z.to_nat i) Hrun ltac:(lia))
    as (MBj & out & MBj' & Hm & Hw & _).
  pose proof (claimed_monotone_length _ _ Hm) as Hlen.
  rewrite Hlen in Hw. fold N in Hw.
  replace (0 + Z.of_nat (Z.to_nat i)) with i in Hw by lia.
  apply AnalysisWorker_reads_in_bounds in Hw.
  apply (prepass_reads_in_bounds_length MBj MainBlocks) in Hw; [|exact Hlen].
  destruct Hw as [H1 H2].
  destruct (block_at MainBlocks (threadWorkStart p N i)) as [first|]; [|congruence].
  destruct (block_at MainBlocks (wrap (threadWorkStop p N i - 1))) as [last|]; [|congruence].
  eauto.
Qed.

Lemma call_edge_in_merged (p : FunctionPass) (MainBlocks : BBlockArray) (table : FunctionTable)
    (r : AnalyseResult) (j : Z) (blk : BasicBlock.t) (destination : Z) :
  1 <= IdealThreadCount p <= vector_max_size ->
  Z.of_nat (length MainBlocks) <= vector_max_size ->
  Analyse p MainBlocks table = Some r ->
  block_at MainBlocks j = Some blk -> resolves_to p blk destination ->
  In (destination, destination) (map FunctionDef.key (funcs r)).
Proof.
  intros HT HN H Hb Hd.
  assert (Hj : 0 <= j < Z.of_nat (length MainBlocks))
    by (apply block_at_in_bounds; congruence).
  destruct (in_shard_exists p (Z.of_nat (length MainBlocks))
              ltac:(lia) ltac:(lia) ltac:(lia) HN j Hj) as (i & Hi & Hin).
  destruct (shard_blocks_of_run p MainBlocks table r i H Hi) as (first & last & Hf & Hl).
  apply (Analyse_keys_iff p MainBlocks table r H).
  exists i, first, last. split; [exact Hi|]. split; [exact Hf|]. split; [exact Hl|].
  right. exists j, blk, destination. split; [exact Hin|]. auto.
Qed.

(** X9. Every call edge is committed.  If a run over at most 2^63 - 1
    blocks with a thread count from 1 to 2^63 - 1 completes, then for each
    block flagged CALL whose destination (the [Target], or for an indirect
    call the readable value read at [Target]) passes [ValidateAddress], the
    function table holds an auto-discovered entry that starts at the
    destination, whichever shard the block falls into. *)
Theorem call_edges_are_committed (p : FunctionPass) (MainBlocks : BBlockArray)
    (table : FunctionTable) (r : AnalyseResult) (j : Z) (blk : BasicBlock.t)
    (destination : Z) :
  1 <= IdealThreadCount p <= vector_max_size ->
  Z.of_nat (length MainBlocks) <= vector_max_size ->
  Analyse p MainBlocks table = Some r ->
  block_at MainBlocks j = Some blk -> resolves_to p blk destination ->
  exists e, In e (table_after r)
            /\ fn_Start e = destination /\ fn_AutoDiscovered e = true.
Proof.
  intros HT HN H Hb Hd.
  pose proof (call_edge_in_merged p MainBlocks table r j blk destination HT HN H Hb Hd) as Hk.
  apply in_map_iff in Hk. destruct Hk as (c & Hck & Hc).
  destruct (Analyse_inv _ _ _ _ H) as (_ & _ & _ & Htable & _).
  exists (entry_of c). rewrite Htable, commit_map.
  split; [apply in_map; exact Hc|].
  unfold FunctionDef.key in Hck. injection Hck as Hs _. simpl. auto.
Qed.

(** The indirect call through the cell at 0x3000 and the direct call to
    0x1000 are both committed. *)
Lemma call_edges_are_committed_witness :
  exists r,
    Analyse indirect_pass indirect_blocks [] = Some r
    /\ (exists e, In e (table_after r) /\ fn_Start e = 0x4000 /\ fn_AutoDiscovered e = true)
    /\ (exists e, In e (table_after r) /\ fn_Start e = 0x1000 /\ fn_AutoDiscovered e = true).
Proof.
  assert (HT : 1 <= IdealThreadCount indirect_pass <= vector_max_size)
    by (rewrite vector_max_size_value; simpl; lia).
  assert (HN : Z.of_nat (length indirect_blocks) <= vector_max_size)
    by (rewrite vector_max_size_value; simpl; lia).
  eexists. split; [reflexivity|]. split.
  - refine (call_edges_are_committed indirect_pass indirect_blocks [] _ 0 indirect_I0 0x4000
              HT HN eq_refl eq_refl _).
    unfold resolves_to. simpl. auto.
  - refine (call_edges_are_committed indirect_pass indirect_blocks [] _ 3 indirect_I3 0x1000
              HT HN eq_refl eq_refl _).
    unfold resolves_to. simpl. auto.
Defined.

Lemma table_entry_origin (p : FunctionPass) (MainBlocks : BBlockArray) (table : FunctionTable)
    (r : AnalyseResult) (e : FunctionEntry) :
  let N := Z.of_nat (length MainBlocks) in
  Analyse p MainBlocks table = Some r -> In e (table_after r) ->
  fn_AutoDiscovered e = true
  /\ ((exists Function i first last,
         In Function (function_table p)
         /\ 0 <= i < IdealThreadCount p
         /\ block_at MainBlocks (threadWorkStart p N i) = Some first
         /\ block_at MainBlocks (wrap (threadWorkStop p N i - 1)) = Some last
         /\ BasicBlock.VirtualStart first <= fn_Start e < BasicBlock.VirtualEnd last
         /\ fn_Start e = wrap (m_ModuleStart p + BeginAddress Function)
         /\ fn_End e = wrap (wrap (m_ModuleStart p + EndAddress Function) - 1))
      \/ (exists j blk,
            block_at MainBlocks j = Some blk /\ resolves_to p blk (fn_Start e))).
Proof.
  intros N H He.
  destruct (Analyse_inv _ _ _ _ H) as (_ & _ & _ & Htable & _).
  rewrite Htable, commit_map in He. apply in_map_iff in He. destruct He as (c & <- & Hc).
  split; [reflexivity|].
  pose proof (proj1 (Analyse_keys_iff p MainBlocks table r H (FunctionDef.key c))
                (in_map _ _ _ Hc)) as (i & first & last & Hi & Hf & Hl & Hor).
  destruct Hor as [Hp | (j & blk & d & Hj & Hb & Hd & Hk)].
  - left. apply in_map_iff in Hp. destruct Hp as (c' & Hk & Hc').
    unfold prepass_candidates in Hc'. apply in_map_iff in Hc'.
    destruct Hc' as (F & <- & HF). apply filter_In in HF. destruct HF as [HF Hw].
    unfold record_in_window in Hw. apply andb_true_iff in Hw. destruct Hw as [H1 H2].
    apply Z.leb_le in H1. apply Z.ltb_lt in H2.
    apply key_eq in Hk. simpl in Hk. destruct Hk as [Hks Hke].
    exists F, i, first, last. simpl. rewrite <- Hks, <- Hke. auto 10.
  - right. unfold FunctionDef.key in Hk. injection Hk as Hks Hke.
    exists j, blk. simpl. rewrite Hks. auto.
Qed.

(** X10. A run commits nothing it did not find.  Every entry of the
    function table after a run is tagged auto-discovered and either stems
    from a record of the table whose begin lies in the address window of
    some shard (entry = [begin, end - 1], both relative to the module base)
    or starts at the destination of a CALL block that resolved and passed
    [ValidateAddress]. *)
Theorem committed_entries_have_an_origin (p : FunctionPass) (MainBlocks : BBlockArray)
    (table : FunctionTable) (r : AnalyseResult) (e : FunctionEntry) :
  let N := Z.of_nat (length MainBlocks) in
  Analyse p MainBlocks table = Some r -> In e (table_after r) ->
  fn_AutoDiscovered e = true
  /\ ((exists Function i first last,
         In Function (function_table p)
         /\ 0 <= i < IdealThreadCount p
         /\ block_at MainBlocks (threadWorkStart p N i) = Some first
         /\ block_at MainBlocks (wrap (threadWorkStop p N i - 1)) = Some last
         /\ BasicBlock.VirtualStart first <= fn_Start e < BasicBlock.VirtualEnd last
         /\ fn_Start e = wrap (m_ModuleStart p + BeginAddress Function)
         /\ fn_End e = wrap (wrap (m_ModuleStart p + EndAddress Function) - 1))
      \/ (exists j blk,
            block_at MainBlocks j = Some blk /\ resolves_to p blk (fn_Start e))).
Proof. exact (table_entry_origin p MainBlocks table r e). Qed.

(** On example 1 the entry [0x2000, 0x201F] stems from the record. *)
Lemma committed_entries_have_an_origin_witness :
  exists r,
    Analyse (example1_pass 2) example1_blocks [] = Some r
    /\ In example1_function (table_after r)
    /\ fn_AutoDiscovered example1_function = true.
Proof.
  eexists. split; [reflexivity|].
  assert (Hin : In example1_function
                   (table_after
                      {| returned := true;
                         table_after :=
                           [{| fn_Start := 0x2000; fn_End := 0x1FFF; fn_AutoDiscovered := true |};
                            example1_function];
                         blocks_after := example1_blocks;
                         threadFunctions :=
                           [[FunctionDef.mk 0x2000 0x2000 1 1]; [FunctionDef.mk 0x2000 0x2020 0 0]];
                         funcs := [FunctionDef.mk 0x2000 0x2000 1 1;
                                   FunctionDef.mk 0x2000 0x2020 0 0] |}))
    by (simpl; auto).
  split; [exact Hin|].
  exact (proj1 (committed_entries_have_an_origin (example1_pass 2) example1_blocks [] _
                  example1_function eq_refl Hin)).
Defined.

(** X11. For a thread count from 1 to 2^63 - 1 and at most 2^63 - 1 blocks,
    a run completes exactly when no shard is empty, that is when
    [ceil(N/T) * (T - 1) < N].  It then returns true, leaves the number of
    blocks unchanged and returns one candidate list per thread.  Otherwise,
    in particular with no block at all or with more threads than blocks, it
    reads a block outside the sequence. *)
Theorem run_completes_iff_no_shard_empty (p : FunctionPass) (MainBlocks : BBlockArray)
    (table : FunctionTable) :
  let N := Z.of_nat (length MainBlocks) in
  let T := IdealThreadCount p in
  1 <= T <= vector_max_size -> N <= vector_max_size ->
  (workAmount p N * (T - 1) < N ->
   exists r, Analyse p MainBlocks table = Some r
             /\ returned r = true
             /\ length (blocks_after r) = length MainBlocks
             /\ Z.of_nat (length (threadFunctions r)) = T)
  /\ (N <= workAmount p N * (T - 1) -> Analyse p MainBlocks table = None)
  /\ (N < T -> Analyse p MainBlocks table = None).
Proof.
  intros N T HT HN.
  pose proof (Analyse_defined_iff p MainBlocks table HT HN) as Hiff.
  assert (Hnone : N <= workAmount p N * (T - 1) -> Analyse p MainBlocks table = None).
  { intros Hge. destruct (Analyse p MainBlocks table) as [r|] eqn:Hr; [|reflexivity].
    exfalso. destruct (Analyse_inv _ _ _ _ Hr) as (_ & _ & _ & _ & Hret).
    assert (Hlt : workAmount p N * (T - 1) < N) by (apply Hiff; eauto). lia. }
  split; [|split; [exact Hnone|]].
  - intros Hlt. apply Hiff in Hlt. destruct Hlt as (r & Hr & Hret).
    exists r. split; [exact Hr|]. split; [exact Hret|].
    destruct (Analyse_inv _ _ _ _ Hr) as (_ & Hrun & _).
    split.
    + apply claimed_monotone_length. eapply run_shards_monotone. exact Hrun.
    + rewrite (run_shards_length _ _ _ _ _ _ Hrun). subst T. lia.
  - intros Hlt. apply Hnone.
    assert (N_nonneg : 0 <= N) by (subst N; lia).
    pose proof (workAmount_bounds p N ltac:(lia) ltac:(lia) N_nonneg HN) as Hb.
    pose proof (workAmount_nonneg p N ltac:(lia) ltac:(lia) N_nonneg HN) as Hw.
    fold T in Hb. destruct (Z.eq_dec N 0) as [H0|H0]; [nia|].
    pose proof (workAmount_pos p N ltac:(lia) ltac:(lia) N_nonneg HN ltac:(lia)). nia.
Qed.

(** Four blocks: two threads complete, three do not. *)
Lemma run_completes_iff_no_shard_empty_witness :
  (exists r, Analyse (four_blocks_pass 2) four_blocks [] = Some r
             /\ returned r = true
             /\ length (blocks_after r) = 4%nat
             /\ Z.of_nat (length (threadFunctions r)) = 2)
  /\ Analyse (four_blocks_pass 3) four_blocks [] = None.
Proof.
  assert (HN : Z.of_nat (length four_blocks) <= vector_max_size)
    by (rewrite vector_max_size_value; simpl; lia).
  assert (HT2 : 1 <= IdealThreadCount (four_blocks_pass 2) <= vector_max_size)
    by (rewrite vector_max_size_value; simpl; lia).
  assert (HT3 : 1 <= IdealThreadCount (four_blocks_pass 3) <= vector_max_size)
    by (rewrite vector_max_size_value; simpl; lia).
  split.
  - apply (proj1 (run_completes_iff_no_shard_empty (four_blocks_pass 2) four_blocks []
                    HT2 HN)).
    vm_compute. reflexivity.
  - apply (proj1 (proj2 (run_completes_iff_no_shard_empty (four_blocks_pass 3) four_blocks []
                           HT3 HN))).
    vm_compute. intros Hc. discriminate Hc.
Defined.

(** X12. A run never changes the last block of the sequence: boundary
    resolution marks the blocks from the one holding a candidate's start up
    to, and without, the one holding its end, and the end lies in a block of
    the sequence or nowhere.  A function that reaches the end of the analysed
    blocks therefore leaves its last block unclaimed. *)
Theorem last_block_is_never_claimed (p : FunctionPass) (MainBlocks : BBlockArray)
    (table : FunctionTable) (r : AnalyseResult) (b : BasicBlock.t) :
  Analyse p MainBlocks table = Some r ->
  block_at MainBlocks (last_index MainBlocks) = Some b ->
  block_at (blocks_after r) (last_index MainBlocks) = Some b.
Proof.
  intros H Hb. rewrite (Analyse_last_block p MainBlocks table r H). exact Hb.
Qed.

(** On the three blocks the record's function fills block 1 and is marked
    there; a record that covers blocks 1 and 2 would still leave block 2, the
    last one, as it is. *)
Lemma last_block_is_never_claimed_witness :
  exists r,
    Analyse (three_blocks_pass 1) three_blocks [] = Some r
    /\ block_at (blocks_after r) 2 = Some example1_B3
    /\ block_at (blocks_after r) 1 = Some (SetFlag example1_B2 BASIC_BLOCK_FLAG_FUNCTION).
Proof.
  eexists. split; [reflexivity|]. split; [|reflexivity].
  exact (last_block_is_never_claimed (three_blocks_pass 1) three_blocks [] _ example1_B3
           eq_refl eq_refl).
Defined.

Lemma table_unavailable_None (c : Collaborators) (ModuleStart : Z) :
  table_unavailable c ModuleStart -> load_function_table c ModuleStart = None.
Proof.
  unfold table_unavailable, load_function_table.
  intros [H | [H | [(size & H) | (off & size & H & Ha)]]].
  - subst. reflexivity.
  - destruct (negb (ModuleStart =? 0)); [|reflexivity]. rewrite H. reflexivity.
  - destruct (negb (ModuleStart =? 0)); [|reflexivity]. rewrite H. reflexivity.
  - destruct (negb (ModuleStart =? 0)); [|reflexivity]. rewrite H.
    destruct (negb (off =? 0)); [|reflexivity]. rewrite Ha. reflexivity.
Qed.

(** X13. Degraded mode.  When the analysed range lies in no module, the
    module's image cannot be mapped, its exception directory has offset 0,
    or the buffer cannot be allocated, the constructed pass holds no table;
    a run of it then commits call edges only: every entry of the function
    table starts at the destination of a CALL block that resolved and
    passed [ValidateAddress]. *)
Theorem degraded_mode_commits_call_edges_only (c : Collaborators)
    (VirtualStart VirtualEnd threads : Z) (read : Z -> option Z) (readable : Z -> bool)
    (MainBlocks : BBlockArray) (table : FunctionTable) (r : AnalyseResult) :
  let p := FunctionPass_new c VirtualStart VirtualEnd threads read readable in
  table_unavailable c (ModBaseFromAddr c VirtualStart) ->
  m_FunctionInfo p = None
  /\ (Analyse p MainBlocks table = Some r ->
      forall e, In e (table_after r) ->
        exists j blk, block_at MainBlocks j = Some blk /\ resolves_to p blk (fn_Start e)).
Proof.
  intros p Hu.
  assert (Hnone : m_FunctionInfo p = None) by (apply table_unavailable_None; exact Hu).
  split; [exact Hnone|].
  intros H e He.
  destruct (table_entry_origin p MainBlocks table r e H He) as (_ & [Hrec | Hcall]).
  - destruct Hrec as (F & _ & _ & _ & HF & _). unfold function_table in HF.
    rewrite Hnone in HF. contradiction.
  - exact Hcall.
Qed.

(** A range in no module, and a module without exception directory: the
    four calls commit the two destinations and nothing else. *)
Lemma degraded_mode_commits_call_edges_only_witness :
  m_FunctionInfo (FunctionPass_new no_module 0x1000 0x5000 1 indirect_memory example2_readable)
  = None
  /\ m_FunctionInfo
       (FunctionPass_new no_directory 0x1000 0x5000 1 indirect_memory example2_readable)
     = None
  /\ exists r,
       Analyse (FunctionPass_new no_directory 0x1000 0x5000 1 indirect_memory example2_readable)
               indirect_blocks [] = Some r
       /\ map fn_Start (table_after r) = [0x1000; 0x4000].
Proof.
  split; [|split].
  - refine (proj1 (degraded_mode_commits_call_edges_only no_module 0x1000 0x5000 1
                     indirect_memory example2_readable [] []
                     {| returned := true; table_after := []; blocks_after := [];
                        threadFunctions := []; funcs := [] |} _)).
    left. reflexivity.
  - refine (proj1 (degraded_mode_commits_call_edges_only no_directory 0x1000 0x5000 1
                     indirect_memory example2_readable [] []
                     {| returned := true; table_after := []; blocks_after := [];
                        threadFunctions := []; funcs := [] |} _)).
    right. right. left. exists 0. reflexivity.
  - eexists. split; reflexivity.
Defined.

(** ** Runs on blocks that carry CLAIMED flags *)

Lemma scan_block_same_code (p : FunctionPass) (b b' : BasicBlock.t) (st : ScanState) :
  same_code b b' -> scan_block p b' st = scan_block p b st.
Proof.
  unfold same_code, scan_block. intros (_ & _ & Ht & Hc & Hi). rewrite Hc, Hi, Ht. reflexivity.
Qed.

Lemma block_at_same_code_None (a b : BBlockArray) (i : Z) :
  Forall2 same_code a b -> block_at a i = None -> block_at b i = None.
Proof.
  intros H Ha. destruct (block_at b i) as [y|] eqn:Hb; [|reflexivity].
  destruct (Forall2_same_code_block_at _ _ _ _ (Forall2_same_code_sym _ _ H) Hb)
    as (x & Hx & _). congruence.
Qed.

Lemma scan_loop_same_code (p : FunctionPass) (a b : BBlockArray) (n : nat) (i : Z)
    (st : ScanState) :
  Forall2 same_code a b -> scan_loop p b n i st = scan_loop p a n i st.
Proof.
  intros H. revert i st. induction n as [|n IH]; intros i st; simpl; [reflexivity|].
  destruct (block_at a i) as [x|] eqn:Ha.
  - destruct (Forall2_same_code_block_at _ _ _ _ H Ha) as (y & Hy & Hxy).
    rewrite Hy. simpl. rewrite (scan_block_same_code p x y st Hxy). apply IH.
  - rewrite (block_at_same_code_None _ _ _ H Ha). reflexivity.
Qed.

Lemma prepass_same_code (p : FunctionPass) (a b : BBlockArray) (Start End : Z)
    (Blocks : list FunctionDef.t) :
  Forall2 same_code a b ->
  FindFunctionWorkerPrepass p b Start End Blocks
  = FindFunctionWorkerPrepass p a Start End Blocks.
Proof.
  intros H. unfold FindFunctionWorkerPrepass.
  destruct (block_at a Start) as [x|] eqn:Ha.
  - destruct (Forall2_same_code_block_at _ _ _ _ H Ha) as (y & Hy & (Hs & _)).
    rewrite Hy. simpl.
    destruct (block_at a (wrap (End - 1))) as [x'|] eqn:Ha'.
    + destruct (Forall2_same_code_block_at _ _ _ _ H Ha') as (y' & Hy' & (_ & He & _)).
      rewrite Hy'. simpl. rewrite Hs, He. reflexivity.
    + rewrite (block_at_same_code_None _ _ _ H Ha'). reflexivity.
  - rewrite (block_at_same_code_None _ _ _ H Ha). reflexivity.
Qed.

(** Two workers on arrays that differ in CLAIMED flags only: both undefined,
    or both defined with the same candidates. *)
Lemma AnalysisWorker_same_code (p : FunctionPass) (a b : BBlockArray) (Start End : Z)
    (Blocks : list FunctionDef.t) :
  Forall2 same_code a b ->
  match AnalysisWorker p a Start End Blocks, AnalysisWorker p b Start End Blocks with
  | Some (out, a'), Some (out', b') => out' = out /\ Forall2 same_code a' b'
  | None, None => True
  | _, _ => False
  end.
Proof.
  intros H. unfold AnalysisWorker.
  rewrite (prepass_same_code p a b Start End Blocks H).
  destruct (FindFunctionWorkerPrepass p a Start End Blocks) as [Blocks1|]; simpl; [|exact I].
  unfold scan_calls. rewrite (scan_loop_same_code p a b _ _ _ H).
  destruct (scan_loop p a _ Start _) as [st|]; simpl; [|exact I].
  pose proof (FindFunctionWorker_resolved (std_unique (std_sort (st_Blocks st))) a) as Ha.
  pose proof (FindFunctionWorker_resolved (std_unique (std_sort (st_Blocks st))) b) as Hb.
  pose proof (FindFunctionWorker_monotone (std_unique (std_sort (st_Blocks st))) a) as Hma.
  pose proof (FindFunctionWorker_monotone (std_unique (std_sort (st_Blocks st))) b) as Hmb.
  destruct (FindFunctionWorker a _) as [out a'].
  destruct (FindFunctionWorker b _) as [out' b']. simpl in *.
  split.
  - rewrite Ha, Hb. apply map_ext. intros c. apply resolved_same_code. exact H.
  - apply claimed_monotone_same_code in Hma. apply claimed_monotone_same_code in Hmb.
    eapply Forall2_same_code_trans; [apply Forall2_same_code_sym; exact Hma|].
    eapply Forall2_same_code_trans; [exact H | exact Hmb].
Qed.

Lemma run_shards_same_code (p : FunctionPass) (n : nat) (i : Z) (a b : BBlockArray) :
  Forall2 same_code a b ->
  match run_shards p n i a, run_shards p n i b with
  | Some (outs, a'), Some (outs', b') => outs' = outs /\ Forall2 same_code a' b'
  | None, None => True
  | _, _ => False
  end.
Proof.
  revert i a b. induction n as [|n IH]; intros i a b H; simpl; [auto|].
  rewrite <- (Forall2_length H).
  pose proof (AnalysisWorker_same_code p a b
                (threadWorkStart p (Z.of_nat (length a)) i)
                (threadWorkStop p (Z.of_nat (length a)) i) [] H) as Hw.
  destruct (AnalysisWorker p a _ _ []) as [[out a1]|];
    destruct (AnalysisWorker p b _ _ []) as [[out' b1]|]; simpl; try contradiction; [|exact I].
  destruct Hw as [-> H1].
  specialize (IH (i + 1) a1 b1 H1).
  destruct (run_shards p n (i + 1) a1) as [[others a2]|];
    destruct (run_shards p n (i + 1) b1) as [[others' b2]|]; simpl; try contradiction;
    [|exact I].
  destruct IH as [-> H2]. auto.
Qed.

(** X14. Discovery does not look at the CLAIMED flag.  On two block
    sequences that agree block by block on the addresses, the target and
    the CALL and INDIRPTR flags, and starting from any two function tables,
    a run is undefined on both or completes on both with the same per-shard
    candidate lists, the same merged list and the same function table. *)
Theorem discovery_ignores_claimed_flags (p : FunctionPass) (a b : BBlockArray)
    (table table' : FunctionTable) :
  Forall2 same_code a b ->
  match Analyse p a table, Analyse p b table' with
  | Some r, Some r' =>
      threadFunctions r' = threadFunctions r /\ funcs r' = funcs r
      /\ table_after r' = table_after r
      /\ Forall2 same_code (blocks_after r) (blocks_after r')
  | None, None => True
  | _, _ => False
  end.
Proof.
  intros H. unfold Analyse.
  destruct (IdealThreadCount p =? 0); [exact I|].
  pose proof (run_shards_same_code p (Z.to_nat (IdealThreadCount p)) 0 a b H) as Hr.
  destruct (run_shards p _ 0 a) as [[outs a']|];
    destruct (run_shards p _ 0 b) as [[outs' b']|]; simpl; try contradiction; [|exact I].
  destruct Hr as [-> Hab]. simpl.
  rewrite !commit_map. auto.
Qed.

(** The three blocks, with and without a stale CLAIMED flag on the first. *)
Lemma discovery_ignores_claimed_flags_witness :
  exists r r',
    Analyse (three_blocks_pass 2) three_blocks [] = Some r
    /\ Analyse (three_blocks_pass 2) stale_blocks [example1_function] = Some r'
    /\ table_after r' = table_after r.
Proof.
  assert (Hsame : Forall2 same_code three_blocks stale_blocks).
  { repeat constructor. }
  pose proof (discovery_ignores_claimed_flags (three_blocks_pass 2) three_blocks stale_blocks
                [] [example1_function] Hsame) as H.
  destruct (Analyse (three_blocks_pass 2) three_blocks []) as [r|] eqn:Hr;
    [|vm_compute in Hr; discriminate Hr].
  destruct (Analyse (three_blocks_pass 2) stale_blocks [example1_function]) as [r'|];
    [|contradiction].
  exists r, r'. split; [reflexivity|]. split; [reflexivity|].
  destruct H as (_ & _ & Ht & _). exact Ht.
Defined.

(** ** A second run *)

Lemma lor_absorb (x F : Z) : Z.land x F = F -> Z.lor x F = x.
Proof.
  intros H. apply Z.bits_inj'. intros n Hn.
  assert (Hb : Z.testbit (Z.land x F) n = Z.testbit F n) by (rewrite H; reflexivity).
  rewrite Z.land_spec in Hb. rewrite Z.lor_spec.
  destruct (Z.testbit x n), (Z.testbit F n); simpl in *; congruence.
Qed.

Lemma SetFlag_set (b : BasicBlock.t) (Flag : Z) : GetFlag b Flag = true -> SetFlag b Flag = b.
Proof.
  unfold GetFlag, SetFlag. intros H. apply Z.eqb_eq in H.
  rewrite (lor_absorb _ _ H). destruct b; reflexivity.
Qed.

Lemma SetFlagAt_noop (MainBlocks : BBlockArray) (i Flag : Z) :
  (forall b, block_at MainBlocks i = Some b -> GetFlag b Flag = true) ->
  SetFlagAt MainBlocks i Flag = MainBlocks.
Proof.
  intros H. unfold SetFlagAt. destruct (block_at MainBlocks i) as [b|] eqn:Hb; [|reflexivity].
  rewrite (SetFlag_set b Flag (H b eq_refl)). symmetry. apply block_at_split. exact Hb.
Qed.

Lemma mark_loop_noop (n : nat) (i : Z) (MainBlocks : BBlockArray) :
  (forall j b, i <= j < i + Z.of_nat n -> block_at MainBlocks j = Some b ->
     GetFlag b BASIC_BLOCK_FLAG_FUNCTION = true) ->
  mark_loop n i MainBlocks = MainBlocks.
Proof.
  revert i. induction n as [|n IH]; intros i H; simpl; [reflexivity|].
  rewrite SetFlagAt_noop by (intros b Hb; apply (H i b); [lia | exact Hb]).
  apply IH. intros j b Hj Hb. apply (H j b); [lia | exact Hb].
Qed.

Lemma ResolveKnownFunctionEnd_absorbed (A B : BBlockArray) (c : FunctionDef.t) :
  claimed_monotone (snd (ResolveKnownFunctionEnd A c)) B ->
  snd (ResolveKnownFunctionEnd B c) = B.
Proof.
  intros H.
  assert (HAB : claimed_monotone A B)
    by (eapply claimed_monotone_trans; [apply ResolveKnownFunctionEnd_monotone | exact H]).
  pose proof (claimed_monotone_same_code _ _ HAB) as Hsc.
  unfold ResolveKnownFunctionEnd in *.
  rewrite !(FindBBlockInRange_same_code A B) by exact Hsc.
  destruct (FindBBlockInRange A (FunctionDef.VirtualStart c)) as [s|]; [|reflexivity].
  destruct (FindBBlockInRange A (FunctionDef.VirtualEnd c)) as [e|]; [|reflexivity].
  simpl in *. apply mark_loop_noop. intros j b Hj Hb.
  assert (Hjr : 0 <= j < Z.of_nat (length A)).
  { rewrite <- (claimed_monotone_length _ _ HAB). apply block_at_in_bounds. congruence. }
  destruct (block_at_Some A j Hjr) as [a Ha].
  pose proof (mark_loop_inside _ s j A a Hj Ha) as Hmarked.
  destruct (claimed_monotone_block_at _ _ _ _ H Hmarked) as (b' & Hb' & Hg).
  assert (b' = b) by congruence. subst b'.
  destruct Hg as (_ & _ & _ & _ & _ & Hf). apply Hf. apply GetFlag_SetFlag_same.
Qed.

Lemma FindFunctionWorker_absorbed (Blocks : list FunctionDef.t) (A B : BBlockArray) :
  claimed_monotone (snd (FindFunctionWorker A Blocks)) B ->
  snd (FindFunctionWorker B Blocks) = B.
Proof.
  revert A. induction Blocks as [|block rest IH]; intros A H; simpl in *; [reflexivity|].
  destruct (negb (FunctionDef.VirtualEnd block =? 0)).
  - pose proof (ResolveKnownFunctionEnd_absorbed A B block) as Hr.
    destruct (ResolveKnownFunctionEnd A block) as [[okA blockA] A1]. simpl in Hr.
    pose proof (FindFunctionWorker_monotone rest A1) as Hm.
    specialize (IH A1).
    destruct (FindFunctionWorker A1 rest) as [restA A2]. simpl in *.
    specialize (Hr (claimed_monotone_trans _ _ _ Hm H)).
    destruct (ResolveKnownFunctionEnd B block) as [[okB blockB] B1]. simpl in Hr. subst B1.
    specialize (IH H).
    destruct (FindFunctionWorker B rest) as [restB B2]. simpl in *. exact IH.
  - specialize (IH A).
    destruct (FindFunctionWorker A rest) as [restA A2]. simpl in *.
    specialize (IH H).
    destruct (FindFunctionWorker B rest) as [restB B2]. simpl in *. exact IH.
Qed.

Lemma AnalysisWorker_absorbed (p : FunctionPass) (A A' B : BBlockArray) (Start End : Z)
    (out : list FunctionDef.t) :
  AnalysisWorker p A Start End [] = Some (out, A') ->
  claimed_monotone A' B ->
  AnalysisWorker p B Start End [] = Some (out, B).
Proof.
  intros Hw HB.
  assert (HAB : claimed_monotone A B)
    by (eapply claimed_monotone_trans; [eapply AnalysisWorker_monotone; exact Hw | exact HB]).
  pose proof (claimed_monotone_same_code _ _ HAB) as Hsc.
  unfold AnalysisWorker in *.
  rewrite (prepass_same_code p A B Start End [] Hsc).
  destruct (FindFunctionWorkerPrepass p A Start End []) as [Blocks1|]; [|discriminate].
  simpl in *. unfold scan_calls in *. rewrite (scan_loop_same_code p A B _ _ _ Hsc).
  destruct (scan_loop p A _ Start _) as [st|]; [|discriminate].
  simpl in *. injection Hw as Hw.
  pose proof (FindFunctionWorker_resolved (std_unique (std_sort (st_Blocks st))) A) as Ha.
  pose proof (FindFunctionWorker_resolved (std_unique (std_sort (st_Blocks st))) B) as Hb.
  pose proof (FindFunctionWorker_absorbed (std_unique (std_sort (st_Blocks st))) A B) as Habs.
  rewrite Hw in Ha, Habs. simpl in Ha, Habs. specialize (Habs HB).
  destruct (FindFunctionWorker B _) as [out' B']. simpl in *. subst B'.
  f_equal. f_equal. rewrite Hb, Ha. apply map_ext. intros c.
  apply resolved_same_code. exact Hsc.
Qed.

Lemma run_shards_absorbed (p : FunctionPass) (n : nat) (i : Z) (A A' B : BBlockArray)
    (outs : list (list FunctionDef.t)) :
  run_shards p n i A = Some (outs, A') ->
  claimed_monotone A' B ->
  run_shards p n i B = Some (outs, B).
Proof.
  revert i A A' outs. induction n as [|n IH]; intros i A A' outs H HB; simpl in *.
  - inversion H. reflexivity.
  - unfold bind in H.
    destruct (AnalysisWorker p A _ _ []) as [[out A1]|] eqn:Hw; [|discriminate].
    destruct (run_shards p n (i + 1) A1) as [[others A2]|] eqn:Hr; [|discriminate].
    inversion H; subst. clear H.
    pose proof (run_shards_monotone _ _ _ _ _ _ Hr) as Hm.
    pose proof (AnalysisWorker_monotone _ _ _ _ _ _ _ Hw) as Hm1.
    assert (Hlen : length B = length A).
    { rewrite (claimed_monotone_length _ _ HB), (claimed_monotone_length _ _ Hm).
      apply (claimed_monotone_length _ _ Hm1). }
    rewrite Hlen.
    rewrite (AnalysisWorker_absorbed p A A1 B _ _ out Hw (claimed_monotone_trans _ _ _ Hm HB)).
    simpl. rewrite (IH _ _ _ _ Hr HB). reflexivity.
Qed.

(** X15. A run is idempotent.  A second run on the blocks the first one
    left, whatever the function table holds by then, completes with the
    result of the first: the same per-shard lists, the same merged list, the
    same function table, and no block changed, as every block it would mark
    is CLAIMED already. *)
Theorem second_run_changes_nothing (p : FunctionPass) (MainBlocks : BBlockArray)
    (table table' : FunctionTable) (r : AnalyseResult) :
  Analyse p MainBlocks table = Some r ->
  Analyse p (blocks_after r) table' = Some r.
Proof.
  intros H. destruct (Analyse_inv _ _ _ _ H) as (HT & Hrun & Hfuncs & Htable & Hret).
  unfold Analyse.
  replace (IdealThreadCount p =? 0) with false by (symmetry; apply Z.eqb_neq; exact HT).
  rewrite (run_shards_absorbed _ _ _ _ _ _ _ Hrun (claimed_monotone_refl _)). simpl.
  rewrite commit_map. rewrite commit_map in Htable.
  destruct r as [ret tab blk tf fs]. simpl in *. subst. reflexivity.
Qed.

(** The three blocks on two threads: the first run claims block 1, the
    second finds it claimed and leaves everything as it is. *)
Lemma second_run_changes_nothing_witness :
  exists r,
    Analyse (three_blocks_pass 2) three_blocks [] = Some r
    /\ block_at (blocks_after r) 1 = Some (SetFlag example1_B2 BASIC_BLOCK_FLAG_FUNCTION)
    /\ Analyse (three_blocks_pass 2) (blocks_after r) (table_after r) = Some r.
Proof.
  eexists. split; [reflexivity|]. split; [reflexivity|].
  exact (second_run_changes_nothing (three_blocks_pass 2) three_blocks [] _ _ eq_refl).
Defined.

(** ** Contiguous blocks and the thread count *)

Lemma boundary_start (MainBlocks : BBlockArray) (k : Z) (b : BasicBlock.t) :
  block_at MainBlocks k = Some b -> boundary MainBlocks k = BasicBlock.VirtualStart b.
Proof. intros H. unfold boundary. rewrite H. reflexivity. Qed.

Lemma boundary_end (MainBlocks : BBlockArray) (k : Z) (b : BasicBlock.t) :
  contiguous MainBlocks -> block_at MainBlocks k = Some b ->
  boundary MainBlocks (k + 1) = BasicBlock.VirtualEnd b.
Proof.
  intros [_ Hadj] H. unfold boundary.
  destruct (block_at MainBlocks (k + 1)) as [b'|] eqn:Hn.
  - symmetry. apply (Hadj k b b' H Hn).
  - replace (k + 1 - 1) with k by lia. rewrite H. reflexivity.
Qed.

Lemma boundary_step (MainBlocks : BBlockArray) (k : Z) :
  contiguous MainBlocks -> 0 <= k < Z.of_nat (length MainBlocks) ->
  boundary MainBlocks k <= boundary MainBlocks (k + 1).
Proof.
  intros Hc Hk. destruct (block_at_Some MainBlocks k Hk) as [b Hb].
  rewrite (boundary_start _ _ _ Hb), (boundary_end _ _ _ Hc Hb).
  destruct Hc as [Hord _]. apply (Hord k b Hb).
Qed.

Lemma boundary_mono (MainBlocks : BBlockArray) (k k' : Z) :
  contiguous MainBlocks -> 0 <= k <= k' -> k' <= Z.of_nat (length MainBlocks) ->
  boundary MainBlocks k <= boundary MainBlocks k'.
Proof.
  intros Hc Hk Hk'.
  replace k' with (k + Z.of_nat (Z.to_nat (k' - k))) in * by lia.
  generalize dependent (Z.to_nat (k' - k)). intros n. induction n as [|n IH]; intros Hk Hk'.
  - rewrite Z.add_0_r. lia.
  - specialize (IH ltac:(lia) ltac:(lia)).
    pose proof (boundary_step MainBlocks (k + Z.of_nat n) Hc ltac:(lia)) as Hs.
    replace (k + Z.of_nat (S n)) with (k + Z.of_nat n + 1) by lia. lia.
Qed.

(** A value between the first and the last term of a sequence lies between
    two consecutive terms. *)
Lemma between_consecutive (g : Z -> Z) (x : Z) (m : nat) :
  g 0 <= x < g (Z.of_nat m) ->
  exists i, 0 <= i < Z.of_nat m /\ g i <= x < g (i + 1).
Proof.
  induction m as [|m IH]; intros H; [simpl in H; lia|].
  destruct (Z_lt_le_dec x (g (Z.of_nat m))) as [Hlt|Hge].
  - destruct (IH ltac:(lia)) as (i & Hi & Hg). exists i. split; [lia | exact Hg].
  - exists (Z.of_nat m). split; [lia|].
    replace (Z.of_nat m + 1) with (Z.of_nat (S m)) by lia. lia.
Qed.

Section Windows.
Variable p : FunctionPass.
Variable MainBlocks : BBlockArray.
Let N := Z.of_nat (length MainBlocks).
Let T := IdealThreadCount p.
Let w := workAmount p N.

Hypothesis T_bounds : 1 <= T <= vector_max_size.
Hypothesis N_max : N <= vector_max_size.
Hypothesis shards_nonempty : w * (T - 1) < N.
Hypothesis blocks_contiguous : contiguous MainBlocks.

Lemma windows_w_pos : 1 <= w /\ N <= w * T /\ 1 <= N.
Proof.
  assert (N_nonneg : 0 <= N) by (subst N; lia).
  pose proof (workAmount_bounds p N ltac:(lia) ltac:(lia) N_nonneg N_max) as Hb.
  pose proof (workAmount_nonneg p N ltac:(lia) ltac:(lia) N_nonneg N_max) as Hw.
  fold w T in Hb, Hw. subst w T. nia.
Qed.

Lemma window_of_shard (i : Z) (first last : BasicBlock.t) :
  0 <= i < T ->
  block_at MainBlocks (threadWorkStart p N i) = Some first ->
  block_at MainBlocks (wrap (threadWorkStop p N i - 1)) = Some last ->
  BasicBlock.VirtualStart first = boundary MainBlocks (Z.min (w * i) N)
  /\ BasicBlock.VirtualEnd last = boundary MainBlocks (Z.min (w * (i + 1)) N).
Proof.
  intros Hi Hf Hl.
  assert (N_nonneg : 0 <= N) by (subst N; lia).
  destruct windows_w_pos as (Hw & HwT & HN).
  pose proof uint_modulus_value. pose proof vector_max_size_value.
  rewrite (threadWorkStart_eq p N ltac:(lia) ltac:(lia) N_nonneg N_max i Hi) in Hf.
  rewrite (threadWorkStop_eq p N ltac:(lia) ltac:(lia) N_nonneg N_max i Hi) in Hl.
  fold w in Hf, Hl.
  assert (Hwi : w * i < N) by (subst w T; nia).
  assert (Hstop : 1 <= Z.min (w * i + w) N <= N) by lia.
  rewrite wrap_small in Hl by lia.
  split.
  - rewrite Z.min_l by lia. symmetry. apply boundary_start. exact Hf.
  - replace (w * (i + 1)) with (w * i + w) by lia.
    replace (Z.min (w * i + w) N) with (Z.min (w * i + w) N - 1 + 1) at 1 by lia.
    symmetry. apply boundary_end; assumption.
Qed.

Lemma window_in_range (i : Z) :
  0 <= i < T ->
  boundary MainBlocks 0 <= boundary MainBlocks (Z.min (w * i) N)
  /\ boundary MainBlocks (Z.min (w * (i + 1)) N) <= boundary MainBlocks N.
Proof.
  intros Hi. destruct windows_w_pos as (Hw & HwT & HN).
  split; apply boundary_mono; try assumption; subst N; nia.
Qed.

Lemma address_in_some_window (x : Z) :
  boundary MainBlocks 0 <= x < boundary MainBlocks N ->
  exists i, 0 <= i < T
            /\ boundary MainBlocks (Z.min (w * i) N) <= x
               < boundary MainBlocks (Z.min (w * (i + 1)) N).
Proof.
  intros Hx. destruct windows_w_pos as (Hw & HwT & HN).
  destruct (between_consecutive (fun i => boundary MainBlocks (Z.min (w * i) N)) x
              (Z.to_nat T)) as (i & Hi & Hg).
  - simpl. rewrite Z.mul_0_r, Z.min_l by lia.
    replace (Z.of_nat (Z.to_nat T)) with T by lia.
    rewrite Z.min_r by lia. exact Hx.
  - exists i. split; [lia | exact Hg].
Qed.
End Windows.

Lemma Analyse_pairs_contiguous (p : FunctionPass) (MainBlocks : BBlockArray)
    (table : FunctionTable) (r : AnalyseResult) :
  1 <= IdealThreadCount p <= vector_max_size ->
  Z.of_nat (length MainBlocks) <= vector_max_size ->
  contiguous MainBlocks ->
  Analyse p MainBlocks table = Some r ->
  forall k, In k (map FunctionDef.key (funcs r)) <-> discovered_pair p MainBlocks k.
Proof.
  intros HT HN Hc H k.
  assert (Hne : workAmount p (Z.of_nat (length MainBlocks)) * (IdealThreadCount p - 1)
                < Z.of_nat (length MainBlocks)).
  { apply (Analyse_defined_iff p MainBlocks table HT HN).
    exists r. split; [exact H|]. apply (Analyse_inv _ _ _ _ H). }
  rewrite (Analyse_keys_iff p MainBlocks table r H k). unfold discovered_pair. split.
  - intros (i & first & last & Hi & Hf & Hl & [Hp | Hcall]).
    + left. apply in_map_iff in Hp. destruct Hp as (c & Hk & Hc').
      unfold prepass_candidates in Hc'. apply in_map_iff in Hc'.
      destruct Hc' as (F & <- & HF). apply filter_In in HF. destruct HF as [HF Hw].
      unfold record_in_window in Hw. apply andb_true_iff in Hw. destruct Hw as [H1 H2].
      apply Z.leb_le in H1. apply Z.ltb_lt in H2.
      destruct (window_of_shard p MainBlocks HT HN Hne Hc i first last Hi Hf Hl) as [Hs He].
      destruct (window_in_range p MainBlocks HT HN Hne Hc i Hi) as [Hlo Hhi].
      exists F. split; [exact HF|]. split; [lia | congruence].
    + right. destruct Hcall as (j & blk & d & _ & Hb & Hd & Hk).
      exists j, blk, d. auto.
  - intros [(F & HF & Hx & Hk) | (j & blk & d & Hb & Hd & Hk)].
    + destruct (address_in_some_window p MainBlocks HT HN Hne _ Hx) as (i & Hi & Hw).
      destruct (shard_blocks_of_run p MainBlocks table r i H Hi) as (first & last & Hf & Hl).
      destruct (window_of_shard p MainBlocks HT HN Hne Hc i first last Hi Hf Hl) as [Hs He].
      exists i, first, last. split; [exact Hi|]. split; [exact Hf|]. split; [exact Hl|].
      left. rewrite Hk. apply in_map. unfold prepass_candidates. apply in_map.
      apply filter_In. split; [exact HF|].
      unfold record_in_window. rewrite Hs, He. apply andb_true_iff.
      split; [apply Z.leb_le | apply Z.ltb_lt]; lia.
    + pose proof (call_edge_in_merged p MainBlocks table r j blk d HT HN H Hb Hd) as Hin.
      rewrite <- Hk in Hin.
      apply (Analyse_keys_iff p MainBlocks table r H k). exact Hin.
Qed.

Lemma calling_blocks_contiguous : contiguous calling_blocks.
Proof.
  assert (Hcases : forall k b, block_at calling_blocks k = Some b ->
            (k = 0 \/ k = 1 \/ k = 2 \/ k = 3)).
  { intros k b Hb.
    assert (0 <= k < Z.of_nat (length calling_blocks))
      by (apply block_at_in_bounds; congruence).
    simpl in *. lia. }
  split.
  - intros k b Hb. destruct (Hcases k b Hb) as [ -> | [ -> | [ -> | -> ]]];
      inversion Hb; subst; simpl; lia.
  - intros k b b' Hb Hb'.
    destruct (Hcases k b Hb) as [ -> | [ -> | [ -> | -> ]]]; inversion Hb; subst;
      vm_compute in Hb'; inversion Hb'; reflexivity.
Qed.

Lemma sorted_keys_unique (l1 l2 : list FunctionDef.t) :
  StronglySorted before l1 -> StronglySorted before l2 ->
  (forall k, In k (map FunctionDef.key l1) <-> In k (map FunctionDef.key l2)) ->
  map FunctionDef.key l1 = map FunctionDef.key l2.
Proof.
  intros H1. revert l2. induction H1 as [|a1 l1 Hs1 IH Ha1]; intros l2 H2 Hiff.
  - destruct l2 as [|a2 l2]; [reflexivity|].
    exfalso. apply (proj2 (Hiff (FunctionDef.key a2))). simpl. auto.
  - destruct H2 as [|a2 l2 Hs2 Ha2].
    + exfalso. apply (proj1 (Hiff (FunctionDef.key a1))). simpl. auto.
    + rewrite Forall_forall in Ha1, Ha2.
      assert (Hhead : FunctionDef.key a1 = FunctionDef.key a2).
      { pose proof (proj1 (Hiff (FunctionDef.key a1)) (or_introl eq_refl)) as Hin1.
        pose proof (proj2 (Hiff (FunctionDef.key a2)) (or_introl eq_refl)) as Hin2.
        simpl in Hin1, Hin2.
        destruct Hin1 as [Heq|Hin1]; [congruence|].
        destruct Hin2 as [Heq|Hin2]; [congruence|].
        apply in_map_iff in Hin1. destruct Hin1 as (y2 & Hk2 & Hy2).
        apply in_map_iff in Hin2. destruct Hin2 as (y1 & Hk1 & Hy1).
        pose proof (Ha2 y2 Hy2) as Hb2. pose proof (Ha1 y1 Hy1) as Hb1.
        unfold before in Hb1, Hb2. rewrite ltb_spec in Hb1, Hb2.
        apply key_eq in Hk1. apply key_eq in Hk2. apply key_eq. lia. }
      simpl. f_equal; [exact Hhead|].
      apply IH; [exact Hs2|].
      intros k. split; intros Hk.
      * pose proof (proj1 (Hiff k) (or_intror Hk)) as Hin. simpl in Hin.
        destruct Hin as [Heq|Hin]; [|exact Hin].
        exfalso. apply in_map_iff in Hk. destruct Hk as (y & Hky & Hy).
        apply (before_key_neq _ _ (Ha1 y Hy)). congruence.
      * pose proof (proj2 (Hiff k) (or_intror Hk)) as Hin. simpl in Hin.
        destruct Hin as [Heq|Hin]; [|exact Hin].
        exfalso. apply in_map_iff in Hk. destruct Hk as (y & Hky & Hy).
        apply (before_key_neq _ _ (Ha2 y Hy)). congruence.
Qed.

Lemma entries_by_key (l1 l2 : list FunctionDef.t) :
  map FunctionDef.key l1 = map FunctionDef.key l2 -> map entry_of l1 = map entry_of l2.
Proof.
  revert l2. induction l1 as [|a l1 IH]; intros [|b l2] H; simpl in *; try discriminate;
    [reflexivity|].
  injection H as Hs He Hl. unfold entry_of at 1 3. rewrite Hs, He. f_equal. apply IH. exact Hl.
Qed.

Lemma discovered_pair_set_threads (p : FunctionPass) (threads : Z) (MainBlocks : BBlockArray)
    (k : Z * Z) :
  discovered_pair (set_threads p threads) MainBlocks k <-> discovered_pair p MainBlocks k.
Proof. reflexivity. Qed.

(** X17. The thread count does not change what is found.  On a contiguous
    block sequence, two completed runs that differ in the thread count only
    (each from 1 to 2^63 - 1) yield merged lists with the same address pairs
    in the same order, and the same function table. *)
Theorem thread_count_does_not_change_the_table (p : FunctionPass) (threads : Z)
    (MainBlocks : BBlockArray) (table table' : FunctionTable) (r r' : AnalyseResult) :
  1 <= IdealThreadCount p <= vector_max_size ->
  1 <= threads <= vector_max_size ->
  Z.of_nat (length MainBlocks) <= vector_max_size ->
  contiguous MainBlocks ->
  Analyse p MainBlocks table = Some r ->
  Analyse (set_threads p threads) MainBlocks table' = Some r' ->
  map FunctionDef.key (funcs r') = map FunctionDef.key (funcs r)
  /\ table_after r' = table_after r.
Proof.
  intros HT HT' HN Hc H H'.
  assert (Hkeys : map FunctionDef.key (funcs r') = map FunctionDef.key (funcs r)).
  { destruct (Analyse_inv _ _ _ _ H) as (_ & _ & Hf & _).
    destruct (Analyse_inv _ _ _ _ H') as (_ & _ & Hf' & _).
    apply sorted_keys_unique.
    - rewrite Hf'. apply std_unique_sorted, std_sort_sorted.
    - rewrite Hf. apply std_unique_sorted, std_sort_sorted.
    - intros k.
      rewrite (Analyse_pairs_contiguous (set_threads p threads) MainBlocks table' r'
                 HT' HN Hc H' k).
      rewrite (Analyse_pairs_contiguous p MainBlocks table r HT HN Hc H k).
      apply discovered_pair_set_threads. }
  split; [exact Hkeys|].
  destruct (Analyse_inv _ _ _ _ H) as (_ & _ & _ & Ht & _).
  destruct (Analyse_inv _ _ _ _ H') as (_ & _ & _ & Ht' & _).
  rewrite Ht, Ht', !commit_map. apply entries_by_key. exact Hkeys.
Qed.

(** The four calling blocks on one thread and on four. *)
Lemma thread_count_does_not_change_the_table_witness :
  exists r r',
    Analyse (calling_pass 1) calling_blocks [] = Some r
    /\ Analyse (set_threads (calling_pass 1) 4) calling_blocks [] = Some r'
    /\ threadFunctions r' <> threadFunctions r
    /\ table_after r' = table_after r.
Proof.
  assert (HT : 1 <= IdealThreadCount (calling_pass 1) <= vector_max_size)
    by (rewrite vector_max_size_value; simpl; lia).
  assert (HT' : 1 <= 4 <= vector_max_size) by (rewrite vector_max_size_value; lia).
  assert (HN : Z.of_nat (length calling_blocks) <= vector_max_size)
    by (rewrite vector_max_size_value; simpl; lia).
  eexists. eexists. split; [reflexivity|]. split; [reflexivity|].
  split; [discriminate|].
  exact (proj2 (thread_count_does_not_change_the_table (calling_pass 1) 4 calling_blocks
                  [] [] _ _ HT HT' HN calling_blocks_contiguous eq_refl eq_refl)).
Defined.

(** ** Which blocks a worker claims *)

Lemma covers_dec (MainBlocks : BBlockArray) (c : FunctionDef.t) (j : Z) :
  covers MainBlocks c j \/ ~ covers MainBlocks c j.
Proof.
  unfold covers.
  destruct (Z.eq_dec (FunctionDef.VirtualEnd c) 0) as [Hz|Hz]; [right; tauto|].
  destruct (FindBBlockInRange MainBlocks (FunctionDef.VirtualStart c)) as [s|].
  2:{ right. intros (_ & s & e & Hs & _). discriminate. }
  destruct (FindBBlockInRange MainBlocks (FunctionDef.VirtualEnd c)) as [e|].
  2:{ right. intros (_ & s' & e & _ & He & _). discriminate. }
  destruct (Z_le_dec s j) as [H1|H1]; [destruct (Z_lt_dec j e) as [H2|H2]|].
  - left. split; [exact Hz|]. exists s, e. auto.
  - right. intros (_ & s' & e' & Hs & He & Hj). inversion Hs; inversion He; subst. lia.
  - right. intros (_ & s' & e' & Hs & He & Hj). inversion Hs; inversion He; subst. lia.
Qed.

Lemma covers_same_code (a b : BBlockArray) (c : FunctionDef.t) (j : Z) :
  Forall2 same_code a b -> (covers b c j <-> covers a c j).
Proof.
  intros H. unfold covers. rewrite !(FindBBlockInRange_same_code a b) by exact H. reflexivity.
Qed.

Lemma some_covers_dec (MainBlocks : BBlockArray) (l : list FunctionDef.t) (j : Z) :
  (exists c, In c l /\ covers MainBlocks c j) \/ ~ (exists c, In c l /\ covers MainBlocks c j).
Proof.
  induction l as [|c l IH].
  - right. intros (c & [] & _).
  - destruct (covers_dec MainBlocks c j) as [Hc|Hc].
    + left. exists c. simpl. auto.
    + destruct IH as [(c' & Hin & Hc')|IH].
      * left. exists c'. simpl. auto.
      * right. intros (c' & [<-|Hin] & Hc'); [contradiction|]. apply IH. eauto.
Qed.

(** One step of [FindFunctionWorker] on one candidate. *)
Lemma worker_step_claims (MainBlocks : BBlockArray) (c : FunctionDef.t) (j : Z)
    (b : BasicBlock.t) :
  block_at MainBlocks j = Some b ->
  let MainBlocks' :=
    snd (if negb (FunctionDef.VirtualEnd c =? 0)
         then let '(_, block', MainBlocks') := ResolveKnownFunctionEnd MainBlocks c in
              (block', MainBlocks')
         else (c, MainBlocks)) in
  claimed_monotone MainBlocks MainBlocks'
  /\ (covers MainBlocks c j ->
      block_at MainBlocks' j = Some (SetFlag b BASIC_BLOCK_FLAG_FUNCTION))
  /\ (~ covers MainBlocks c j -> block_at MainBlocks' j = Some b).
Proof.
  intros Hb. unfold covers.
  destruct (FunctionDef.VirtualEnd c =? 0) eqn:Hz; simpl.
  - apply Z.eqb_eq in Hz. split; [apply claimed_monotone_refl|].
    split; [intros [Hne _]; contradiction | intros _; exact Hb].
  - apply Z.eqb_neq in Hz.
    pose proof (ResolveKnownFunctionEnd_monotone MainBlocks c) as Hm.
    unfold ResolveKnownFunctionEnd in *.
    destruct (FindBBlockInRange MainBlocks (FunctionDef.VirtualStart c)) as [s|].
    2:{ simpl in *. split; [exact Hm|].
        split; [intros (_ & s & e & Hs & _); discriminate | intros _; exact Hb]. }
    destruct (FindBBlockInRange MainBlocks (FunctionDef.VirtualEnd c)) as [e|].
    2:{ simpl in *. split; [exact Hm|].
        split; [intros (_ & s' & e & _ & He & _); discriminate | intros _; exact Hb]. }
    simpl in *. split; [exact Hm|]. split.
    + intros (_ & s' & e' & Hs & He & Hj). inversion Hs; inversion He; subst.
      apply mark_loop_inside; [lia | exact Hb].
    + intros Hn. rewrite mark_loop_outside; [exact Hb|].
      destruct (Z_le_dec s j) as [H1|H1]; [|lia].
      destruct (Z_lt_dec j e) as [H2|H2]; [|lia].
      exfalso. apply Hn. split; [exact Hz|]. exists s, e. auto.
Qed.

Lemma FindFunctionWorker_claims (Blocks : list FunctionDef.t) (MainBlocks : BBlockArray)
    (j : Z) (b : BasicBlock.t) :
  block_at MainBlocks j = Some b ->
  ((exists c, In c Blocks /\ covers MainBlocks c j) ->
   block_at (snd (FindFunctionWorker MainBlocks Blocks)) j
   = Some (SetFlag b BASIC_BLOCK_FLAG_FUNCTION))
  /\ (~ (exists c, In c Blocks /\ covers MainBlocks c j) ->
      block_at (snd (FindFunctionWorker MainBlocks Blocks)) j = Some b).
Proof.
  revert MainBlocks b. induction Blocks as [|c rest IH]; intros MainBlocks b Hb.
  - simpl. split; [intros (c & [] & _) | intros _; exact Hb].
  - pose proof (worker_step_claims MainBlocks c j b Hb) as Hstep.
    cbn [FindFunctionWorker].
    destruct (if negb (FunctionDef.VirtualEnd c =? 0)
              then let '(_, block', MainBlocks') := ResolveKnownFunctionEnd MainBlocks c in
                   (block', MainBlocks')
              else (c, MainBlocks)) as [c' MB1].
    simpl in Hstep. destruct Hstep as (Hm & Hyes & Hno).
    pose proof (claimed_monotone_same_code _ _ Hm) as Hsc.
    assert (Hrest : (exists c0, In c0 rest /\ covers MB1 c0 j)
                    <-> (exists c0, In c0 rest /\ covers MainBlocks c0 j)).
    { split; intros (c0 & Hin & Hc0); exists c0; (split; [exact Hin|]);
        apply (covers_same_code MainBlocks MB1 c0 j Hsc); exact Hc0. }
    destruct (covers_dec MainBlocks c j) as [Hc|Hc].
    + specialize (IH MB1 _ (Hyes Hc)). destruct IH as [IHyes IHno].
      destruct (FindFunctionWorker MB1 rest) as [rest' MB2]. simpl in *.
      assert (Hfinal : block_at MB2 j = Some (SetFlag b BASIC_BLOCK_FLAG_FUNCTION)).
      { destruct (some_covers_dec MB1 rest j) as [Hr|Hr].
        - rewrite (IHyes Hr). f_equal. apply SetFlag_set. apply GetFlag_SetFlag_same.
        - apply IHno. exact Hr. }
      split; [intros _; exact Hfinal|].
      intros Hn. exfalso. apply Hn. exists c. auto.
    + specialize (IH MB1 _ (Hno Hc)). destruct IH as [IHyes IHno].
      destruct (FindFunctionWorker MB1 rest) as [rest' MB2]. simpl in *.
      split.
      * intros (c0 & [<-|Hin] & Hc0); [contradiction|].
        apply IHyes. apply Hrest. eauto.
      * intros Hn. apply IHno. intros Hr. apply Hrest in Hr.
        destruct Hr as (c0 & Hin & Hc0). apply Hn. exists c0. auto.
Qed.

(** X18. [FindFunctionWorker] claims exactly the blocks that some candidate
    of its list covers.  A block whose index lies, for some candidate with a
    non-zero end and two successful lookups, from the start block up to and
    without the end block, ends with the CLAIMED flag set and is otherwise
    as before; every other block is left exactly as it was. *)
Theorem find_function_worker_claims_covered_blocks (Blocks : list FunctionDef.t)
    (MainBlocks : BBlockArray) (j : Z) (b : BasicBlock.t) :
  block_at MainBlocks j = Some b ->
  ((exists c, In c Blocks /\ covers MainBlocks c j) ->
   block_at (snd (FindFunctionWorker MainBlocks Blocks)) j
   = Some (SetFlag b BASIC_BLOCK_FLAG_FUNCTION))
  /\ (~ (exists c, In c Blocks /\ covers MainBlocks c j) ->
      block_at (snd (FindFunctionWorker MainBlocks Blocks)) j = Some b).
Proof. exact (FindFunctionWorker_claims Blocks MainBlocks j b). Qed.

(** Over the four calling blocks the candidate [0x1010, 0x1030) covers
    blocks 1 and 2: block 2 is claimed, block 3 is not. *)
Lemma find_function_worker_claims_covered_blocks_witness :
  block_at (snd (FindFunctionWorker calling_blocks [FunctionDef.mk 0x1010 0x1030 0 0])) 2
  = Some (SetFlag (BasicBlock.mk 0x1020 0x1030 0 0) BASIC_BLOCK_FLAG_FUNCTION)
  /\ block_at (snd (FindFunctionWorker calling_blocks [FunctionDef.mk 0x1010 0x1030 0 0])) 3
     = Some (BasicBlock.mk 0x1030 0x1040 0 0).
Proof.
  split.
  - apply (proj1 (find_function_worker_claims_covered_blocks
                    [FunctionDef.mk 0x1010 0x1030 0 0] calling_blocks 2
                    (BasicBlock.mk 0x1020 0x1030 0 0) eq_refl)).
    exists (FunctionDef.mk 0x1010 0x1030 0 0). split; [left; reflexivity|].
    split; [discriminate|]. exists 1, 3. repeat split; lia.
  - apply (proj2 (find_function_worker_claims_covered_blocks
                    [FunctionDef.mk 0x1010 0x1030 0 0] calling_blocks 3
                    (BasicBlock.mk 0x1030 0x1040 0 0) eq_refl)).
    intros (c & [<-|[]] & (_ & s & e & Hs & He & Hj)).
    vm_compute in Hs, He. inversion Hs; inversion He; subst. lia.
Defined.

Lemma in_block_range_dec (l : list FunctionDef.t) (j : Z) :
  (exists c, In c l /\ in_block_range c j) \/ ~ (exists c, In c l /\ in_block_range c j).
Proof.
  unfold in_block_range. induction l as [|c l IH].
  - right. intros (c & [] & _).
  - destruct (Z_le_dec (FunctionDef.BBlockStart c) j) as [H1|H1];
      [destruct (Z_lt_dec j (FunctionDef.BBlockEnd c)) as [H2|H2]|].
    + left. exists c. simpl. auto.
    + destruct IH as [(c' & Hin & Hc')|IH].
      * left. exists c'. simpl. auto.
      * right. intros (c' & [<-|Hin] & Hc'); [lia|]. apply IH. eauto.
    + destruct IH as [(c' & Hin & Hc')|IH].
      * left. exists c'. simpl. auto.
      * right. intros (c' & [<-|Hin] & Hc'); [lia|]. apply IH. eauto.
Qed.

Lemma resolved_range (MainBlocks : BBlockArray) (c : FunctionDef.t) (j : Z) :
  FunctionDef.BBlockStart c = 0 -> FunctionDef.BBlockEnd c = 0 ->
  (in_block_range (resolved MainBlocks c) j <-> covers MainBlocks c j).
Proof.
  intros H0 H1. unfold in_block_range, resolved, covers.
  destruct (FunctionDef.VirtualEnd c =? 0) eqn:Hz.
  - apply Z.eqb_eq in Hz. rewrite H0, H1. split; [lia | tauto].
  - apply Z.eqb_neq in Hz.
    destruct (FindBBlockInRange MainBlocks (FunctionDef.VirtualStart c)) as [s|].
    2:{ rewrite H0, H1. split; [lia|]. intros (_ & s & e & Hs & _). discriminate. }
    destruct (FindBBlockInRange MainBlocks (FunctionDef.VirtualEnd c)) as [e|].
    2:{ rewrite H0, H1. split; [lia|]. intros (_ & s' & e & _ & He & _). discriminate. }
    simpl. split.
    + intros Hj. split; [exact Hz|]. exists s, e. auto.
    + intros (_ & s' & e' & Hs & He & Hj). inversion Hs; inversion He; subst. exact Hj.
Qed.

Lemma AnalysisWorker_claims (p : FunctionPass) (MainBlocks MainBlocks' : BBlockArray)
    (Start End : Z) (out : list FunctionDef.t) (j : Z) (b : BasicBlock.t) :
  AnalysisWorker p MainBlocks Start End [] = Some (out, MainBlocks') ->
  block_at MainBlocks j = Some b ->
  ((exists c, In c out /\ in_block_range c j) ->
   block_at MainBlocks' j = Some (SetFlag b BASIC_BLOCK_FLAG_FUNCTION))
  /\ (~ (exists c, In c out /\ in_block_range c j) -> block_at MainBlocks' j = Some b).
Proof.
  intros H Hb. unfold AnalysisWorker in H.
  destruct (FindFunctionWorkerPrepass p MainBlocks Start End []) as [Blocks1|] eqn:Hp;
    [|discriminate].
  simpl in H.
  destruct (scan_calls p MainBlocks Start End _) as [st|] eqn:Hscan; [|discriminate].
  simpl in H. injection H as H.
  set (l := std_unique (std_sort (st_Blocks st))) in *.
  assert (Hzero : forall c, In c l ->
            FunctionDef.BBlockStart c = 0 /\ FunctionDef.BBlockEnd c = 0).
  { intros c Hc. subst l. apply std_unique_incl in Hc.
    apply (Permutation_in c (std_sort_perm _)) in Hc.
    unfold scan_calls in Hscan.
    destruct (scan_loop_spec _ _ _ _ _ _ Hscan) as (emitted & He & Hf). simpl in He.
    rewrite He in Hc. apply in_app_or in Hc. destruct Hc as [Hc|Hc].
    - assert (Hb1 : exists first last,
                 block_at MainBlocks Start = Some first
                 /\ block_at MainBlocks (wrap (End - 1)) = Some last).
      { unfold FindFunctionWorkerPrepass, bind in Hp.
        destruct (block_at MainBlocks Start) as [first|]; [|discriminate].
        destruct (block_at MainBlocks (wrap (End - 1))) as [last|]; [|discriminate].
        eauto. }
      destruct Hb1 as (first & last & Hf1 & Hl1).
      rewrite (prepass_exact p MainBlocks Start End [] first last Hf1 Hl1) in Hp.
      injection Hp as <-. simpl in Hc. unfold prepass_candidates in Hc.
      apply in_map_iff in Hc. destruct Hc as (F & <- & _). simpl. auto.
    - rewrite Forall_forall in Hf. destruct (Hf c Hc) as (_ & _ & H0 & H1). auto. }
  pose proof (FindFunctionWorker_resolved l MainBlocks) as Hout.
  pose proof (FindFunctionWorker_claims l MainBlocks j b Hb) as [Hyes Hno].
  rewrite H in Hout, Hyes, Hno. simpl in Hout, Hyes, Hno.
  assert (Hiff : (exists c, In c out /\ in_block_range c j)
                 <-> (exists c, In c l /\ covers MainBlocks c j)).
  { rewrite Hout. split.
    - intros (y & Hy & Hr). apply in_map_iff in Hy. destruct Hy as (c & <- & Hc).
      exists c. split; [exact Hc|].
      destruct (Hzero c Hc) as [H0 H1]. apply (resolved_range MainBlocks c j H0 H1). exact Hr.
    - intros (c & Hc & Hcov). exists (resolved MainBlocks c).
      split; [apply in_map; exact Hc|].
      destruct (Hzero c Hc) as [H0 H1]. apply (resolved_range MainBlocks c j H0 H1).
      exact Hcov. }
  split.
  - intros Hex. apply Hyes. apply Hiff. exact Hex.
  - intros Hn. apply Hno. intros Hex. apply Hn. apply Hiff. exact Hex.
Qed.

Lemma run_shards_claims (p : FunctionPass) (n : nat) (i : Z)
    (MainBlocks MainBlocks' : BBlockArray) (outs : list (list FunctionDef.t))
    (j : Z) (b : BasicBlock.t) :
  run_shards p n i MainBlocks = Some (outs, MainBlocks') ->
  block_at MainBlocks j = Some b ->
  ((exists c, In c (concat outs) /\ in_block_range c j) ->
   block_at MainBlocks' j = Some (SetFlag b BASIC_BLOCK_FLAG_FUNCTION))
  /\ (~ (exists c, In c (concat outs) /\ in_block_range c j) ->
      block_at MainBlocks' j = Some b).
Proof.
  revert i MainBlocks MainBlocks' outs b.
  induction n as [|n IH]; intros i MainBlocks MainBlocks' outs b H Hb; simpl in H.
  - inversion H; subst. simpl. split; [intros (c & [] & _) | intros _; exact Hb].
  - unfold bind in H.
    destruct (AnalysisWorker p MainBlocks _ _ []) as [[out MB1]|] eqn:Hw; [|discriminate].
    destruct (run_shards p n (i + 1) MB1) as [[others MB2]|] eqn:Hr; [|discriminate].
    inversion H; subst. clear H.
    destruct (AnalysisWorker_claims _ _ _ _ _ _ j b Hw Hb) as [Hyes Hno].
    assert (Hsplit : (exists c, In c (concat (out :: others)) /\ in_block_range c j)
                     <-> (exists c, In c out /\ in_block_range c j)
                         \/ (exists c, In c (concat others) /\ in_block_range c j)).
    { simpl. split.
      - intros (c & Hc & Hrange). apply in_app_or in Hc. destruct Hc; [left|right]; eauto.
      - intros [(c & Hc & Hrange)|(c & Hc & Hrange)]; exists c;
          (split; [apply in_or_app; auto | exact Hrange]). }
    destruct (in_block_range_dec out j) as [Ho|Ho].
    + destruct (IH _ _ _ _ _ Hr (Hyes Ho)) as [IHyes IHno].
      assert (Hfinal : block_at MainBlocks' j = Some (SetFlag b BASIC_BLOCK_FLAG_FUNCTION)).
      { destruct (in_block_range_dec (concat others) j) as [Hrest|Hrest].
        - rewrite (IHyes Hrest). f_equal. apply SetFlag_set. apply GetFlag_SetFlag_same.
        - apply IHno. exact Hrest. }
      split; [intros _; exact Hfinal|].
      intros Hn. exfalso. apply Hn. apply Hsplit. left. exact Ho.
    + destruct (IH _ _ _ _ _ Hr (Hno Ho)) as [IHyes IHno].
      split.
      * intros Hex. apply Hsplit in Hex. destruct Hex as [Hex|Hex]; [contradiction|].
        apply IHyes. exact Hex.
      * intros Hn. apply IHno. intros Hex. apply Hn. apply Hsplit. right. exact Hex.
Qed.

(** X19. After a run a block carries the CLAIMED flag exactly if it carried
    it before or its index lies in the block range [[BBlockStart, BBlockEnd)]
    that some shard recorded in one of its candidates; apart from that flag
    no block is changed.  So every newly claimed block is attributed to a
    candidate of the run, and every block a resolved candidate spans is
    claimed. *)
Theorem claimed_blocks_of_a_run (p : FunctionPass) (MainBlocks : BBlockArray)
    (table : FunctionTable) (r : AnalyseResult) (j : Z) (b : BasicBlock.t) :
  Analyse p MainBlocks table = Some r ->
  block_at MainBlocks j = Some b ->
  ((exists c, In c (concat (threadFunctions r)) /\ in_block_range c j) ->
   block_at (blocks_after r) j = Some (SetFlag b BASIC_BLOCK_FLAG_FUNCTION))
  /\ (~ (exists c, In c (concat (threadFunctions r)) /\ in_block_range c j) ->
      block_at (blocks_after r) j = Some b).
Proof.
  intros H Hb. destruct (Analyse_inv _ _ _ _ H) as (_ & Hrun & _).
  exact (run_shards_claims _ _ _ _ _ _ j b Hrun Hb).
Qed.

(** The three blocks on two threads: the record's candidate is resolved to
    the block range [1, 2), so block 1 is claimed and block 0 is not. *)
Lemma claimed_blocks_of_a_run_witness :
  exists r,
    Analyse (three_blocks_pass 2) three_blocks [] = Some r
    /\ block_at (blocks_after r) 1 = Some (SetFlag example1_B2 BASIC_BLOCK_FLAG_FUNCTION)
    /\ block_at (blocks_after r) 0 = Some example1_B1.
Proof.
  eexists. split; [reflexivity|].
  split.
  - apply (proj1 (claimed_blocks_of_a_run (three_blocks_pass 2) three_blocks [] _ 1
                    example1_B2 eq_refl eq_refl)).
    exists (FunctionDef.mk 0x2000 0x2020 1 2). split; [simpl; auto|].
    unfold in_block_range. simpl. lia.
  - apply (proj2 (claimed_blocks_of_a_run (three_blocks_pass 2) three_blocks [] _ 0
                    example1_B1 eq_refl eq_refl)).
    simpl. unfold in_block_range.
    intros (c & [<-|[<-|[]]] & Hc); simpl in Hc; lia.
Defined.

(** ** Runs with the order and the equality of candidates as parameters *)

(** With the pair order and the pair equality the parametrised definitions
    are the ones above. *)
Lemma sort_insert_with_pair (x : FunctionDef.t) (l : list FunctionDef.t) :
  sort_insert_with FunctionDef.ltb x l = sort_insert x l.
Proof. induction l as [|y t IH]; simpl; [reflexivity|]. rewrite IH. reflexivity. Qed.

Lemma std_sort_with_pair (l : list FunctionDef.t) :
  std_sort_with FunctionDef.ltb l = std_sort l.
Proof.
  unfold std_sort_with, std_sort.
  induction l as [|x t IH]; simpl; [reflexivity|].
  rewrite IH. apply sort_insert_with_pair.
Qed.

Lemma unique_after_with_pair (kept : FunctionDef.t) (l : list FunctionDef.t) :
  unique_after_with FunctionDef.eqb kept l = unique_after kept l.
Proof.
  revert kept. induction l as [|x t IH]; intros kept; simpl; [reflexivity|].
  rewrite !IH. reflexivity.
Qed.

Lemma std_unique_with_pair (l : list FunctionDef.t) :
  std_unique_with FunctionDef.eqb l = std_unique l.
Proof. destruct l as [|x t]; simpl; [reflexivity|]. rewrite unique_after_with_pair. reflexivity. Qed.

Lemma AnalysisWorker_with_pair (p : FunctionPass) (MainBlocks : BBlockArray) (Start End : Z)
    (Blocks : list FunctionDef.t) :
  AnalysisWorker_with FunctionDef.ltb FunctionDef.eqb p MainBlocks Start End Blocks
  = AnalysisWorker p MainBlocks Start End Blocks.
Proof.
  unfold AnalysisWorker_with, AnalysisWorker, bind.
  destruct (FindFunctionWorkerPrepass p MainBlocks Start End Blocks); [|reflexivity].
  destruct (scan_calls p MainBlocks Start End _); [|reflexivity].
  rewrite std_sort_with_pair, std_unique_with_pair. reflexivity.
Qed.

Lemma run_shards_with_pair (p : FunctionPass) (n : nat) (i : Z) (MainBlocks : BBlockArray) :
  run_shards_with FunctionDef.ltb FunctionDef.eqb p n i MainBlocks
  = run_shards p n i MainBlocks.
Proof.
  revert i MainBlocks. induction n as [|n IH]; intros i MainBlocks; simpl; [reflexivity|].
  rewrite AnalysisWorker_with_pair. unfold bind.
  destruct (AnalysisWorker p MainBlocks _ _ []) as [[out MB1]|]; [|reflexivity].
  rewrite IH. reflexivity.
Qed.

Lemma Analyse_with_pair (p : FunctionPass) (MainBlocks : BBlockArray) (table : FunctionTable) :
  Analyse_with FunctionDef.ltb FunctionDef.eqb p MainBlocks table
  = Analyse p MainBlocks table.
Proof.
  unfold Analyse_with, Analyse. rewrite run_shards_with_pair. unfold bind.
  destruct (IdealThreadCount p =? 0); [reflexivity|].
  destruct (run_shards p _ 0 MainBlocks) as [[outs MB]|]; [|reflexivity].
  rewrite std_sort_with_pair, std_unique_with_pair. reflexivity.
Qed.

Lemma FindFunctionWorker_starts (Blocks : list FunctionDef.t) (MainBlocks : BBlockArray) :
  map FunctionDef.VirtualStart (fst (FindFunctionWorker MainBlocks Blocks))
  = map FunctionDef.VirtualStart Blocks.
Proof.
  pose proof (FindFunctionWorker_keys Blocks MainBlocks) as Hk.
  apply (f_equal (map fst)) in Hk. rewrite !map_map in Hk. exact Hk.
Qed.

Lemma same_starts_refl (l : list FunctionDef.t) : same_starts l l.
Proof. intros A. reflexivity. Qed.

Lemma same_starts_sym (l l' : list FunctionDef.t) : same_starts l l' -> same_starts l' l.
Proof. intros H A. symmetry. apply H. Qed.

Lemma same_starts_trans (l1 l2 l3 : list FunctionDef.t) :
  same_starts l1 l2 -> same_starts l2 l3 -> same_starts l1 l3.
Proof. intros H1 H2 A. rewrite (H1 A). apply H2. Qed.

Lemma same_starts_of_map (l l' : list FunctionDef.t) :
  map FunctionDef.VirtualStart l = map FunctionDef.VirtualStart l' -> same_starts l l'.
Proof. intros H A. rewrite H. reflexivity. Qed.

Lemma same_starts_of_keys (l l' : list FunctionDef.t) :
  (forall k, In k (map FunctionDef.key l) <-> In k (map FunctionDef.key l')) ->
  same_starts l l'.
Proof.
  assert (Hone : forall l1 l2 : list FunctionDef.t,
            (forall k, In k (map FunctionDef.key l1) -> In k (map FunctionDef.key l2)) ->
            forall A, In A (map FunctionDef.VirtualStart l1)
                      -> In A (map FunctionDef.VirtualStart l2)).
  { intros l1 l2 H A HA. apply in_map_iff in HA. destruct HA as (c & <- & Hc).
    specialize (H (FunctionDef.key c) (in_map _ _ _ Hc)).
    apply in_map_iff in H. destruct H as (c' & Hk & Hc').
    apply in_map_iff. exists c'. split; [|exact Hc'].
    unfold FunctionDef.key in Hk. congruence. }
  intros H A. split; apply Hone; intros k; apply H.
Qed.

Lemma same_starts_concat (outs outs' : list (list FunctionDef.t)) :
  Forall2 same_starts outs outs' -> same_starts (concat outs) (concat outs').
Proof.
  induction 1 as [|l l' t t' Hl Ht IH]; [apply same_starts_refl|].
  intros A. simpl. rewrite !map_app, !in_app_iff, (Hl A), (IH A). reflexivity.
Qed.

Lemma Forall2_same_code_refl (a : BBlockArray) : Forall2 same_code a a.
Proof. induction a; constructor; [apply same_code_refl | assumption]. Qed.

Section AnyOperators.
Variable operator_lt : FunctionDef.t -> FunctionDef.t -> bool.
Variable operator_eq : FunctionDef.t -> FunctionDef.t -> bool.

Lemma sort_insert_with_perm (x : FunctionDef.t) (l : list FunctionDef.t) :
  Permutation (sort_insert_with operator_lt x l) (x :: l).
Proof.
  induction l as [|y t IH]; simpl; [apply Permutation_refl|].
  destruct (operator_lt y x); [|apply Permutation_refl].
  eapply Permutation_trans; [apply perm_skip; exact IH | apply perm_swap].
Qed.

Lemma std_sort_with_perm (l : list FunctionDef.t) :
  Permutation (std_sort_with operator_lt l) l.
Proof.
  induction l as [|x t IH]; simpl; [apply Permutation_refl|].
  eapply Permutation_trans; [apply sort_insert_with_perm | apply perm_skip; exact IH].
Qed.

Lemma unique_after_with_incl (kept y : FunctionDef.t) (l : list FunctionDef.t) :
  In y (unique_after_with operator_eq kept l) -> In y l.
Proof.
  revert kept. induction l as [|x t IH]; intros kept; simpl; [intros []|].
  destruct (operator_eq kept x).
  - intros H. right. eapply IH. exact H.
  - intros [H|H]; [left; exact H | right; eapply IH; exact H].
Qed.

Lemma std_unique_with_incl (y : FunctionDef.t) (l : list FunctionDef.t) :
  In y (std_unique_with operator_eq l) -> In y l.
Proof.
  destruct l as [|x t]; simpl; [intros []|].
  intros [H|H]; [left; exact H | right; eapply unique_after_with_incl; exact H].
Qed.

Lemma Analyse_with_inv (p : FunctionPass) (MainBlocks : BBlockArray) (table : FunctionTable)
    (r : AnalyseResult) :
  Analyse_with operator_lt operator_eq p MainBlocks table = Some r ->
  IdealThreadCount p <> 0
  /\ run_shards_with operator_lt operator_eq p (Z.to_nat (IdealThreadCount p)) 0 MainBlocks
     = Some (threadFunctions r, blocks_after r)
  /\ funcs r = std_unique_with operator_eq
                 (std_sort_with operator_lt (concat (threadFunctions r)))
  /\ table_after r = commit (funcs r) table
  /\ returned r = true.
Proof.
  unfold Analyse_with, bind. intros H.
  destruct (IdealThreadCount p =? 0) eqn:HT; [discriminate|].
  apply Z.eqb_neq in HT.
  destruct (run_shards_with _ _ p _ 0 MainBlocks) as [[outs MB]|]; [|discriminate].
  inversion H; subst; simpl. auto.
Qed.



(** *** Equal candidates start at the same address *)

Hypothesis equal_starts :
  forall a b, operator_eq a b = true -> FunctionDef.VirtualStart a = FunctionDef.VirtualStart b.

Lemma unique_after_with_start (kept c : FunctionDef.t) (l : list FunctionDef.t) :
  In c (kept :: l) ->
  exists y, In y (kept :: unique_after_with operator_eq kept l)
            /\ FunctionDef.VirtualStart y = FunctionDef.VirtualStart c.
Proof.
  revert kept. induction l as [|x t IH]; intros kept Hc.
  - exists c. split; [exact Hc | reflexivity].
  - simpl. destruct Hc as [<-|Hc]; [exists kept; split; [left|]; reflexivity|].
    destruct (operator_eq kept x) eqn:He.
    + apply equal_starts in He.
      destruct Hc as [<-|Hc]; [exists kept; split; [left; reflexivity | exact He]|].
      apply IH. right. exact Hc.
    + destruct (IH x Hc) as (y & Hy & Hs). exists y. split; [right; exact Hy | exact Hs].
Qed.

Lemma merged_with_same_starts (l : list FunctionDef.t) :
  same_starts (std_unique_with operator_eq (std_sort_with operator_lt l)) l.
Proof.
  intros A. rewrite !in_map_iff. split.
  - intros (c & <- & Hc). exists c. split; [reflexivity|].
    apply std_unique_with_incl in Hc.
    exact (Permutation_in c (std_sort_with_perm l) Hc).
  - intros (c & <- & Hc).
    apply (Permutation_in c (Permutation_sym (std_sort_with_perm l))) in Hc.
    destruct (std_sort_with operator_lt l) as [|x t]; [contradiction|].
    destruct (unique_after_with_start x c t Hc) as (y & Hy & Hs).
    exists y. split; [exact Hs | exact Hy].
Qed.

(** A worker with the parametrised operators and a worker with the pair
    operators, on arrays that differ in CLAIMED flags only: both undefined,
    or both defined with the same start addresses in their outputs. *)
Lemma AnalysisWorker_with_same_starts (p : FunctionPass) (a b : BBlockArray) (Start End : Z)
    (Blocks : list FunctionDef.t) :
  Forall2 same_code a b ->
  match AnalysisWorker_with operator_lt operator_eq p a Start End Blocks,
        AnalysisWorker p b Start End Blocks with
  | Some (out, a'), Some (out', b') => same_starts out out' /\ Forall2 same_code a' b'
  | None, None => True
  | _, _ => False
  end.
Proof.
  intros H. unfold AnalysisWorker_with, AnalysisWorker.
  rewrite (prepass_same_code p a b Start End Blocks H).
  destruct (FindFunctionWorkerPrepass p a Start End Blocks) as [Blocks1|]; simpl; [|exact I].
  unfold scan_calls. rewrite (scan_loop_same_code p a b _ _ _ H).
  destruct (scan_loop p a _ Start _) as [st|]; simpl; [|exact I].
  pose proof (FindFunctionWorker_starts
                (std_unique_with operator_eq (std_sort_with operator_lt (st_Blocks st))) a)
    as Ha.
  pose proof (FindFunctionWorker_starts (std_unique (std_sort (st_Blocks st))) b) as Hb.
  pose proof (FindFunctionWorker_monotone
                (std_unique_with operator_eq (std_sort_with operator_lt (st_Blocks st))) a)
    as Hma.
  pose proof (FindFunctionWorker_monotone (std_unique (std_sort (st_Blocks st))) b) as Hmb.
  destruct (FindFunctionWorker a _) as [out a'].
  destruct (FindFunctionWorker b _) as [out' b']. simpl in *.
  split.
  - eapply same_starts_trans; [apply same_starts_of_map; exact Ha|].
    eapply same_starts_trans; [apply merged_with_same_starts|].
    apply same_starts_sym.
    eapply same_starts_trans; [apply same_starts_of_map; exact Hb|].
    apply same_starts_of_keys. intros k. apply merged_key_iff.
  - apply claimed_monotone_same_code in Hma. apply claimed_monotone_same_code in Hmb.
    eapply Forall2_same_code_trans; [apply Forall2_same_code_sym; exact Hma|].
    eapply Forall2_same_code_trans; [exact H | exact Hmb].
Qed.

Lemma run_shards_with_same_starts (p : FunctionPass) (n : nat) (i : Z) (a b : BBlockArray) :
  Forall2 same_code a b ->
  match run_shards_with operator_lt operator_eq p n i a, run_shards p n i b with
  | Some (outs, a'), Some (outs', b') =>
      Forall2 same_starts outs outs' /\ Forall2 same_code a' b'
  | None, None => True
  | _, _ => False
  end.
Proof.
  revert i a b. induction n as [|n IH]; intros i a b H; simpl; [auto|].
  rewrite <- (Forall2_length H).
  pose proof (AnalysisWorker_with_same_starts p a b
                (threadWorkStart p (Z.of_nat (length a)) i)
                (threadWorkStop p (Z.of_nat (length a)) i) [] H) as Hw.
  destruct (AnalysisWorker_with _ _ p a _ _ []) as [[out a1]|];
    destruct (AnalysisWorker p b _ _ []) as [[out' b1]|]; simpl; try contradiction; [|exact I].
  destruct Hw as [Hs H1].
  specialize (IH (i + 1) a1 b1 H1).
  destruct (run_shards_with _ _ p n (i + 1) a1) as [[others a2]|];
    destruct (run_shards p n (i + 1) b1) as [[others' b2]|]; simpl; try contradiction;
    [|exact I].
  destruct IH as [Ho H2]. split; [constructor; assumption | exact H2].
Qed.

(** A run with the parametrised operators completes exactly if the run with
    the pair operators does, and the two merged lists hold the same start
    addresses. *)
Lemma Analyse_with_same_starts (p : FunctionPass) (MainBlocks : BBlockArray)
    (table : FunctionTable) (r : AnalyseResult) :
  Analyse_with operator_lt operator_eq p MainBlocks table = Some r ->
  exists r', Analyse p MainBlocks table = Some r' /\ same_starts (funcs r) (funcs r').
Proof.
  unfold Analyse_with, Analyse. intros H.
  destruct (IdealThreadCount p =? 0); [discriminate|].
  pose proof (run_shards_with_same_starts p (Z.to_nat (IdealThreadCount p)) 0
                MainBlocks MainBlocks (Forall2_same_code_refl MainBlocks)) as Hr.
  destruct (run_shards_with _ _ p _ 0 MainBlocks) as [[outs a']|]; [|discriminate].
  destruct (run_shards p _ 0 MainBlocks) as [[outs' b']|]; [|contradiction].
  simpl in *. injection H as <-. eexists. split; [reflexivity|]. simpl.
  destruct Hr as [Ho _].
  eapply same_starts_trans; [apply merged_with_same_starts|].
  eapply same_starts_trans; [apply same_starts_concat; exact Ho|].
  apply same_starts_sym. apply same_starts_of_keys. intros k. apply merged_key_iff.
Qed.

End AnyOperators.

(** ** Equality of candidates on the start address *)




Section StartOperators.
Variable operator_lt : FunctionDef.t -> FunctionDef.t -> bool.
Variable operator_eq : FunctionDef.t -> FunctionDef.t -> bool.

Hypothesis eq_on_start :
  forall a b, operator_eq a b
              = (FunctionDef.VirtualStart a =? FunctionDef.VirtualStart b).
Hypothesis lt_of_start :
  forall a b, FunctionDef.VirtualStart a < FunctionDef.VirtualStart b ->
              operator_lt a b = true.
Hypothesis start_of_lt :
  forall a b, operator_lt a b = true ->
              FunctionDef.VirtualStart a <= FunctionDef.VirtualStart b.









End StartOperators.

(** ** One function found by two shards *)



(** ** Example 1 *)





(** ** The start addresses a run commits *)

(** X16. For a contiguous block sequence (each block starts where the one
    before ends), at most 2^63 - 1 blocks and a thread count from 1 to
    2^63 - 1, and for any [operator<] and any [operator==] that holds only
    between candidates with the same start address, the function table of a
    completed run holds exactly these start addresses: the begin of every
    record that begins between the start of the first block and the end of
    the last block, and every call destination that resolved and passed
    [ValidateAddress].  No record in that range falls between two shards. *)
Theorem committed_starts_of_contiguous_blocks
    (operator_lt operator_eq : FunctionDef.t -> FunctionDef.t -> bool)
    (p : FunctionPass) (MainBlocks : BBlockArray) (table : FunctionTable)
    (r : AnalyseResult) :
  (forall a b, operator_eq a b = true ->
               FunctionDef.VirtualStart a = FunctionDef.VirtualStart b) ->
  1 <= IdealThreadCount p <= vector_max_size ->
  Z.of_nat (length MainBlocks) <= vector_max_size ->
  contiguous MainBlocks ->
  Analyse_with operator_lt operator_eq p MainBlocks table = Some r ->
  forall A, In A (map fn_Start (table_after r)) <-> discovered_start p MainBlocks A.
Proof.
  intros Heq HT HN Hc H A.
  destruct (Analyse_with_inv _ _ _ _ _ _ H) as (_ & _ & _ & Htable & _).
  destruct (Analyse_with_same_starts operator_lt operator_eq Heq p MainBlocks table r H)
    as (r' & H' & Hs).
  pose proof (Analyse_pairs_contiguous p MainBlocks table r' HT HN Hc H') as Hpairs.
  rewrite Htable, commit_map, map_map. simpl.
  change (In A (map FunctionDef.VirtualStart (funcs r))
          <-> discovered_start p MainBlocks A).
  rewrite (Hs A). split.
  - intros HA. apply in_map_iff in HA. destruct HA as (c & <- & Hin).
    destruct (proj1 (Hpairs (FunctionDef.key c)) (in_map _ _ _ Hin))
      as [(Function & HF & Hw & Hk) | (j & blk & d & Hb & Hd & Hk)].
    + left. exists Function. split; [exact HF|]. split; [exact Hw|].
      unfold FunctionDef.key, record_candidate in Hk. simpl in Hk. congruence.
    + right. exists j, blk. split; [exact Hb|].
      unfold FunctionDef.key in Hk. injection Hk as -> _. exact Hd.
  - intros [(Function & HF & Hw & ->) | (j & blk & Hb & Hd)].
    + assert (Hin : In (FunctionDef.key (record_candidate p Function))
                       (map FunctionDef.key (funcs r'))).
      { apply Hpairs. left. exists Function. auto. }
      apply in_map_iff in Hin. destruct Hin as (c & Hk & Hin).
      apply in_map_iff. exists c. split; [|exact Hin].
      unfold FunctionDef.key, record_candidate in Hk. simpl in Hk. congruence.
    + assert (Hin : In (A, A) (map FunctionDef.key (funcs r'))).
      { apply Hpairs. right. exists j, blk, A. auto. }
      apply in_map_iff in Hin. destruct Hin as (c & Hk & Hin).
      apply in_map_iff. exists c. split; [|exact Hin].
      unfold FunctionDef.key in Hk. congruence.
Qed.

(** On the four calling blocks with two threads and equality on the start
    address, the record at 0x1028 lies in the second shard's window and the
    call of block 1 leads to 0x1030: both start addresses are committed;
    the record at 0x2000 begins after the last block. *)
Lemma committed_starts_of_contiguous_blocks_witness :
  exists r,
    Analyse_with longer_first same_start (calling_pass 2) calling_blocks [] = Some r
    /\ In 0x1028 (map fn_Start (table_after r))
    /\ In 0x1030 (map fn_Start (table_after r))
    /\ ~ discovered_start (calling_pass 2) calling_blocks 0x2000.
Proof.
  assert (Heq : forall a b, same_start a b = true ->
                            FunctionDef.VirtualStart a = FunctionDef.VirtualStart b)
    by (intros a b; apply Z.eqb_eq).
  assert (HT : 1 <= IdealThreadCount (calling_pass 2) <= vector_max_size)
    by (rewrite vector_max_size_value; simpl; lia).
  assert (HN : Z.of_nat (length calling_blocks) <= vector_max_size)
    by (rewrite vector_max_size_value; simpl; lia).
  eexists. split; [reflexivity|].
  pose proof (committed_starts_of_contiguous_blocks longer_first same_start
                (calling_pass 2) calling_blocks [] _
                Heq HT HN calling_blocks_contiguous eq_refl) as Hiff.
  split; [|split].
  - apply Hiff. left.
    exists {| BeginAddress := 0x1028; EndAddress := 0x1030; UnwindData := 0 |}.
    split; [simpl; auto|]. split; [vm_compute; split; [discriminate | reflexivity]|].
    reflexivity.
  - apply Hiff. right.
    exists 1, (BasicBlock.mk 0x1010 0x1020 BASIC_BLOCK_FLAG_CALL 0x1030).
    split; [reflexivity|]. vm_compute. auto.
  - intros Hd. apply Hiff in Hd. simpl in Hd.
    destruct Hd as [Hd|[Hd|[]]]; discriminate Hd.
Defined.
